(** * Implicit interval tree with interpolation index (iitii.h)

    A shallow embedding of the two index templates of [iitii.h], [iit] and
    [iitii], with the shared base [iit_base], the builder and the rank
    geometry, followed by the properties of construction and of the overlap
    queries.

    Conventions of the embedding.
    - [Rank] and [Level] are [std::size_t]: values in [Z], every arithmetic
      operation reduced modulo [2^64]; [unsigned] is reduced modulo [2^32].
    - [Pos] is an integer position type: a value in [Z] between [pos_min]
      and [pos_max] ([std::numeric_limits<Pos>]).
    - A [std::vector] is a [list]; reading or writing past its end is
      undefined behaviour in the source and [None] here, so every function
      that indexes a vector returns an [option].
    - Loops run on fuel; the theorems show the fuel given is enough.
    - [assert] is compiled out (NDEBUG); the asserted conditions are stated
      separately where a property is about them.
    - Floating point ([float], [double]) and the arithmetic that depends on
      the instantiation of [Pos] are operations of a class, so every result
      holds whatever their rounding is. *)

From Stdlib Require Import ZArith Lia List Permutation Sorted QArith Qround.
From stdpp Require Import prelude sorting.

Local Open Scope Z_scope.

(** ** Machine integers *)

Definition wrap (w x : Z) : Z := x mod 2 ^ w.

Definition add64 (a b : Z) : Z := wrap 64 (a + b).
Definition sub64 (a b : Z) : Z := wrap 64 (a - b).
Definition mul64 (a b : Z) : Z := wrap 64 (a * b).
(** [a << k] on [size_t] *)
Definition shl64 (a k : Z) : Z := wrap 64 (Z.shiftl a k).

(** [static const Rank nrank = std::numeric_limits<Rank>::max()] *)
Definition nrank : Z := 2 ^ 64 - 1.

(** [v[i]] for a rank [i] *)
Definition at_rank {A : Type} (v : list A) (i : Z) : option A := v !! Z.to_nat i.
Infix "!!r" := at_rank (at level 20).

(** [v.size()] *)
Definition vsize {A : Type} (v : list A) : Z := Z.of_nat (length v).

(** ** Loops *)

(** [while (cond) body], with the guard evaluated before each turn. *)
Fixpoint while {S : Type} (fuel : nat) (cond : S → option bool)
    (body : S → option S) (s : S) : option S :=
  c ← cond s;
  if c : bool then
    match fuel with
    | O => None
    | Datatypes.S fuel' => s' ← body s; while fuel' cond body s'
    end
  else Some s.

(** ** Rank geometry ([iit_base], protected members) *)

(** The number of 1 bits below the lowest 0 bit. *)
Fixpoint trailing_ones (bits : nat) (x : Z) : Z :=
  match bits with
  | O => 0
  | Datatypes.S bits' =>
      if Z.odd x then 1 + trailing_ones bits' (Z.shiftr x 1) else 0
  end.

(** [Level level(Rank node)]: [__builtin_ctzll(~node)] *)
Definition level (node : Z) : Z := trailing_ones 64 node.

(** [Rank parent(Rank node)], with the [root] member passed in *)
Definition parent (root node : Z) : Z :=
  if node =? root then nrank
  else
    let lv := level node in
    let ofs := shl64 1 lv in
    if Z.odd (Z.shiftr node (lv + 1)) then sub64 node ofs
    else add64 node ofs.

(** [Rank left(Rank node)] *)
Definition left (node : Z) : Z :=
  let lv := level node in
  if 0 <? lv then sub64 node (shl64 1 (lv - 1)) else nrank.

(** [Rank right(Rank node)] *)
Definition right (node : Z) : Z :=
  let lv := level node in
  if 0 <? lv then add64 node (shl64 1 (lv - 1)) else nrank.

(** [iitii::leftmost_child] *)
Definition leftmost_child (subtree : Z) : Z :=
  let k := level subtree in
  let ofs := sub64 (shl64 1 k) 1 in
  sub64 subtree ofs.

(** [iitii::rightmost_child] *)
Definition rightmost_child (subtree : Z) : Z :=
  let k := level subtree in
  let ofs := sub64 (shl64 1 k) 1 in
  add64 subtree ofs.

(** ** Items and nodes *)

(** The template parameters [Item], [get_beg] and [get_end]. *)
Class Interval (Item : Type) := {
  get_beg : Item → Z;
  get_end : Item → Z;
}.

(** [struct iit_node_base] *)
Record iit_node_base (Item : Type) := {
  item : Item;
  inside_max_end : Z;
}.
Arguments item {Item} _.
Arguments inside_max_end {Item} _.

(** The template parameter [Node] of [iit_base]: a type derived from
    [iit_node_base], built from an item, whose [inside_max_end] member can be
    assigned. *)
Class NodeType (Item : Type) `{Interval Item} (Node : Type) := {
  node_base : Node → iit_node_base Item;
  node_new : Item → Node;
  node_set_ime : Node → Z → Node;
  node_base_new : ∀ it,
    node_base (node_new it) = {| item := it; inside_max_end := get_end it |};
  node_base_set : ∀ n v,
    node_base (node_set_ime n v) =
      {| item := item (node_base n); inside_max_end := v |};
}.

Section Node.
Context {Item : Type} `{NodeType Item Node}.

Definition node_item (n : Node) : Item := item (node_base n).
Definition node_ime (n : Node) : Z := inside_max_end (node_base n).
(** [Pos beg() const] and [Pos end() const] *)
Definition node_beg (n : Node) : Z := get_beg (node_item n).
Definition node_end (n : Node) : Z := get_end (node_item n).

(** [bool operator<(const iit_node_base& rhs) const] *)
Definition node_lt (lhs rhs : Node) : bool :=
  let lbeg := node_beg lhs in
  let rbeg := node_beg rhs in
  if lbeg =? rbeg then node_end lhs <? node_end rhs
  else lbeg <? rbeg.

(** [std::sort(nodes.begin(), nodes.end())]: a comparison sort that only
    consults [operator<]; the insertion sort that the library runs on short
    ranges. The properties below use only that its output is an ordered
    rearrangement of its input. *)
Fixpoint sort_insert (x : Node) (v : list Node) : list Node :=
  match v with
  | [] => [x]
  | y :: v' => if node_lt x y then x :: y :: v' else y :: sort_insert x v'
  end.

Definition std_sort (v : list Node) : list Node :=
  fold_left (λ acc x, sort_insert x acc) v [].

End Node.

(** ** [class iit_base] *)

Record iit_base (Node : Type) := {
  nodes : list Node;
  full_size : Z;
  root : Z;
  root_level : Z;
}.
Arguments nodes {Node} _.
Arguments full_size {Node} _.
Arguments root {Node} _.
Arguments root_level {Node} _.

Section IitBase.
Context {Item : Type} `{NodeType Item Node}.

(** [size_t scan(Rank subtree, Pos qbeg, Pos qend, std::vector<Item>& ans)]:
    the cost returned and the vector after the call. *)
Fixpoint scan (fuel : nat) (nds : list Node) (subtree qbeg qend : Z)
    (ans : list Item) : option (Z * list Item) :=
  if subtree =? nrank then Some (0, ans)
  else
    match fuel with
    | O => None
    | Datatypes.S fuel' =>
        match nds !!r subtree with
        | None =>
            '(c, ans) ← scan fuel' nds (left subtree) qbeg qend ans;
            Some (add64 1 c, ans)
        | Some n =>
            let cost := 1 in
            if qbeg <? node_ime n then
              '(c, ans) ← scan fuel' nds (left subtree) qbeg qend ans;
              let cost := add64 cost c in
              let nbeg := node_beg n in
              if nbeg <? qend then
                let ans :=
                  if qbeg <? node_end n then ans ++ [node_item n] else ans in
                '(c, ans) ← scan fuel' nds (right subtree) qbeg qend ans;
                Some (add64 cost c, ans)
              else Some (cost, ans)
            else Some (cost, ans)
        end
    end.

(** The geometry loop of the constructor:
    [for (root_level = 0, full_size = 0; full_size < nodes.size();
          ++root_level, full_size = (size_t(1)<<(root_level+1)) - 1);] *)
Definition tree_geometry (nsz : Z) : option (Z * Z) :=
  while 64
    (λ '(root_level, full_size), Some (full_size <? nsz))
    (λ '(root_level, full_size),
       let root_level := add64 root_level 1 in
       Some (root_level, sub64 (shl64 1 (add64 root_level 1)) 1))
    (0, 0).

(** [nodes.size() - (2 - nodes.size() % 2)], the rightmost real leaf *)
Definition rightmost_leaf (nsz : Z) : Z := sub64 nsz (sub64 2 (nsz mod 2)).

(** [right_border_nodes]: the path from the rightmost real leaf to the root *)
Definition right_border (root nsz : Z) : option (list Z) :=
  while 64
    (λ border, back ← last border; Some (negb (back =? root)))
    (λ border, back ← last border; Some (border ++ [parent root back]))
    [rightmost_leaf nsz].

(** The body of the inner loop of the bottom-up indexing, for the node of
    rank [n] on level [lv]; the state is the node vector and
    [right_border_ime]. *)
Definition augment_node (border : list Z) (lv n : Z)
    (st : list Node * Z) : option (list Node * Z) :=
  let '(nds, right_border_ime) := st in
  nd ← nds !!r n;
  let ime := node_end nd in
  l ← nds !!r (left n);
  let ime := Z.max ime (node_ime l) in
  ime ← (if right n <? vsize nds then
           r ← nds !!r (right n); Some (Z.max ime (node_ime r))
         else Some (Z.max ime right_border_ime));
  let nds := <[Z.to_nat n := node_set_ime nd ime]> nds in
  b ← border !!r lv;
  Some (nds, if n =? b then ime else right_border_ime).

(** [for (Rank n = (x<<1)-1; n < nodes.size(); n += step)] *)
Definition augment_level (border : list Z) (lv : Z)
    (st : list Node * Z) : option (list Node * Z) :=
  let x := shl64 1 (sub64 lv 1) in
  let step := shl64 x 2 in
  '(_, st) ← while (length st.1)
    (λ '(n, st), Some (n <? vsize st.1))
    (λ '(n, st), st ← augment_node border lv n st; Some (add64 n step, st))
    (sub64 (shl64 x 1) 1, st);
  Some st.

(** [for (Level lv=1; lv <= root_level; ++lv)] *)
Definition augment_levels (border : list Z) (root_level : Z)
    (st : list Node * Z) : option (list Node * Z) :=
  '(_, st) ← while 64
    (λ '(lv, st), Some (lv <=? root_level))
    (λ '(lv, st), st ← augment_level border lv st; Some (add64 lv 1, st))
    (1, st);
  Some st.

(** [iit_base(std::vector<Node>& nodes_)] *)
Definition iit_base_ctor (nodes_ : list Node) : option (iit_base Node) :=
  let nsz := vsize nodes_ in
  '(root_level, full_size) ← tree_geometry nsz;
  let root := sub64 (shl64 1 root_level) 1 in
  if nsz =? 0 then
    Some {| nodes := nodes_; full_size := full_size; root := root;
            root_level := root_level |}
  else
    let nds := std_sort nodes_ in
    border ← right_border root nsz;
    b0 ← border !!r 0;
    n0 ← nds !!r b0;
    '(nds, _) ← augment_levels border root_level (nds, node_ime n0);
    Some {| nodes := nds; full_size := full_size; root := root;
            root_level := root_level |}.

(** [virtual size_t overlap(Pos qbeg, Pos qend, std::vector<Item>& ans) const] *)
Definition iit_base_overlap (t : iit_base Node) (qbeg qend : Z)
    (ans : list Item) : option (Z * list Item) :=
  let ans := [] in
  scan 64 (nodes t) (root t) qbeg qend ans.

(** [std::vector<Item> overlap(Pos qbeg, Pos qend) const] *)
Definition iit_base_overlap_items (t : iit_base Node) (qbeg qend : Z)
    : option (list Item) :=
  '(_, ans) ← iit_base_overlap t qbeg qend [];
  Some ans.

(** [class iit_builder_base]: the state is the buffer [nodes_]. *)
Definition builder_add (nodes_ : list Node) (it : Item) : list Node :=
  nodes_ ++ [node_new it].

(** [add(InputIterator begin, InputIterator end)]:
    [std::for_each(begin, end, [&](const Item& it) { add(it); })] *)
Definition builder_add_range (nodes_ : list Node) (its : list Item)
    : list Node :=
  fold_left builder_add its nodes_.

(** [builder(begin, end)] *)
Definition builder_of_range (its : list Item) : list Node :=
  builder_add_range [] its.

End IitBase.

(** ** [class iit] *)

(** [iit_node_base] is itself the node type of [iit]. *)
#[export] Program Instance iit_node_type {Item : Type} `{Interval Item}
    : NodeType Item (iit_node_base Item) := {|
  node_base n := n;
  node_new it := {| item := it; inside_max_end := get_end it |};
  node_set_ime n v := {| item := item n; inside_max_end := v |};
|}.
Solve All Obligations with done.

Section Iit.
Context {Item : Type} `{Interval Item}.

(** [iit::builder(...).build()], which runs [iit(nodes_)], the inherited
    constructor. *)
Definition iit_build (nodes_ : list (iit_node_base Item))
    : option (iit_base (iit_node_base Item)) :=
  iit_base_ctor nodes_.

End Iit.

(** ** Numeric parameters of [iitii] *)

(** The position type [Pos]: its limits, and the two quotients of the
    interpolation model, whose evaluation (promotion to [unsigned], signed
    or unsigned division) depends on the instantiation. *)
Class PosType := {
  (** [std::numeric_limits<Pos>::min()] and [max()] *)
  pos_min : Z;
  pos_max : Z;
  (** [1 + (max_beg - min_beg)/domains], as a [Pos] *)
  pos_domain_size : ∀ (max_beg min_beg domains : Z), Z;
  (** [(beg - min_beg)/domain_size] *)
  pos_domain_quot : ∀ (beg min_beg domain_size : Z), Z;
}.

(** The operations on [double] and [float] that the model uses. *)
Class FloatOps := {
  dbl : Type;
  flt : Type;
  (** [std::numeric_limits<double>::quiet_NaN()], [0.0] *)
  d_nan : dbl;
  d_zero : dbl;
  (** [double(x)] for an integer [x] *)
  d_of_Z : Z → dbl;
  d_add : dbl → dbl → dbl;
  d_sub : dbl → dbl → dbl;
  d_mul : dbl → dbl → dbl;
  d_div : dbl → dbl → dbl;
  (** [==], [<=] and [std::isfinite] *)
  d_eqb : dbl → dbl → bool;
  d_leb : dbl → dbl → bool;
  d_isfinite : dbl → bool;
  (** [std::numeric_limits<float>::quiet_NaN()], [0.0f] *)
  f_nan : flt;
  f_zero : flt;
  (** [float(x)] for a [double] and for an integer *)
  f_of_d : dbl → flt;
  f_of_Z : Z → flt;
  f_add : flt → flt → flt;
  f_mul : flt → flt → flt;
  (** [std::max], [roundf], [std::isfinite] *)
  f_max : flt → flt → flt;
  f_round : flt → flt;
  f_isfinite : flt → bool;
  (** [size_t(x)] *)
  f_to_Z : flt → Z;
  (** a NaN is not finite *)
  f_isfinite_nan : f_isfinite f_nan = false;
}.

(** ** [struct iitii_node] *)

Record iitii_node (Item : Type) := {
  iitii_base : iit_node_base Item;
  outside_max_end : Z;
}.
Arguments iitii_base {Item} _.
Arguments outside_max_end {Item} _.

(** [iitii_node(const Item& item_)] and the assignment to the inherited
    [inside_max_end]. *)
#[export] Program Instance iitii_node_type {Item : Type} `{Interval Item}
    `{PosType} : NodeType Item (iitii_node Item) := {|
  node_base n := iitii_base n;
  node_new it :=
    {| iitii_base := {| item := it; inside_max_end := get_end it |};
       outside_max_end := pos_min |};
  node_set_ime n v :=
    {| iitii_base := {| item := item (iitii_base n); inside_max_end := v |};
       outside_max_end := outside_max_end n |};
|}.
Solve All Obligations with done.

(** [node.outside_max_end = v] *)
Definition node_set_ome {Item : Type} (n : iitii_node Item) (v : Z)
    : iitii_node Item :=
  {| iitii_base := iitii_base n; outside_max_end := v |}.

(** ** Regression *)

Section Regression.
Context `{FloatOps}.

(** [regress<XT,YT>(points)], returning (intercept, slope) *)
Definition regress (points : list (Z * Z)) : dbl * dbl :=
  match points with
  | [] => (d_nan, d_nan)
  | _ =>
      let '(sum_x, sum_y) :=
        fold_left (λ '(sum_x, sum_y) pt,
                     (d_add sum_x (d_of_Z pt.1), d_add sum_y (d_of_Z pt.2)))
                  points (d_zero, d_zero) in
      let mean_x := d_div sum_x (d_of_Z (vsize points)) in
      let mean_y := d_div sum_y (d_of_Z (vsize points)) in
      let '(cov, var) :=
        fold_left (λ '(cov, var) pt,
                     let x_err := d_sub (d_of_Z pt.1) mean_x in
                     (d_add cov (d_mul x_err (d_sub (d_of_Z pt.2) mean_y)),
                      d_add var (d_mul x_err x_err)))
                  points (d_zero, d_zero) in
      if d_eqb var d_zero then (d_zero, d_zero)
      else
        let m := d_div cov var in
        (d_sub mean_y (d_mul m mean_x), m)
  end.

(** [mean_absolute_residual<XT,YT>(points, b, m)] *)
Definition mean_absolute_residual (points : list (Z * Z)) (b m : dbl) : dbl :=
  match points with
  | [] => d_nan
  | _ =>
      let sr :=
        fold_left (λ sr pt,
                     let y := d_of_Z pt.2 in
                     let fx := d_add (d_mul m (d_of_Z pt.1)) b in
                     d_add sr (if d_leb fx y then d_sub y fx else d_sub fx y))
                  points d_zero in
      d_div sr (d_of_Z (vsize points))
  end.

End Regression.

(** ** [class iitii] *)

Record iitii (Item : Type) `{FloatOps} := {
  base : iit_base (iitii_node Item);
  domains : Z;
  domain_size : Z;
  parameters : list flt;
  min_beg : Z;
  queries : Z;
  total_climb_cost : Z;
}.
Arguments base {Item _} _.
Arguments domains {Item _} _.
Arguments domain_size {Item _} _.
Arguments parameters {Item _} _.
Arguments min_beg {Item _} _.
Arguments queries {Item _} _.
Arguments total_climb_cost {Item _} _.

(** [v[i] = x] *)
Definition vset {A : Type} (v : list A) (i : Z) (x : A) : option (list A) :=
  if i <? vsize v then Some (<[Z.to_nat i := x]> v) else None.

Section Iitii.
Context {Item : Type} `{Interval Item} `{PosType} `{FloatOps}.

(** [unsigned which_domain(Pos beg) const] *)
Definition which_domain (domains domain_size min_beg : Z) (beg : Z) : Z :=
  if beg <? min_beg then 0
  else Z.min (wrap 32 (domains - 1))
             (wrap 32 (pos_domain_quot beg min_beg domain_size)).

(** [Rank predict_leaf(Pos qbeg) const] *)
Definition predict_leaf (t : iitii Item) (qbeg : Z) : option Z :=
  let which := which_domain (domains t) (domain_size t) (min_beg t) qbeg in
  lv_f ← parameters t !!r wrap 32 (3 * which + 2);
  if negb (f_isfinite lv_f) then Some nrank
  else
    let lv := wrap 64 (f_to_Z lv_f) in
    p0 ← parameters t !!r wrap 32 (3 * which);
    p1 ← parameters t !!r wrap 32 (3 * which + 1);
    let ofs_f := f_add p0 (f_mul p1 (f_of_Z qbeg)) in
    let ofs := wrap 64 (f_to_Z (f_max f_zero (f_round ofs_f))) in
    let r := sub64 (mul64 (shl64 1 lv) (add64 (mul64 2 ofs) 1)) 1 in
    let nsz := vsize (nodes (base t)) in
    Some (if r <? nsz then r else sub64 nsz (sub64 2 (nsz mod 2))).

(** The first loop of [train]: the training points of each domain. *)
Definition train_points (t : iitii Item) (lv : Z)
    : option (list (list (Z * Z))) :=
  let nds := nodes (base t) in
  let step := shl64 1 (add64 lv 1) in
  '(_, _, points) ← while (length nds)
    (λ '(r, ofs, points), Some (r <? vsize nds))
    (λ '(r, ofs, points),
       nd ← nds !!r r;
       let which :=
         which_domain (domains t) (domain_size t) (min_beg t) (node_beg nd) in
       pts ← points !!r which;
       Some (add64 r step, add64 ofs 1,
             <[Z.to_nat which := pts ++ [(node_beg nd, ofs)]]> points))
    (sub64 (shl64 1 lv) 1, 0, replicate (Z.to_nat (domains t)) []);
  Some points.

(** The second loop of [train]: one model for each domain. *)
Definition train_models (t : iitii Item) (lv : Z)
    (points : list (list (Z * Z))) : option (list flt) :=
  '(_, params) ← while (Z.to_nat (domains t))
    (λ '(which, params), Some (which <? domains t))
    (λ '(which, params),
       pts ← points !!r which;
       let w := regress pts in
       params ←
         (if d_isfinite w.1 && d_isfinite w.2 &&
             d_leb (mean_absolute_residual pts w.1 w.2)
                   (d_of_Z (Z.shiftl 1 (root_level (base t) / 2)))
          then
            params ← vset params (wrap 32 (3 * which)) (f_of_d w.1);
            params ← vset params (wrap 32 (3 * which + 1)) (f_of_d w.2);
            vset params (wrap 32 (3 * which + 2)) (f_of_Z lv)
          else Some params);
       Some (wrap 32 (which + 1), params))
    (0, parameters t);
  Some params.

(** [void train(Level lv = 0)]: the new [parameters] *)
Definition train (t : iitii Item) (lv : Z) : option (list flt) :=
  points ← train_points t lv;
  train_models t lv points.

(** [Pos outside_min_beg(Rank subtree) const] *)
Definition outside_min_beg (nds : list (iitii_node Item)) (subtree : Z)
    : option Z :=
  nd ← nds !!r subtree;
  let beg := node_beg nd in
  let l := leftmost_child subtree in
  tie ← (if l =? 0 then Some false
         else nl ← nds !!r sub64 l 1; Some (node_beg nl =? beg));
  if tie : bool then Some beg
  else
    let r := rightmost_child subtree in
    if r <? sub64 (vsize nds) 1 then
      nr ← nds !!r add64 r 1; Some (node_beg nr)
    else Some pos_max.

(** [running_max_end] of the constructor *)
Definition running_max_end (nds : list (iitii_node Item)) : option (list Z) :=
  n0 ← nds !!r 0;
  '(_, rme) ← while (length nds)
    (λ '(n, rme), Some (n <? vsize nds))
    (λ '(n, rme),
       prev ← rme !!r sub64 n 1;
       nd ← nds !!r n;
       Some (add64 n 1, rme ++ [Z.max prev (node_end nd)]))
    (1, [node_end n0]);
  Some rme.

(** [while (nodes[leq].beg() == node.beg()) { if (leq == 0) break; --leq; }]
    The second component of the state records that [break] was taken. *)
Definition walk_back (nds : list (iitii_node Item)) (beg leq : Z) : option Z :=
  '(leq, _) ← while (Datatypes.S (Z.to_nat leq))
    (λ '(leq, broke),
       if broke : bool then Some false
       else nd ← nds !!r leq; Some (node_beg nd =? beg))
    (λ '(leq, broke),
       if leq =? 0 then Some (leq, true) else Some (sub64 leq 1, false))
    (leq, false);
  Some leq.

(** The body of the loop that fills [outside_max_end], for rank [n] *)
Definition fill_outside_node (rme : list Z) (n : Z)
    (nds : list (iitii_node Item)) : option (list (iitii_node Item)) :=
  node ← nds !!r n;
  let l := leftmost_child n in
  if 0 <? l then
    leq ← walk_back nds (node_beg node) (sub64 l 1);
    nleq ← nds !!r leq;
    v ← (if node_beg nleq <? node_beg node then rme !!r leq
         else Some pos_min);
    Some (<[Z.to_nat n := node_set_ome node v]> nds)
  else Some nds.

(** [for (Rank n = 0; n < nodes.size(); ++n)] *)
Definition fill_outside (rme : list Z) (nds : list (iitii_node Item))
    : option (list (iitii_node Item)) :=
  '(_, nds) ← while (length nds)
    (λ '(n, nds), Some (n <? vsize nds))
    (λ '(n, nds), nds ← fill_outside_node rme n nds; Some (add64 n 1, nds))
    (0, nds);
  Some nds.

(** [iitii(std::vector<Node>& nodes_, unsigned domains_)] *)
Definition iitii_ctor (nodes_ : list (iitii_node Item)) (domains_ : Z)
    : option (iitii Item) :=
  super ← iit_base_ctor nodes_;
  let domains := Z.max 1 domains_ in
  let parameters := replicate (Z.to_nat (wrap 32 (domains * 3))) f_nan in
  let nds := nodes super in
  if vsize nds =? 0 then
    Some {| base := super; domains := domains; domain_size := pos_max;
            parameters := parameters; min_beg := pos_max;
            queries := 0; total_climb_cost := 0 |}
  else
    n0 ← nds !!r 0;
    let min_beg := node_beg n0 in
    nback ← last nds;
    let domain_size := pos_domain_size (node_beg nback) min_beg domains in
    rme ← running_max_end nds;
    nds ← fill_outside rme nds;
    let t := {| base := {| nodes := nds; full_size := full_size super;
                           root := root super;
                           root_level := root_level super |};
                domains := domains; domain_size := domain_size;
                parameters := parameters; min_beg := min_beg;
                queries := 0; total_climb_cost := 0 |} in
    parameters ← train t 0;
    Some {| base := base t; domains := domains; domain_size := domain_size;
            parameters := parameters; min_beg := min_beg;
            queries := 0; total_climb_cost := 0 |}.

(** The guard of the climb in [iitii::overlap] *)
Definition climb_guard (t : iitii Item) (qbeg qend subtree : Z) : option bool :=
  let nds := nodes (base t) in
  if subtree =? root (base t) then Some false
  else if vsize nds <=? subtree then Some true
  else
    nd ← nds !!r subtree;
    if qbeg <? outside_max_end nd then Some true
    else omb ← outside_min_beg nds subtree; Some (omb <? qend).

(** The climb: the subtree reached and [climb_cost] *)
Definition climb (t : iitii Item) (qbeg qend prediction : Z) : option (Z * Z) :=
  while 64
    (λ '(subtree, climb_cost), climb_guard t qbeg qend subtree)
    (λ '(subtree, climb_cost),
       Some (parent (root (base t)) subtree, add64 climb_cost 1))
    (prediction, 0).

(** [size_t overlap(Pos qbeg, Pos qend, std::vector<Item>& ans) const override]:
    the cost, the vector after the call, and the index with its counters. *)
Definition iitii_overlap (t : iitii Item) (qbeg qend : Z) (ans : list Item)
    : option (Z * list Item * iitii Item) :=
  prediction ← predict_leaf t qbeg;
  if prediction =? nrank then
    '(cost, ans) ← iit_base_overlap (base t) qbeg qend ans;
    Some (cost, ans, t)
  else
    '(subtree, climb_cost) ← climb t qbeg qend prediction;
    let self :=
      {| base := base t; domains := domains t; domain_size := domain_size t;
         parameters := parameters t; min_beg := min_beg t;
         queries := add64 (queries t) 1;
         total_climb_cost := add64 (total_climb_cost t) climb_cost |} in
    let ans := [] in
    '(cost, ans) ← scan 64 (nodes (base t)) subtree qbeg qend ans;
    Some (add64 cost climb_cost, ans, self).

(** [iitii::builder(...).build(domains)] *)
Definition iitii_build (nodes_ : list (iitii_node Item)) (domains_ : Z)
    : option (iitii Item) :=
  iitii_ctor nodes_ (wrap 32 domains_).

End Iitii.

(** * Vocabulary of the properties *)

(** [lvl n k]: the rank [n] is on level [k], that is [n + 1] is an odd
    multiple of [2^k]. *)
Definition lvl (n k : Z) : Prop :=
  0 <= k ∧ ∃ j, 0 <= j ∧ n + 1 = 2 ^ k * (2 * j + 1).

(** The nodes of ranks [lo] to [hi], both included, that the vector holds. *)
Definition sub {A : Type} (lo hi : Z) (v : list A) : list A :=
  take (Z.to_nat (hi + 1 - lo)) (drop (Z.to_nat lo) v).

Section Vocabulary.
Context {Item : Type} `{NodeType Item Node}.

(** The item overlaps the query: [end(x) > qbeg] and [beg(x) < qend]. *)
Definition overlaps (qbeg qend : Z) (x : Item) : Prop :=
  qbeg < get_end x ∧ get_beg x < qend.

#[export] Instance overlaps_dec qbeg qend x : Decision (overlaps qbeg qend x).
Proof. unfold overlaps. apply _. Defined.

(** The order of [operator<], as "not greater". *)
Definition node_le (a b : Node) : Prop := node_lt b a = false.

(** The node vector is in the order of the sort. *)
Definition sorted_nodes (v : list Node) : Prop :=
  ∀ i j a b, 0 <= i < j → v !!r i = Some a → v !!r j = Some b →
    node_beg a < node_beg b ∨ (node_beg a = node_beg b ∧ node_end a <= node_end b).

End Vocabulary.

Section Invariants.
Context {Item : Type} `{NodeType Item Node}.

(** Every stored [inside_max_end] is at least the [end] of each real node of
    the subtree, which is what the pruning of [scan] relies on. *)
Definition ime_bound (v : list Node) : Prop :=
  ∀ n k nd m, lvl n k → v !!r n = Some nd →
    m ∈ sub (n - (2 ^ k - 1)) (n + (2 ^ k - 1)) v → node_end m <= node_ime nd.

(** The items of a range of nodes that overlap the query, in rank order. *)
Definition overlapping (qbeg qend : Z) (v : list Node) : list Item :=
  filter (overlaps qbeg qend) (node_item <$> v).

End Invariants.

(** The greater of two optional values; [None] is the maximum of nothing. *)
Definition omax (a b : option Z) : option Z :=
  match a, b with
  | Some x, Some y => Some (Z.max x y)
  | Some x, None => Some x
  | None, _ => b
  end.

(** [in_subtree n m]: in the implicit tree, the rank [m] is [n] or lies
    below it, following [left] and [right]. *)
Inductive in_subtree : Z → Z → Prop :=
  | in_subtree_here n : in_subtree n n
  | in_subtree_left n m :
      left n ≠ nrank → in_subtree (left n) m → in_subtree n m
  | in_subtree_right n m :
      right n ≠ nrank → in_subtree (right n) m → in_subtree n m.

Section Augment.
Context {Item : Type} `{NodeType Item Node}.

(** The greatest [end] of a range of nodes. *)
Definition max_ends (v : list Node) : option Z :=
  foldr (λ nd acc, omax (Some (node_end nd)) acc) None v.

(** The nodes as the builder makes them: [inside_max_end] is [end]. *)
Definition fresh (v : list Node) : Prop :=
  ∀ nd, nd ∈ v → node_ime nd = node_end nd.

(** [ime_updated a b]: [b] is [a] after assignments to [inside_max_end]. *)
Inductive ime_updated : Node → Node → Prop :=
  | ime_updated_refl a : ime_updated a a
  | ime_updated_set a b x : ime_updated a b → ime_updated a (node_set_ime b x).

(** Every stored [inside_max_end] is the greatest [end] among the real nodes
    of the subtree of its node. *)
Definition augmented (v : list Node) : Prop :=
  ∀ n k nd, lvl n k → v !!r n = Some nd →
    max_ends (sub (n - (2 ^ k - 1)) (n + (2 ^ k - 1)) v) = Some (node_ime nd).

(** [x] is the greatest [end] among the real nodes whose rank satisfies [P]. *)
Definition is_max_end (v : list Node) (P : Z → Prop) (x : Z) : Prop :=
  (∃ m nd, 0 <= m ∧ P m ∧ v !!r m = Some nd ∧ node_end nd = x) ∧
  (∀ m nd, 0 <= m → P m → v !!r m = Some nd → node_end nd <= x).

(** [x] is the least [beg] among the real nodes whose rank satisfies [P]. *)
Definition is_min_beg (v : list Node) (P : Z → Prop) (x : Z) : Prop :=
  (∃ m nd, 0 <= m ∧ P m ∧ v !!r m = Some nd ∧ node_beg nd = x) ∧
  (∀ m nd, 0 <= m → P m → v !!r m = Some nd → x <= node_beg nd).

(** The geometry that the constructor computes for [nsz] nodes. *)
Definition geometry_of (t : iit_base Node) : Prop :=
  let nsz := vsize (nodes t) in
  0 <= root_level t <= 62 ∧
  root t = 2 ^ root_level t - 1 ∧
  nsz <= full_size t ∧
  (nsz = 0 → root_level t = 0 ∧ full_size t = 0) ∧
  (0 < nsz → 1 <= root_level t ∧ full_size t = 2 ^ (root_level t + 1) - 1).

End Augment.

(** [border_path l0 h border]: the vector holds, at each index [i] up to the
    root level [h], the rank of level [i] whose subtree holds the leaf [l0]. *)
Definition border_path (l0 h : Z) (border : list Z) : Prop :=
  vsize border = h + 1 ∧
  ∀ i b, 0 <= i → border !!r i = Some b →
    lvl b i ∧ b - (2 ^ i - 1) <= l0 <= b + (2 ^ i - 1).

Section AugmentInvariants.
Context {Item : Type} `{NodeType Item Node}.

(** The greatest [end] in the subtree of the rank [n] of level [k], over the
    sorted vector [srt]. *)
Definition subtree_max (srt : list Node) (n k : Z) : option Z :=
  max_ends (sub (n - (2 ^ k - 1)) (n + (2 ^ k - 1)) srt).

(** The state of the node vector when the bottom-up indexing is about to
    visit the rank [n] of level [lv]: the nodes of lower levels and the nodes
    of level [lv] before [n] hold the maximum of their subtree, the others
    still hold their own [end]. *)
Definition nodes_inv (srt : list Node) (lv n : Z) (nds : list Node) : Prop :=
  Forall2 ime_updated srt nds ∧
  ∀ m km nd, lvl m km → nds !!r m = Some nd →
    (km < lv ∨ (km = lv ∧ m < n) → subtree_max srt m km = Some (node_ime nd)) ∧
    (¬ (km < lv ∨ (km = lv ∧ m < n)) → node_ime nd = node_end nd).

(** [right_border_ime] once the border nodes up to level [lv] are done: it is
    the maximum of the subtree of the last real border node [b], of level
    [j]; when border nodes above [b] are imaginary, their subtree begins
    where the subtree of [b] begins, and the subtree of [b] reaches the last
    real node. *)
Definition border_inv (srt : list Node) (border : list Z) (lv rbi : Z) : Prop :=
  ∃ j b, 0 <= j <= lv ∧ border !!r j = Some b ∧ b < vsize srt ∧
    subtree_max srt b j = Some rbi ∧
    (j < lv → ∃ bk, border !!r lv = Some bk ∧ vsize srt <= bk ∧
                    bk - (2 ^ lv - 1) = b - (2 ^ j - 1) ∧
                    vsize srt - 1 <= b + (2 ^ j - 1)).

End AugmentInvariants.

(** * Instances used in the examples *)

(** Items [(beg, end, id)] over [int] positions. *)
#[export] Instance triple_interval : Interval (Z * Z * Z) :=
  {| get_beg x := x.1.1; get_end x := x.1.2 |}.

(** [Pos = int], for positions whose differences fit the type. *)
#[export] Instance int_pos : PosType :=
  {| pos_min := - 2 ^ 31;
     pos_max := 2 ^ 31 - 1;
     pos_domain_size max_beg min_beg domains :=
       1 + (max_beg - min_beg) `quot` domains;
     pos_domain_quot beg min_beg domain_size :=
       (beg - min_beg) `quot` domain_size |}.

(** Idealised floating point: exact rationals, [None] for a value that is
    not finite. It serves to run the model on examples; no property depends
    on it. *)
Definition qlift2 (f : Q → Q → Q) (a b : option Q) : option Q :=
  match a, b with
  | Some x, Some y => Some (Qred (f x y))
  | _, _ => None
  end.

#[export] Instance exact_float : FloatOps :=
  {| dbl := option Q;
     flt := option Q;
     d_nan := None;
     d_zero := Some (inject_Z 0);
     d_of_Z z := Some (inject_Z z);
     d_add := qlift2 Qplus;
     d_sub := qlift2 Qminus;
     d_mul := qlift2 Qmult;
     d_div a b :=
       match b with
       | Some y => if Qeq_bool y (inject_Z 0) then None else qlift2 Qdiv a b
       | None => None
       end;
     d_eqb a b :=
       match a, b with Some x, Some y => Qeq_bool x y | _, _ => false end;
     d_leb a b :=
       match a, b with Some x, Some y => Qle_bool x y | _, _ => false end;
     d_isfinite a := bool_decide (is_Some a);
     f_nan := None;
     f_zero := Some (inject_Z 0);
     f_of_d a := a;
     f_of_Z z := Some (inject_Z z);
     f_add := qlift2 Qplus;
     f_mul := qlift2 Qmult;
     f_max a b :=
       match a, b with
       | Some x, Some y => if Qle_bool y x then a else b
       | _, _ => a
       end;
     f_round a :=
       match a with
       | Some x =>
           Some (inject_Z (if Qle_bool (inject_Z 0) x
                           then Qfloor (Qplus x (Qmake 1 2))
                           else Qceiling (Qminus x (Qmake 1 2))))
       | None => None
       end;
     f_isfinite a := bool_decide (is_Some a);
     f_to_Z a :=
       match a with Some x => Qnum x `quot` Zpos (Qden x) | None => 0 end;
     f_isfinite_nan := eq_refl |}.

Section OutsideVocabulary.
Context {Item : Type} `{Interval Item} `{PosType}.
Implicit Types (v : list (iitii_node Item)).

(** [outside_lt v n i]: the real node of rank [i] is outside the subtree of
    the real node of rank [n] and begins strictly before it. *)
Definition outside_lt v (n i : Z) : Prop :=
  ¬ in_subtree n i ∧
  ∃ ndn ndi, v !!r n = Some ndn ∧ v !!r i = Some ndi ∧ node_beg ndi < node_beg ndn.

(** [outside_ge v n i]: the real node of rank [i] is outside the subtree of
    the real node of rank [n] and does not begin before it. *)
Definition outside_ge v (n i : Z) : Prop :=
  ¬ in_subtree n i ∧
  ∃ ndn ndi, v !!r n = Some ndn ∧ v !!r i = Some ndi ∧ node_beg ndn <= node_beg ndi.

(** [x] is the value that [outside_max_end] of the node of rank [n] must
    hold: the greatest [end] among the nodes of [outside_lt], or the least
    [Pos] when there is none. *)
Definition outside_max_end_of v (n x : Z) : Prop :=
  ((∃ i, 0 <= i ∧ outside_lt v n i) → is_max_end v (outside_lt v n) x) ∧
  ((¬ ∃ i, 0 <= i ∧ outside_lt v n i) → x = pos_min).

(** [x] is the value of [outside_min_beg] for the node of rank [n]: the least
    [beg] among the nodes of [outside_ge], or the greatest [Pos] when there is
    none. *)
Definition outside_min_beg_of v (n x : Z) : Prop :=
  ((∃ i, 0 <= i ∧ outside_ge v n i) → is_min_beg v (outside_ge v n) x) ∧
  ((¬ ∃ i, 0 <= i ∧ outside_ge v n i) → x = pos_max).

(** Every stored [outside_max_end] holds the value it must. *)
Definition outside_augmented v : Prop :=
  ∀ n nd, 0 <= n → v !!r n = Some nd → outside_max_end_of v n (outside_max_end nd).

(** The nodes as the builder makes them: [outside_max_end] is the least [Pos]. *)
Definition fresh_outside v : Prop :=
  ∀ nd, nd ∈ v → outside_max_end nd = pos_min.

End OutsideVocabulary.

Section IitiiInvariant.
Context {Item : Type} `{Interval Item} `{PosType} `{FloatOps}.

(** The state of an [iitii] index after construction, which queries keep:
    the geometry, both augments and the sort order of the nodes, and no
    finite parameter when there is no node. *)
Definition iitii_ok (t : iitii Item) : Prop :=
  let nds := nodes (base t) in
  vsize nds < 2 ^ 63 ∧
  geometry_of (base t) ∧ augmented nds ∧ sorted_nodes nds ∧
  outside_augmented nds ∧
  (vsize nds = 0 → Forall (λ p, f_isfinite p = false) (parameters t)).

(** The parameter vector holds three entries for each domain, which is what
    [parameters.resize(domains*3, ...)] gives when [domains*3] does not wrap
    around. *)
Definition params_ok (t : iitii Item) : Prop :=
  1 <= domains t ∧ 3 * domains t < 2 ^ 32 ∧
  vsize (parameters t) = 3 * domains t.

(** The index with another parameter vector. *)
Definition with_parameters (t : iitii Item) (params : list flt) : iitii Item :=
  {| base := base t; domains := domains t; domain_size := domain_size t;
     parameters := params; min_beg := min_beg t;
     queries := queries t; total_climb_cost := total_climb_cost t |}.

(** The index with other values of its two counters. *)
Definition with_counters (t : iitii Item) (q c : Z) : iitii Item :=
  {| base := base t; domains := domains t; domain_size := domain_size t;
     parameters := parameters t; min_beg := min_beg t;
     queries := q; total_climb_cost := c |}.

End IitiiInvariant.

Section ClimbVocabulary.
Context {Item : Type} `{Interval Item} `{PosType} `{FloatOps}.

(** [climb_steps t qbeg qend s k s']: from the subtree [s] the climb takes
    [k] steps to the parent and stops at [s']. *)
Inductive climb_steps (t : iitii Item) (qbeg qend : Z) : Z → nat → Z → Prop :=
  | climb_stop s :
      climb_guard t qbeg qend s = Some false → climb_steps t qbeg qend s 0 s
  | climb_up s k s' :
      climb_guard t qbeg qend s = Some true →
      climb_steps t qbeg qend (parent (root (base t)) s) k s' →
      climb_steps t qbeg qend s (S k) s'.

End ClimbVocabulary.

(** Items of the examples: S3 of the scenarios extended to six items, so that
    the node of rank 5 has an imaginary right child, and seven items spread
    evenly, on which the interpolation model is accepted. *)
Definition example_items : list (Z * Z * Z) :=
  [(0, 100, 0); (10, 20, 1); (20, 30, 2); (15, 18, 3); (40, 50, 4); (41, 42, 5)].

Definition example_items7 : list (Z * Z * Z) :=
  [(10, 20, 1); (20, 30, 2); (15, 18, 3); (40, 50, 4); (41, 42, 5);
   (60, 70, 6); (80, 90, 7)].

(** The order of the sort on the keys [(beg, end)] and on items. *)
Definition key_le (a b : Z * Z) : Prop :=
  a.1 < b.1 ∨ (a.1 = b.1 ∧ a.2 <= b.2).

Definition item_key {Item : Type} `{Interval Item} (x : Item) : Z * Z :=
  (get_beg x, get_end x).

(** The index that [iitii::builder] builds from [example_items7] with two
    domains, evaluated. *)
Definition example_index : iitii (Z * Z * Z) :=
  Eval vm_compute in
    default
      {| base := {| nodes := []; full_size := 0; root := 0; root_level := 0 |};
         domains := 1; domain_size := 0; parameters := []; min_beg := 0;
         queries := 0; total_climb_cost := 0 |}
      (iitii_build (builder_of_range example_items7) 2).

(** Three items and the index that [iitii::builder] builds from them with
    three domains, evaluated: the domains are 34 positions wide, and the one
    in the middle holds no node of even rank. *)
Definition example_items3 : list (Z * Z * Z) :=
  [(0, 5, 0); (1, 6, 1); (100, 110, 2)].

Definition example_index3 : iitii (Z * Z * Z) :=
  Eval vm_compute in
    default
      {| base := {| nodes := []; full_size := 0; root := 0; root_level := 0 |};
         domains := 1; domain_size := 0; parameters := []; min_beg := 0;
         queries := 0; total_climb_cost := 0 |}
      (iitii_build (builder_of_range example_items3) 3).

(** * Properties *)

(** ** Machine arithmetic *)

Lemma wrap_small w x : 0 <= x < 2 ^ w → wrap w x = x.
Proof. intros. unfold wrap. by apply Z.mod_small. Qed.

Lemma wrap_range w x : 0 <= w → 0 <= wrap w x < 2 ^ w.
Proof. intros. unfold wrap. apply Z.mod_pos_bound. by apply Z.pow_pos_nonneg. Qed.

Lemma pow2_pos k : 0 <= k → 0 < 2 ^ k.
Proof. intros. by apply Z.pow_pos_nonneg. Qed.

Lemma pow2_succ k : 0 <= k → 2 ^ (k + 1) = 2 * 2 ^ k.
Proof. intros. rewrite Z.pow_add_r by lia. change (2 ^ 1) with 2. lia. Qed.

Lemma pow2_pred k : 0 < k → 2 ^ k = 2 * 2 ^ (k - 1).
Proof. intros. rewrite <- pow2_succ by lia. f_equal. lia. Qed.

Lemma pow2_le k k' : 0 <= k <= k' → 2 ^ k <= 2 ^ k'.
Proof. intros. apply Z.pow_le_mono_r; lia. Qed.

Lemma pow2_lt k k' : 0 <= k < k' → 2 ^ k < 2 ^ k'.
Proof. intros. apply Z.pow_lt_mono_r; lia. Qed.

Lemma pow2_lt_inv k k' : 0 <= k → 0 <= k' → 2 ^ k < 2 ^ k' → k < k'.
Proof. intros ?? Hlt. apply Z.pow_lt_mono_r_iff in Hlt; lia. Qed.

Lemma pow2_le_inv k k' : 0 <= k → 0 <= k' → 2 ^ k <= 2 ^ k' → k <= k'.
Proof. intros ?? Hle. apply Z.pow_le_mono_r_iff in Hle; lia. Qed.

Lemma shl64_one k : 0 <= k < 64 → shl64 1 k = 2 ^ k.
Proof.
  intros. unfold shl64. rewrite Z.shiftl_1_l. apply wrap_small.
  split; [pose proof (pow2_pos k); lia | apply pow2_lt; lia].
Qed.

Lemma shl64_pow2 a k : 0 <= a → 0 <= k → a + k < 64 → shl64 (2 ^ a) k = 2 ^ (a + k).
Proof.
  intros. unfold shl64. rewrite Z.shiftl_mul_pow2 by lia.
  rewrite <- Z.pow_add_r by lia. apply wrap_small.
  split; [pose proof (pow2_pos (a + k)); lia | apply pow2_lt; lia].
Qed.

Lemma add64_small a b : 0 <= a + b < 2 ^ 64 → add64 a b = a + b.
Proof. apply wrap_small. Qed.

Lemma sub64_small a b : 0 <= a - b < 2 ^ 64 → sub64 a b = a - b.
Proof. apply wrap_small. Qed.

Lemma at_rank_Some {A} (v : list A) i x : v !!r i = Some x → Z.max 0 i < vsize v.
Proof. unfold at_rank, vsize. intros Hx%lookup_lt_Some. lia. Qed.

Lemma at_rank_lt {A} (v : list A) i : 0 <= i < vsize v → is_Some (v !!r i).
Proof. unfold at_rank, vsize. intros. apply lookup_lt_is_Some. lia. Qed.

Lemma at_rank_ge {A} (v : list A) i : vsize v <= i → v !!r i = None.
Proof. unfold at_rank, vsize. intros. apply lookup_ge_None. lia. Qed.

Lemma at_rank_None {A} (v : list A) i : 0 <= i → v !!r i = None → vsize v <= i.
Proof. unfold at_rank, vsize. intros ? Hn%lookup_ge_None. lia. Qed.

(** ** The loop rule *)

(** An invariant that the body keeps while a measure decreases holds when the
    loop exits, and the loop does exit within the measure. *)
Lemma while_rule {S : Type} (Inv : S → Prop) (measure : S → nat)
    (cond : S → option bool) (body : S → option S) fuel s :
  Inv s →
  (measure s <= fuel)%nat →
  (∀ s, Inv s → ∃ c, cond s = Some c ∧
     (c = true → ∃ s', body s = Some s' ∧ Inv s' ∧ (measure s' < measure s)%nat)) →
  ∃ s', while fuel cond body s = Some s' ∧ Inv s' ∧ cond s' = Some false.
Proof.
  intros Hinv Hm Hstep. revert s Hinv Hm.
  induction fuel as [|fuel IH]; intros s Hinv Hm.
  - destruct (Hstep s Hinv) as ([] & Hc & Hb); simpl; rewrite Hc; simpl.
    + destruct Hb as (s' & _ & _ & ?); [done | lia].
    + eauto.
  - destruct (Hstep s Hinv) as ([] & Hc & Hb); simpl; rewrite Hc; simpl.
    + destruct Hb as (s' & -> & ? & ?); [done |]. simpl. apply IH; [done | lia].
    + eauto.
Qed.

(** ** Levels *)

Lemma trailing_ones_spec bits x :
  0 <= x → x + 1 < 2 ^ Z.of_nat bits → lvl x (trailing_ones bits x).
Proof.
  revert x. induction bits as [|bits IH]; intros x Hx Hlt.
  - simpl in Hlt. lia.
  - simpl. destruct (Z.odd x) eqn:Hodd.
    + rewrite Z.shiftr_div_pow2 by lia. change (2 ^ 1) with 2.
      pose proof (Z.div_mod x 2 ltac:(lia)) as Hdm.
      rewrite Zmod_odd, Hodd in Hdm.
      rewrite Nat2Z.inj_succ, <- Z.add_1_r, pow2_succ in Hlt by lia.
      destruct (IH (x / 2)) as (Hk & j & Hj & Heq); [lia | lia |].
      split; [lia |]. exists j. split; [done |].
      rewrite (Z.add_comm 1), pow2_succ by lia. lia.
    + pose proof (Z.div_mod x 2 ltac:(lia)) as Hdm.
      rewrite Zmod_odd, Hodd in Hdm.
      split; [lia |]. exists (x / 2). split; [apply Z.div_pos; lia | lia].
Qed.

Lemma lvl_unique n k k' : lvl n k → lvl n k' → k = k'.
Proof.
  assert (∀ k k', k < k' → lvl n k → lvl n k' → False) as Hlt.
  { clear. intros k k' Hlt (Hk & j & Hj & Heq) (Hk' & j' & Hj' & Heq').
    replace k' with (k + 1 + (k' - k - 1)) in Heq' by lia.
    rewrite Z.pow_add_r, pow2_succ in Heq' by lia.
    pose proof (pow2_pos k Hk). pose proof (pow2_pos (k' - k - 1) ltac:(lia)).
    assert (2 * j + 1 = 2 * (2 ^ (k' - k - 1) * (2 * j' + 1))) by nia. lia. }
  intros H1 H2. destruct (Z.lt_trichotomy k k') as [?|[?|?]]; [|done|]; exfalso; eauto.
Qed.

Lemma level_lvl n : 0 <= n < 2 ^ 64 - 1 → lvl n (level n).
Proof. intros. apply trailing_ones_spec; [lia|]. change (Z.of_nat 64) with 64. lia. Qed.

Lemma lvl_level n k : 0 <= n < 2 ^ 64 - 1 → lvl n k → level n = k.
Proof. intros ? Hk. eapply lvl_unique; [by apply level_lvl | done]. Qed.

Lemma lvl_bound n k : lvl n k → 2 ^ k - 1 <= n.
Proof. intros (Hk & j & Hj & Heq). pose proof (pow2_pos k Hk). nia. Qed.

(** A rank below [2^63 - 1] has a level below 63. *)
Lemma lvl_small n k : n < 2 ^ 63 - 1 → lvl n k → 0 <= k < 63.
Proof.
  intros Hn Hk. pose proof (lvl_bound _ _ Hk). destruct Hk as [Hk _].
  split; [done|]. apply pow2_lt_inv; lia.
Qed.

(** ** Children and parents in closed form *)

Section Geometry.
Implicit Types n k : Z.

Lemma lvl_nonneg n k : lvl n k → 0 <= n.
Proof. intros Hk. pose proof (lvl_bound _ _ Hk). destruct Hk as [Hk _]. pose proof (pow2_pos k Hk). lia. Qed.

Lemma lvl_range n k : n < 2 ^ 63 - 1 → lvl n k → 0 <= n < 2 ^ 64 - 1.
Proof. intros ? Hk. pose proof (lvl_nonneg _ _ Hk). lia. Qed.

Lemma lvl_pow_small n k : n < 2 ^ 63 - 1 → lvl n k → 0 < 2 ^ k < 2 ^ 63.
Proof.
  intros Hn Hk. pose proof (lvl_bound _ _ Hk). destruct Hk as [Hk _].
  pose proof (pow2_pos k Hk). lia.
Qed.

Lemma left_lvl n k :
  n < 2 ^ 63 - 1 → lvl n k → 0 < k →
  left n = n - 2 ^ (k - 1) ∧ lvl (left n) (k - 1).
Proof.
  intros Hn Hk Hpos. pose proof (lvl_range _ _ Hn Hk) as Hr.
  pose proof (lvl_small _ _ Hn Hk) as Hks.
  pose proof (lvl_pow_small _ _ Hn Hk) as Hp.
  unfold left. rewrite (lvl_level n k) by done.
  destruct (Z.ltb_spec 0 k); [|lia].
  rewrite shl64_one by lia. rewrite (pow2_pred k) in Hp by lia.
  destruct Hk as (_ & j & Hj & Heq). rewrite (pow2_pred k) in Heq by lia.
  pose proof (pow2_pos (k - 1) ltac:(lia)).
  rewrite sub64_small by nia. split; [done|].
  split; [lia|]. exists (2 * j). split; [lia|]. nia.
Qed.

Lemma right_lvl n k :
  n < 2 ^ 63 - 1 → lvl n k → 0 < k →
  right n = n + 2 ^ (k - 1) ∧ lvl (right n) (k - 1).
Proof.
  intros Hn Hk Hpos. pose proof (lvl_range _ _ Hn Hk) as Hr.
  pose proof (lvl_small _ _ Hn Hk) as Hks.
  pose proof (lvl_pow_small _ _ Hn Hk) as Hp.
  unfold right. rewrite (lvl_level n k) by done.
  destruct (Z.ltb_spec 0 k); [|lia].
  rewrite shl64_one by lia. rewrite (pow2_pred k) in Hp by lia.
  destruct Hk as (_ & j & Hj & Heq). rewrite (pow2_pred k) in Heq by lia.
  pose proof (pow2_pos (k - 1) ltac:(lia)).
  rewrite add64_small by nia. split; [done|].
  split; [lia|]. exists (2 * j + 1). split; [lia|]. nia.
Qed.

Lemma left_leaf n : n < 2 ^ 63 - 1 → lvl n 0 → left n = nrank.
Proof.
  intros Hn Hk. unfold left. by rewrite (lvl_level n 0) by eauto using lvl_range.
Qed.

Lemma right_leaf n : n < 2 ^ 63 - 1 → lvl n 0 → right n = nrank.
Proof.
  intros Hn Hk. unfold right. by rewrite (lvl_level n 0) by eauto using lvl_range.
Qed.

Lemma leftmost_child_lvl n k :
  n < 2 ^ 63 - 1 → lvl n k → leftmost_child n = n - (2 ^ k - 1).
Proof.
  intros Hn Hk. pose proof (lvl_range _ _ Hn Hk) as Hr.
  pose proof (lvl_small _ _ Hn Hk) as Hks.
  pose proof (lvl_pow_small _ _ Hn Hk) as Hp.
  pose proof (lvl_bound _ _ Hk).
  unfold leftmost_child. rewrite (lvl_level n k) by done.
  rewrite shl64_one by lia. rewrite (sub64_small _ 1) by lia.
  rewrite sub64_small by lia. done.
Qed.

Lemma rightmost_child_lvl n k :
  n < 2 ^ 63 - 1 → lvl n k → rightmost_child n = n + (2 ^ k - 1).
Proof.
  intros Hn Hk. pose proof (lvl_range _ _ Hn Hk) as Hr.
  pose proof (lvl_small _ _ Hn Hk) as Hks.
  pose proof (lvl_pow_small _ _ Hn Hk) as Hp.
  unfold rightmost_child. rewrite (lvl_level n k) by done.
  rewrite shl64_one by lia. rewrite (sub64_small _ 1) by lia.
  rewrite add64_small by lia. done.
Qed.

Lemma parent_lvl rt n k :
  n < 2 ^ 63 - 1 → lvl n k → n ≠ rt →
  lvl (parent rt n) (k + 1) ∧
  (n = parent rt n - 2 ^ k ∨ n = parent rt n + 2 ^ k).
Proof.
  intros Hn Hk Hne. pose proof (lvl_range _ _ Hn Hk) as Hr.
  pose proof (lvl_small _ _ Hn Hk) as Hks.
  pose proof (lvl_pow_small _ _ Hn Hk) as Hp.
  unfold parent. destruct (Z.eqb_spec n rt); [done|].
  rewrite (lvl_level n k) by done. rewrite shl64_one by lia.
  destruct Hk as (_ & j & Hj & Heq).
  assert (n ≫ (k + 1) = j) as ->.
  { rewrite Z.shiftr_div_pow2 by lia. symmetry.
    apply (Z.div_unique n (2 ^ (k + 1)) j (2 ^ k - 1)); rewrite pow2_succ by lia; lia. }
  pose proof (Z.div_mod j 2 ltac:(lia)) as Hdm. rewrite Zmod_odd in Hdm.
  pose proof (Z.div_pos j 2 Hj ltac:(lia)).
  destruct (Z.odd j).
  - rewrite sub64_small by nia. split; [|lia].
    split; [lia|]. exists (j / 2). split; [done|]. rewrite pow2_succ by lia. nia.
  - rewrite add64_small by nia. split; [|lia].
    split; [lia|]. exists (j / 2). split; [done|]. rewrite pow2_succ by lia. nia.
Qed.

(** Two ranks of one level whose subtrees share a rank are equal. *)
Lemma lvl_subtree_unique n n' k m :
  lvl n k → lvl n' k →
  n - (2 ^ k - 1) <= m <= n + (2 ^ k - 1) →
  n' - (2 ^ k - 1) <= m <= n' + (2 ^ k - 1) →
  n = n'.
Proof.
  intros (Hk & j & Hj & Heq) (_ & j' & Hj' & Heq') Hm Hm'.
  pose proof (pow2_pos k Hk). assert (j = j') by nia. subst. lia.
Qed.

End Geometry.

(** ** Ranges of a vector *)

Section Sub.
Context {A : Type}.
Implicit Types (v : list A) (lo hi : Z).

Lemma sub_nil lo hi v : hi < lo → sub lo hi v = [].
Proof. intros. unfold sub. by replace (Z.to_nat (hi + 1 - lo)) with 0%nat by lia. Qed.

Lemma sub_ge lo hi v : vsize v <= lo → sub lo hi v = [].
Proof. unfold vsize, sub. intros. rewrite drop_ge by lia. by rewrite take_nil. Qed.

Lemma sub_split lo mid hi v :
  0 <= lo <= mid → mid <= hi + 1 →
  sub lo hi v = sub lo (mid - 1) v ++ sub mid hi v.
Proof.
  intros. unfold sub.
  replace (Z.to_nat (hi + 1 - lo))
    with (Z.to_nat (mid - 1 + 1 - lo) + Z.to_nat (hi + 1 - mid))%nat by lia.
  rewrite <- take_take_drop, drop_drop. do 3 f_equal. lia.
Qed.

Lemma sub_single n v :
  sub n n v = match v !!r n with Some x => [x] | None => [] end.
Proof.
  unfold sub, at_rank. replace (Z.to_nat (n + 1 - n)) with 1%nat by lia.
  pose proof (lookup_drop v (Z.to_nat n) 0) as Hl. rewrite Nat.add_0_r in Hl.
  rewrite <- Hl. by destruct (drop (Z.to_nat n) v).
Qed.

Lemma sub_clip lo hi v : vsize v - 1 <= hi → sub lo hi v = drop (Z.to_nat lo) v.
Proof.
  unfold vsize, sub. intros. apply take_ge. rewrite length_drop. lia.
Qed.

Lemma sub_all hi v : vsize v - 1 <= hi → sub 0 hi v = v.
Proof. intros. by rewrite sub_clip. Qed.

Lemma elem_of_sub lo hi v x :
  0 <= lo → x ∈ sub lo hi v ↔ ∃ i, lo <= i <= hi ∧ v !!r i = Some x.
Proof.
  intros. unfold sub, at_rank. rewrite elem_of_take. split.
  - intros (i & Hi & Hlt). rewrite lookup_drop in Hi.
    exists (lo + Z.of_nat i). split; [lia|]. rewrite <- Hi. f_equal. lia.
  - intros (i & Hi & Hx). exists (Z.to_nat (i - lo)). split; [|lia].
    rewrite lookup_drop, <- Hx. f_equal. lia.
Qed.

Lemma sub_split3 lo n hi v :
  0 <= lo <= n → n <= hi →
  sub lo hi v = sub lo (n - 1) v ++ sub n n v ++ sub (n + 1) hi v.
Proof.
  intros. rewrite (sub_split lo n hi) by lia. f_equal.
  rewrite (sub_split n (n + 1) hi) by lia. do 2 f_equal. lia.
Qed.

Lemma length_sub lo hi v :
  0 <= lo → lo <= hi + 1 → hi < vsize v → vsize (sub lo hi v) = hi + 1 - lo.
Proof.
  unfold vsize, sub. intros. rewrite length_take, length_drop. lia.
Qed.

End Sub.

(** ** The sort *)

Section Sort.
Context {Item : Type} `{NodeType Item Node}.
Implicit Types (a b x y : Node) (v : list Node).

Lemma node_le_spec a b :
  node_le a b ↔
  node_beg a < node_beg b ∨ (node_beg a = node_beg b ∧ node_end a <= node_end b).
Proof.
  unfold node_le, node_lt.
  destruct (Z.eqb_spec (node_beg b) (node_beg a)); [rewrite Z.ltb_ge | rewrite Z.ltb_ge]; lia.
Qed.

Lemma node_le_lt a b : node_lt a b = true → node_le a b.
Proof.
  intros Hlt. apply node_le_spec. unfold node_lt in Hlt.
  destruct (Z.eqb_spec (node_beg a) (node_beg b)); [apply Z.ltb_lt in Hlt | apply Z.ltb_lt in Hlt]; lia.
Qed.

Lemma node_le_trans a b c : node_le a b → node_le b c → node_le a c.
Proof. rewrite !node_le_spec. lia. Qed.

Lemma sort_insert_perm x v : sort_insert x v ≡ₚ x :: v.
Proof.
  induction v as [|y v IH]; simpl; [done|].
  destruct (node_lt x y); [done|]. rewrite IH. apply Permutation_swap.
Qed.

Lemma sort_insert_sorted x v :
  StronglySorted node_le v → StronglySorted node_le (sort_insert x v).
Proof.
  induction 1 as [|y v Hv IH Hy]; simpl; [repeat constructor|].
  destruct (node_lt x y) eqn:Hlt.
  - constructor; [by constructor|]. apply node_le_lt in Hlt.
    constructor; [done|]. eapply Forall_impl; [done|].
    intros z Hz. by eapply node_le_trans.
  - constructor; [done|]. rewrite sort_insert_perm. by constructor.
Qed.

Lemma std_sort_perm v : std_sort v ≡ₚ v.
Proof.
  unfold std_sort. assert (∀ acc, fold_left (λ acc x, sort_insert x acc) v acc ≡ₚ acc ++ v) as Hgen.
  { induction v as [|x v IH]; intros acc; simpl; [by rewrite app_nil_r|].
    rewrite IH, sort_insert_perm. simpl. apply Permutation_middle. }
  apply Hgen.
Qed.

Lemma std_sort_sorted v : StronglySorted node_le (std_sort v).
Proof.
  unfold std_sort.
  assert (∀ acc, StronglySorted node_le acc →
            StronglySorted node_le (fold_left (λ acc x, sort_insert x acc) v acc)) as Hgen.
  { induction v as [|x v IH]; intros acc Hacc; simpl; [done|].
    by apply IH, sort_insert_sorted. }
  apply Hgen. constructor.
Qed.

Lemma std_sort_length v : vsize (std_sort v) = vsize v.
Proof. unfold vsize. by rewrite std_sort_perm. Qed.

Lemma StronglySorted_lookup (R : relation Node) v (i j : nat) a b :
  StronglySorted R v → (i < j)%nat → v !! i = Some a → v !! j = Some b → R a b.
Proof.
  intros Hs. revert i j. induction Hs as [|x v Hv IH Hx]; intros i j Hlt Ha Hb; [done|].
  destruct j as [|j]; [lia|]. simpl in Hb. destruct i as [|i]; simpl in Ha.
  - simplify_eq. rewrite Forall_forall in Hx. apply Hx. by eapply list_elem_of_lookup_2.
  - eapply IH; [|done..]. lia.
Qed.

Lemma sorted_nodes_of_sorted v : StronglySorted node_le v → sorted_nodes v.
Proof.
  intros Hs i j a b Hij Ha Hb. apply node_le_spec.
  eapply (StronglySorted_lookup node_le v (Z.to_nat i) (Z.to_nat j)); [done| lia |done..].
Qed.

Lemma std_sort_sorted_nodes v : sorted_nodes (std_sort v).
Proof. apply sorted_nodes_of_sorted, std_sort_sorted. Qed.

End Sort.

(** ** The scan of a subtree *)

Lemma subtree_hi_lt n k h :
  lvl n k → 0 <= h → n < 2 ^ (h + 1) - 1 → n + (2 ^ k - 1) < 2 ^ (h + 1) - 1.
Proof.
  intros Hk Hh Hn. pose proof (lvl_bound _ _ Hk) as Hb.
  destruct Hk as (Hk & j & Hj & Heq).
  assert (k < h + 1) as Hkh by (apply pow2_lt_inv; lia).
  replace (h + 1) with (k + 1 + (h - k)) in * by lia.
  rewrite Z.pow_add_r, pow2_succ in * by lia.
  pose proof (pow2_pos k Hk). pose proof (pow2_pos (h - k) ltac:(lia)).
  assert (j < 2 ^ (h - k)) by nia. nia.
Qed.

Lemma subtree_hi_small n k : n < 2 ^ 63 - 1 → lvl n k → n + (2 ^ k - 1) < 2 ^ 63 - 1.
Proof. intros. by apply (subtree_hi_lt n k 62). Qed.

Section Scan.
Context {Item : Type} `{NodeType Item Node}.
Implicit Types (v : list Node) (ans : list Item).

Lemma overlapping_app qbeg qend v1 v2 :
  overlapping qbeg qend (v1 ++ v2) = overlapping qbeg qend v1 ++ overlapping qbeg qend v2.
Proof. unfold overlapping. by rewrite fmap_app, filter_app. Qed.

Lemma overlapping_none qbeg qend v :
  (∀ m, m ∈ v → ¬ overlaps qbeg qend (node_item m)) → overlapping qbeg qend v = [].
Proof.
  unfold overlapping. induction v as [|x v IH]; intros Hv; [done|].
  rewrite fmap_cons, filter_cons_False by (apply Hv; left).
  apply IH. intros m Hm. apply Hv. by right.
Qed.

Lemma overlapping_single qbeg qend (nd : Node) :
  overlapping qbeg qend [nd] =
    if decide (overlaps qbeg qend (node_item nd)) then [node_item nd] else [].
Proof. unfold overlapping. simpl. rewrite filter_cons, filter_nil. done. Qed.

Lemma overlapping_cons qbeg qend (nd : Node) v :
  overlapping qbeg qend (nd :: v) =
    (if decide (overlaps qbeg qend (node_item nd)) then [node_item nd] else [])
      ++ overlapping qbeg qend v.
Proof. unfold overlapping. rewrite fmap_cons, filter_cons. by case_decide. Qed.

Lemma scan_nrank fuel v qbeg qend ans : scan fuel v nrank qbeg qend ans = Some (0, ans).
Proof. by destruct fuel. Qed.

(** [scan] of a subtree appends the overlapping items of the real nodes of
    the subtree, in rank order, when the vector is sorted and the stored
    [inside_max_end] bound their subtrees. *)
Lemma scan_spec v qbeg qend :
  sorted_nodes v → ime_bound v →
  ∀ fuel k n ans, lvl n k → n < 2 ^ 63 - 1 → (Z.to_nat k < fuel)%nat →
  ∃ c, scan fuel v n qbeg qend ans =
    Some (c, ans ++ overlapping qbeg qend (sub (n - (2 ^ k - 1)) (n + (2 ^ k - 1)) v)).
Proof.
  intros Hsorted Hime. induction fuel as [|fuel IH]; intros k n ans Hk Hn Hfuel; [lia|].
  pose proof (lvl_range _ _ Hn Hk) as Hr.
  pose proof (lvl_bound _ _ Hk) as Hb.
  pose proof (subtree_hi_small _ _ Hn Hk) as Hhi.
  assert (0 <= k) as Hk0 by apply Hk. pose proof (pow2_pos k Hk0) as Hp.
  simpl. destruct (Z.eqb_spec n nrank) as [->|_]; [unfold nrank in *; lia|].
  rewrite (sub_split3 (n - (2 ^ k - 1)) n), sub_single by lia.
  (* the two recursive calls *)
  assert (∀ ans, ∃ c, scan fuel v (left n) qbeg qend ans =
            Some (c, ans ++ overlapping qbeg qend (sub (n - (2 ^ k - 1)) (n - 1) v))) as Hleft.
  { intros ans'. destruct (decide (k = 0)) as [->|].
    - rewrite left_leaf, scan_nrank by done. exists 0.
      rewrite sub_nil by (simpl; lia). by rewrite app_nil_r.
    - destruct (left_lvl n k) as [Hl Hlk]; [done|done|lia|].
      destruct (IH (k - 1) (left n) ans') as [c Hc]; [done|lia|lia|].
      exists c. rewrite Hc, Hl. rewrite (pow2_pred k) by lia. do 5 f_equal; lia. }
  assert (∀ ans, ∃ c, scan fuel v (right n) qbeg qend ans =
            Some (c, ans ++ overlapping qbeg qend (sub (n + 1) (n + (2 ^ k - 1)) v))) as Hright.
  { intros ans'. destruct (decide (k = 0)) as [->|].
    - rewrite right_leaf, scan_nrank by done. exists 0.
      rewrite sub_nil by (simpl; lia). by rewrite app_nil_r.
    - destruct (right_lvl n k) as [Hl Hlk]; [done|done|lia|].
      pose proof (pow2_pos (k - 1) ltac:(lia)).
      destruct (IH (k - 1) (right n) ans') as [c Hc]; [done| |lia|].
      { rewrite Hl. rewrite (pow2_pred k) in Hhi by lia. lia. }
      exists c. rewrite Hc, Hl. rewrite (pow2_pred k) by lia. do 5 f_equal; lia. }
  destruct (v !!r n) as [nd|] eqn:Hnd.
  - (* a real node *)
    destruct (Z.ltb_spec qbeg (node_ime nd)) as [Hin|Hout].
    + destruct (Hleft ans) as [c1 ->]. simpl.
      destruct (Z.ltb_spec (node_beg nd) qend) as [Hbeg|Hbeg].
      * rewrite !overlapping_app, overlapping_cons.
        destruct (Hright (if qbeg <? node_end nd
                          then (ans ++ overlapping qbeg qend (sub (n - (2 ^ k - 1)) (n - 1) v))
                                 ++ [node_item nd]
                          else ans ++ overlapping qbeg qend (sub (n - (2 ^ k - 1)) (n - 1) v)))
          as [c2 ->]. simpl. eexists. do 2 f_equal.
        destruct (Z.ltb_spec qbeg (node_end nd)).
        -- rewrite decide_True by (unfold overlaps, node_end, node_beg in *; lia).
           by rewrite <- !app_assoc.
        -- rewrite decide_False by (unfold overlaps, node_end, node_beg in *; lia).
           by rewrite <- !app_assoc.
      * eexists. do 2 f_equal.
        rewrite overlapping_app, (overlapping_none _ _ (_ :: _)); [by rewrite app_nil_r|].
        intros m Hm. assert (m ∈ sub n (n + (2 ^ k - 1)) v) as Hm'.
        { rewrite (sub_split n (n + 1)) by lia. replace (n + 1 - 1) with n by lia.
          rewrite sub_single, Hnd. exact Hm. }
        apply elem_of_sub in Hm' as (i & Hi & Hm'); [|lia].
        assert (node_beg nd <= node_beg m).
        { destruct (decide (i = n)) as [->|]; [by simplify_eq|].
          destruct (Hsorted n i nd m); [lia|done..|lia|lia]. }
        unfold overlaps, node_beg in *. lia.
    + eexists. do 2 f_equal.
      rewrite overlapping_none; [by rewrite app_nil_r|].
      intros m Hm. assert (node_end m <= node_ime nd).
      { apply (Hime n k nd m Hk Hnd). rewrite (sub_split3 _ n), sub_single, Hnd; [done|lia..]. }
      unfold overlaps, node_end in *. lia.
  - (* an imaginary node *)
    apply at_rank_None in Hnd; [|lia].
    destruct (Hleft ans) as [c1 ->]. simpl. eexists. do 2 f_equal.
    rewrite (sub_ge (n + 1)) by lia. by rewrite !app_nil_r.
Qed.

End Scan.

(** ** The geometry of the constructor *)

(** Replace the loop of the goal by its final state, given an invariant and
    a measure: the goals are the invariant at entry, the fuel, the step, and
    the rest of the goal for every final state. *)
Ltac while_inv Inv m :=
  match goal with
  | |- context [while ?f ?c ?b ?s] =>
      let s' := fresh "s" in
      let Hw := fresh "Hw" in
      let Hi := fresh "Hi" in
      let He := fresh "He" in
      destruct (while_rule Inv m c b f s) as (s' & Hw & Hi & He);
        [ | | | rewrite Hw; clear Hw; revert s' Hi He]
  end.

Lemma lvl_root h : 0 <= h → lvl (2 ^ h - 1) h.
Proof. intros. split; [done|]. exists 0. lia. Qed.

(** Within a tree of root level [h], the only rank of level [h] is the root. *)
Lemma lvl_root_unique n h : lvl n h → n < 2 ^ (h + 1) - 1 → n = 2 ^ h - 1.
Proof.
  intros (Hh & j & Hj & Heq) Hn. rewrite pow2_succ in Hn by done.
  pose proof (pow2_pos h Hh). assert (j = 0) by nia. subst. lia.
Qed.

Lemma lvl_le_root n k h : lvl n k → 0 <= h → n < 2 ^ (h + 1) - 1 → k <= h.
Proof.
  intros Hk Hh Hn. pose proof (lvl_bound _ _ Hk). destruct Hk as [Hk _].
  assert (k < h + 1); [|lia]. apply pow2_lt_inv; lia.
Qed.

(** A rank of level at most [h] whose subtree starts inside the tree of root
    level [h] is inside that tree. *)
Lemma lvl_in_tree n k h :
  lvl n k → k <= h → n - (2 ^ k - 1) < 2 ^ (h + 1) - 1 → n < 2 ^ (h + 1) - 1.
Proof.
  intros (Hk & j & Hj & Heq) Hkh Hlo.
  replace (h + 1) with (k + 1 + (h - k)) in * by lia.
  rewrite Z.pow_add_r, pow2_succ in * by lia.
  pose proof (pow2_pos k Hk). pose proof (pow2_pos (h - k) ltac:(lia)).
  assert (j < 2 ^ (h - k)) by nia. nia.
Qed.

Lemma tree_geometry_spec nsz :
  0 <= nsz < 2 ^ 63 →
  ∃ h fs, tree_geometry nsz = Some (h, fs) ∧ 0 <= h <= 62 ∧ nsz <= fs ∧
    (nsz = 0 → h = 0 ∧ fs = 0) ∧ (0 < nsz → 1 <= h ∧ fs = 2 ^ (h + 1) - 1).
Proof.
  intros Hn. unfold tree_geometry.
  while_inv
    (λ '((rl, fs) : Z * Z), 0 <= rl <= 62 ∧ (rl = 0 → fs = 0) ∧
                  (0 < rl → fs = 2 ^ (rl + 1) - 1 ∧ 0 < nsz))
    (λ '((rl, fs) : Z * Z), Z.to_nat (63 - rl)).
  - lia.
  - simpl. lia.
  - intros [rl fs] (Hrl & H0 & Hpos). eexists. split; [done|].
    intros Hlt%Z.ltb_lt. eexists. split; [done|].
    assert (rl <= 61) as Hrl'.
    { destruct (decide (rl = 0)); [lia|]. destruct Hpos as [-> _]; [lia|].
      assert (rl + 1 < 63); [|lia]. apply pow2_lt_inv; lia. }
    rewrite (add64_small rl) by lia. rewrite add64_small by lia.
    rewrite shl64_one by lia. pose proof (pow2_pos (rl + 1 + 1) ltac:(lia)).
    pose proof (pow2_lt (rl + 1 + 1) 64 ltac:(lia)).
    rewrite sub64_small by lia. repeat split; try lia.
  - intros [h fs] (Hh & H0 & Hpos) Hc. exists h, fs. simplify_eq.
    rename select (_ = false) into Hge. apply Z.ltb_ge in Hge.
    split; [done|]. split; [done|]. split; [lia|].
    split.
    + intros ->. destruct (decide (h = 0)); [split; [done|by apply H0]|]. destruct Hpos; lia.
    + intros ?. destruct (decide (h = 0)) as [->|]; [|split; [lia|apply Hpos; lia]].
      specialize (H0 eq_refl). lia.
Qed.

(** ** The right border *)

Lemma at_rank_snoc_inv {A} (v : list A) x i y :
  0 <= i → (v ++ [x]) !!r i = Some y →
  (i < vsize v ∧ v !!r i = Some y) ∨ (i = vsize v ∧ y = x).
Proof.
  unfold at_rank, vsize. intros Hi Hl.
  apply lookup_app_Some in Hl as [Hl|[Hge Hl]].
  - left. split; [|done]. apply lookup_lt_Some in Hl. lia.
  - right. apply list_lookup_singleton_Some in Hl as [Hz ->]. split; [lia|done].
Qed.

Lemma at_rank_snoc_lt {A} (v : list A) x i :
  0 <= i < vsize v → (v ++ [x]) !!r i = v !!r i.
Proof. unfold at_rank, vsize. intros. apply lookup_app_l. lia. Qed.

Lemma last_at_rank {A} (v : list A) : 0 < vsize v → last v = v !!r (vsize v - 1).
Proof.
  unfold at_rank, vsize. intros. rewrite last_lookup. f_equal. lia.
Qed.

Lemma vsize_snoc {A} (v : list A) x : vsize (v ++ [x]) = vsize v + 1.
Proof. unfold vsize. rewrite length_app. simpl. lia. Qed.

Lemma rightmost_leaf_spec nsz :
  0 < nsz < 2 ^ 63 →
  lvl (rightmost_leaf nsz) 0 ∧ nsz - 2 <= rightmost_leaf nsz < nsz.
Proof.
  intros Hn. unfold rightmost_leaf.
  pose proof (Z.div_mod nsz 2 ltac:(lia)) as Hdm.
  pose proof (Z.mod_pos_bound nsz 2 ltac:(lia)) as Hm.
  rewrite (sub64_small 2) by lia. rewrite sub64_small by lia.
  split; [|lia]. split; [done|].
  exists ((nsz - (2 - nsz `mod` 2)) / 2). split; [apply Z.div_pos; lia|].
  change (2 ^ 0) with 1.
  assert (nsz `mod` 2 = 0 ∨ nsz `mod` 2 = 1) as [Hz|Hz] by lia; rewrite Hz in *.
  - replace (nsz - (2 - 0)) with ((nsz / 2 - 1) * 2) by lia.
    rewrite Z.div_mul by lia. lia.
  - replace (nsz - (2 - 1)) with ((nsz / 2) * 2) by lia.
    rewrite Z.div_mul by lia. lia.
Qed.

Lemma right_border_spec nsz h :
  0 < nsz < 2 ^ 63 → 1 <= h <= 62 → nsz <= 2 ^ (h + 1) - 1 →
  ∃ border, right_border (2 ^ h - 1) nsz = Some border ∧
            border_path (rightmost_leaf nsz) h border.
Proof.
  intros Hn Hh Hfs. destruct (rightmost_leaf_spec nsz Hn) as [Hl0 Hl0n].
  set (l0 := rightmost_leaf nsz) in *.
  pose proof (pow2_le (h + 1) 63 ltac:(lia)) as Hfs63.
  unfold right_border. fold l0.
  while_inv
    (λ border : list Z, 1 <= vsize border <= h + 1 ∧
       ∀ i b, 0 <= i → border !!r i = Some b →
         lvl b i ∧ b - (2 ^ i - 1) <= l0 <= b + (2 ^ i - 1))
    (λ border : list Z, Z.to_nat (h + 1 - vsize border)).
  - split; [unfold vsize; simpl; lia|]. intros i b Hi Hb.
    assert (i = 0) as -> by (apply at_rank_Some in Hb; unfold vsize in Hb; simpl in Hb; lia).
    unfold at_rank in Hb. simpl in Hb. simplify_eq. split; [done|]. simpl. lia.
  - unfold vsize. simpl. lia.
  - intros border [Hlen Hb].
    destruct (at_rank_lt border (vsize border - 1)) as [b Hlast]; [lia|].
    rewrite last_at_rank, Hlast by lia. simpl. eexists. split; [done|].
    intros Hne%negb_true_iff%Z.eqb_neq.
    destruct (Hb (vsize border - 1) b ltac:(lia) Hlast) as [Hlvl Hrange].
    assert (b < 2 ^ (h + 1) - 1) as Hbfs by (apply (lvl_in_tree b (vsize border - 1)); [done|lia|lia]).
    assert (vsize border - 1 < h) as Hlt.
    { destruct (decide (vsize border - 1 = h)) as [Heq|]; [|lia].
      rewrite Heq in Hlvl. by apply lvl_root_unique in Hlvl. }
    destruct (parent_lvl (2 ^ h - 1) b (vsize border - 1)) as [Hp Hchild]; [lia|done|done|].
    replace (vsize border - 1 + 1) with (vsize border) in Hp by lia.
    eexists. split; [done|]. rewrite vsize_snoc. split; [|lia]. split; [lia|].
    intros i b' Hi Hb'. apply at_rank_snoc_inv in Hb'; [|done].
    destruct Hb' as [[? Hb']|[-> ->]]; [by apply Hb|].
    split; [done|]. assert (0 <= vsize border - 1) as Hk by lia.
    pose proof (pow2_pos _ Hk). rewrite (pow2_pred (vsize border)) by lia. lia.
  - intros border [Hlen Hb] He. exists border. split; [done|].
    destruct (at_rank_lt border (vsize border - 1)) as [b Hlast]; [lia|].
    rewrite last_at_rank, Hlast in He by lia. simpl in He.
    injection He as Hroot. apply negb_false_iff, Z.eqb_eq in Hroot. subst b.
    destruct (Hb (vsize border - 1) (2 ^ h - 1) ltac:(lia) Hlast) as [Hlvl _].
    pose proof (lvl_unique _ _ _ Hlvl (lvl_root h ltac:(lia))). split; [lia|done].
Qed.

(** ** Maxima of ranges *)

Lemma omax_None_r a : omax a None = a.
Proof. by destruct a. Qed.

Lemma omax_assoc a b c : omax a (omax b c) = omax (omax a b) c.
Proof. destruct a, b, c; simpl; f_equal; lia. Qed.

Section MaxEnds.
Context {Item : Type} `{NodeType Item Node}.
Implicit Types (v : list Node) (nd : Node).

Lemma max_ends_app v1 v2 : max_ends (v1 ++ v2) = omax (max_ends v1) (max_ends v2).
Proof.
  induction v1 as [|x v1 IH]; [done|].
  change ((x :: v1) ++ v2) with (x :: (v1 ++ v2)).
  change (max_ends (x :: (v1 ++ v2))) with (omax (Some (node_end x)) (max_ends (v1 ++ v2))).
  change (max_ends (x :: v1)) with (omax (Some (node_end x)) (max_ends v1)).
  by rewrite IH, omax_assoc.
Qed.

Lemma max_ends_single nd : max_ends [nd] = Some (node_end nd).
Proof. done. Qed.

Lemma max_ends_cons nd v : max_ends (nd :: v) = omax (Some (node_end nd)) (max_ends v).
Proof. done. Qed.

Lemma max_ends_None v : max_ends v = None → v = [].
Proof.
  destruct v as [|y v]; [done|]. rewrite max_ends_cons. by destruct (max_ends v).
Qed.

Lemma max_ends_ge v x m : max_ends v = Some x → m ∈ v → node_end m <= x.
Proof.
  revert x. induction v as [|y v IH]; intros x Hx Hm; [by apply elem_of_nil in Hm|].
  rewrite max_ends_cons in Hx. apply elem_of_cons in Hm as [->|Hm].
  - destruct (max_ends v); simpl in Hx; simplify_eq; lia.
  - destruct (max_ends v) as [x'|] eqn:Hv.
    + simpl in Hx. simplify_eq. specialize (IH x' eq_refl Hm). lia.
    + apply max_ends_None in Hv as ->. by apply elem_of_nil in Hm.
Qed.

Lemma max_ends_in v x : max_ends v = Some x → ∃ m, m ∈ v ∧ node_end m = x.
Proof.
  revert x. induction v as [|y v IH]; intros x Hx; [done|].
  rewrite max_ends_cons in Hx. destruct (max_ends v) as [x'|]; simpl in Hx; simplify_eq.
  - destruct (Z.max_spec (node_end y) x') as [[_ ->]|[_ ->]].
    + destruct (IH x' eq_refl) as (m & ? & ?). exists m. split; [by right|done].
    + exists y. split; [by left|done].
  - exists y. split; [by left|done].
Qed.

Lemma max_ends_ext v1 v2 :
  node_item <$> v1 = node_item <$> v2 → max_ends v1 = max_ends v2.
Proof.
  revert v2. induction v1 as [|x v1 IH]; intros [|y v2] Heq; try done.
  rewrite !fmap_cons in Heq. injection Heq as Hxy Hrest.
  rewrite !max_ends_cons, (IH v2 Hrest). unfold node_end. by rewrite Hxy.
Qed.

Lemma fmap_sub {B} (f : Node → B) lo hi v : f <$> sub lo hi v = sub lo hi (f <$> v).
Proof. unfold sub. by rewrite fmap_take, fmap_drop. Qed.

Lemma ime_updated_item a b : ime_updated a b → node_item b = node_item a.
Proof.
  induction 1 as [|a b x _ IH]; [done|]. unfold node_item in *.
  by rewrite node_base_set.
Qed.

Lemma node_ime_set nd x : node_ime (node_set_ime nd x) = x.
Proof. unfold node_ime. by rewrite node_base_set. Qed.

Lemma ime_updated_items srt nds :
  Forall2 ime_updated srt nds → node_item <$> nds = node_item <$> srt.
Proof.
  induction 1 as [|a b srt nds Hab _ IH]; [done|].
  rewrite !fmap_cons, IH. f_equal. by apply ime_updated_item.
Qed.

Lemma ime_updated_vsize srt nds : Forall2 ime_updated srt nds → vsize nds = vsize srt.
Proof. intros Hf. unfold vsize. by rewrite (Forall2_length _ _ _ Hf). Qed.

Lemma ime_updated_lookup srt nds i nd :
  Forall2 ime_updated srt nds → nds !!r i = Some nd →
  ∃ nd0, srt !!r i = Some nd0 ∧ ime_updated nd0 nd.
Proof. unfold at_rank. intros Hf Hi. by eapply Forall2_lookup_r. Qed.

Lemma ime_updated_insert srt nds i nd x :
  Forall2 ime_updated srt nds → nds !! i = Some nd →
  Forall2 ime_updated srt (<[i := node_set_ime nd x]> nds).
Proof.
  intros Hf Hi. destruct (Forall2_lookup_r _ _ _ _ _ Hf Hi) as (nd0 & Hnd0 & Hu).
  rewrite <- (list_insert_id srt i nd0) by done.
  apply Forall2_insert; [done|]. by constructor.
Qed.

Lemma subtree_max_ext srt nds n k :
  Forall2 ime_updated srt nds → subtree_max nds n k = subtree_max srt n k.
Proof.
  intros Hf. unfold subtree_max. apply max_ends_ext.
  by rewrite !fmap_sub, (ime_updated_items srt nds).
Qed.

Lemma sorted_nodes_ext srt nds :
  Forall2 ime_updated srt nds → sorted_nodes srt → sorted_nodes nds.
Proof.
  intros Hf Hs i j a b Hij Ha Hb.
  destruct (ime_updated_lookup _ _ _ _ Hf Ha) as (a0 & Ha0 & Hua).
  destruct (ime_updated_lookup _ _ _ _ Hf Hb) as (b0 & Hb0 & Hub).
  apply ime_updated_item in Hua, Hub. unfold node_beg, node_end.
  rewrite Hua, Hub. by eapply Hs.
Qed.

End MaxEnds.

(** ** The bottom-up indexing *)

Lemma lvl_spacing n m k : lvl n k → lvl m k → n < m → n + 2 ^ (k + 1) <= m.
Proof.
  intros (Hk & a & Ha & Hn) (_ & b & Hb & Hm) Hlt.
  rewrite pow2_succ by done. pose proof (pow2_pos k Hk).
  assert (a < b) by nia. nia.
Qed.

Lemma lvl_step n k : lvl n k → lvl (n + 2 ^ (k + 1)) k.
Proof.
  intros (Hk & a & Ha & Hn). split; [done|]. exists (a + 1). split; [lia|].
  rewrite pow2_succ by done. lia.
Qed.

Section AugmentProof.
Context {Item : Type} `{NodeType Item Node}.
Variables (srt : list Node) (border : list Z) (h l0 : Z).
Hypothesis Hfresh : fresh srt.
Hypothesis Hnsz : 0 < vsize srt < 2 ^ 63.
Hypothesis Hh : 1 <= h <= 62.
Hypothesis Hfs : vsize srt <= 2 ^ (h + 1) - 1.
Hypothesis Hl0 : lvl l0 0.
Hypothesis Hl0n : vsize srt - 2 <= l0 < vsize srt.
Hypothesis Hborder : border_path l0 h border.

Local Lemma tree_small : 2 ^ (h + 1) <= 2 ^ 63.
Proof. apply pow2_le. lia. Qed.

Lemma border_at lv :
  0 <= lv <= h →
  ∃ b, border !!r lv = Some b ∧ lvl b lv ∧
       b - (2 ^ lv - 1) <= l0 <= b + (2 ^ lv - 1) ∧ b < 2 ^ 63 - 1.
Proof.
  intros Hlv. destruct Hborder as [Hlen Hb].
  destruct (at_rank_lt border lv) as [b Hblv]; [lia|].
  destruct (Hb lv b ltac:(lia) Hblv) as [Hlvl Hrange].
  exists b. do 3 (split; [done|]).
  pose proof tree_small.
  assert (b < 2 ^ (h + 1) - 1); [|lia].
  apply (lvl_in_tree b lv); [done|lia|lia].
Qed.

(** The border node one level down is the child on the side of the leaf. *)
Lemma border_child lv blv bk :
  1 <= lv <= h → border !!r lv = Some blv → border !!r (lv - 1) = Some bk →
  (l0 < blv → bk = blv - 2 ^ (lv - 1)) ∧ (blv < l0 → bk = blv + 2 ^ (lv - 1)).
Proof.
  intros Hlv Hblv Hbk.
  destruct (border_at lv) as (? & ? & Hl & Hr & Hs); [lia|]. simplify_eq.
  destruct (border_at (lv - 1)) as (? & ? & Hl' & Hr' & Hs'); [lia|]. simplify_eq.
  destruct (left_lvl blv lv) as [_ Hll]; [done..|lia|].
  destruct (right_lvl blv lv) as [_ Hrl]; [done..|lia|].
  rewrite (proj1 (left_lvl blv lv Hs Hl ltac:(lia))) in Hll.
  rewrite (proj1 (right_lvl blv lv Hs Hl ltac:(lia))) in Hrl.
  pose proof (pow2_pos (lv - 1) ltac:(lia)).
  rewrite (pow2_pred lv) in Hr by lia.
  split; intros Hlt.
  - apply (lvl_subtree_unique _ _ (lv - 1) l0 Hl' Hll); lia.
  - apply (lvl_subtree_unique _ _ (lv - 1) l0 Hl' Hrl); lia.
Qed.

(** An imaginary border node leaves [right_border_ime] in place. *)
Lemma border_inv_imag lv blv rbi :
  1 <= lv <= h → border !!r lv = Some blv → vsize srt <= blv →
  border_inv srt border (lv - 1) rbi → border_inv srt border lv rbi.
Proof.
  intros Hlv Hblv Himag (j & b & Hj & Hb & Hreal & Hmax & Hchain).
  destruct (border_at (lv - 1)) as (bk & Hbk & Hlk & Hrk & Hsk); [lia|].
  destruct (border_child lv blv bk Hlv Hblv Hbk) as [Hleft _].
  specialize (Hleft ltac:(lia)).
  pose proof (pow2_pos (lv - 1) ltac:(lia)).
  exists j, b. split; [lia|]. do 3 (split; [done|]). intros _.
  exists blv. split; [done|]. split; [done|].
  rewrite (pow2_pred lv) by lia.
  destruct (decide (j = lv - 1)) as [->|].
  - simplify_eq. lia.
  - destruct Hchain as (bk' & Hbk' & ? & ? & ?); [lia|]. simplify_eq. lia.
Qed.

Lemma subtree_max_split n k nd :
  lvl n k → 0 < k → srt !!r n = Some nd →
  subtree_max srt n k =
    omax (subtree_max srt (n - 2 ^ (k - 1)) (k - 1))
         (omax (Some (node_end nd)) (max_ends (sub (n + 1) (n + (2 ^ k - 1)) srt))).
Proof.
  intros Hk Hpos Hnd. pose proof (lvl_bound _ _ Hk).
  pose proof (pow2_pos (k - 1) ltac:(lia)).
  unfold subtree_max. rewrite (pow2_pred k) in * by lia.
  rewrite (sub_split3 _ n) by lia. rewrite !max_ends_app, sub_single, Hnd.
  rewrite max_ends_single. do 3 f_equal; lia.
Qed.

Lemma subtree_max_leaf n nd :
  srt !!r n = Some nd → subtree_max srt n 0 = Some (node_end nd).
Proof.
  intros Hnd. unfold subtree_max. change (2 ^ 0 - 1) with 0.
  rewrite Z.sub_0_r, Z.add_0_r, sub_single. by rewrite Hnd.
Qed.

(** One turn of the inner loop. *)
Lemma augment_node_spec lv n blv nds rbi :
  1 <= lv <= h → lvl n lv → n < vsize srt → border !!r lv = Some blv →
  nodes_inv srt lv n nds →
  (n <= blv → border_inv srt border (lv - 1) rbi) →
  (blv < n → border_inv srt border lv rbi ∧ blv < vsize srt) →
  ∃ nds' rbi', augment_node border lv n (nds, rbi) = Some (nds', rbi') ∧
    nodes_inv srt lv (n + 2 ^ (lv + 1)) nds' ∧
    (n + 2 ^ (lv + 1) <= blv → border_inv srt border (lv - 1) rbi') ∧
    (blv < n + 2 ^ (lv + 1) → border_inv srt border lv rbi' ∧ blv < vsize srt).
Proof.
  intros Hlv Hn Hreal Hblv [Hupd Hnodes] Hbefore Hafter.
  pose proof (ime_updated_vsize _ _ Hupd) as Hlen.
  pose proof (lvl_bound _ _ Hn) as Hnb.
  pose proof (pow2_pos (lv - 1) ltac:(lia)) as Hp.
  pose proof (pow2_pred lv ltac:(lia)) as Hp2.
  assert (n < 2 ^ 63 - 1) as Hns by lia.
  destruct (left_lvl n lv Hns Hn ltac:(lia)) as [Hl Hll].
  destruct (right_lvl n lv Hns Hn ltac:(lia)) as [Hr Hrl].
  destruct (border_at lv) as (? & ? & Hbl & Hbr & Hbs); [lia|]. simplify_eq.
  (* the node and its left child *)
  destruct (at_rank_lt nds n) as [nd Hnd]; [lia|].
  destruct (at_rank_lt nds (left n)) as [l Hlnd]; [lia|].
  destruct (ime_updated_lookup _ _ _ _ Hupd Hnd) as (nd0 & Hnd0 & Hund).
  assert (node_end nd = node_end nd0) as Hend
    by (unfold node_end; by rewrite (ime_updated_item _ _ Hund)).
  destruct (Hnodes _ _ _ Hll Hlnd) as [Hlmax _].
  specialize (Hlmax ltac:(lia)). rewrite Hl in Hlmax.
  pose proof (subtree_max_split n lv nd0 Hn ltac:(lia) Hnd0) as Hsplit.
  rewrite Hlmax in Hsplit.
  (* the value stored *)
  assert (∃ x,
    (if right n <? vsize nds then
       r ← nds !!r right n; Some (Z.max (Z.max (node_end nd) (node_ime l)) (node_ime r))
     else Some (Z.max (Z.max (node_end nd) (node_ime l)) rbi)) = Some x ∧
    subtree_max srt n lv = Some x) as (x & Hx & Hmax).
  { destruct (Z.ltb_spec (right n) (vsize nds)) as [Hrr|Hri].
    - destruct (at_rank_lt nds (right n)) as [r Hrnd]; [lia|].
      rewrite Hrnd. simpl. eexists. split; [done|].
      destruct (Hnodes _ _ _ Hrl Hrnd) as [Hrmax _].
      specialize (Hrmax ltac:(lia)). unfold subtree_max in Hrmax.
      rewrite Hr in Hrmax.
      replace (n + 2 ^ (lv - 1) - (2 ^ (lv - 1 - 1 + 1) - 1)) with (n + 1) in Hrmax
        by (replace (lv - 1 - 1 + 1) with (lv - 1) by lia; lia).
      rewrite Hsplit.
      replace (n + (2 ^ lv - 1)) with (n + 2 ^ (lv - 1) + (2 ^ (lv - 1) - 1)) by lia.
      replace (sub (n + 2 ^ (lv - 1) - (2 ^ (lv - 1) - 1)) (n + 2 ^ (lv - 1) + (2 ^ (lv - 1) - 1)) srt)
        with (sub (n + 1) (n + 2 ^ (lv - 1) + (2 ^ (lv - 1) - 1)) srt) in Hrmax
        by (f_equal; lia).
      rewrite Hrmax, Hend. simpl. f_equal. lia.
    - eexists. split; [done|]. rewrite Hsplit, Hend.
      (* [n] is the border node of its level *)
      assert (blv = n) as ->.
      { apply (lvl_subtree_unique _ _ lv l0); [done|done|lia|lia]. }
      destruct Hbefore as (j & b & Hj & Hb & Hbreal & Hbmax & Hchain); [lia|].
      destruct (border_at (lv - 1)) as (bk & Hbk & Hlk & Hrk & Hsk); [lia|].
      destruct (border_child lv n bk Hlv Hblv Hbk) as [Hchl Hchr].
      assert (l0 ≠ n) as Hne.
      { intros ->. pose proof (lvl_unique _ _ _ Hl0 Hn). lia. }
      destruct (decide (l0 < n)) as [Hlt|Hgt].
      + (* the leaf is on the left: nothing real on the right *)
        specialize (Hchl Hlt). subst bk.
        assert (j = lv - 1) as ->.
        { destruct (decide (j = lv - 1)); [done|].
          destruct Hchain as (bk' & Hbk' & ? & _); [lia|]. simplify_eq. lia. }
        simplify_eq.
        rewrite (sub_ge (n + 1)) by lia. simpl. f_equal. lia.
      + (* the leaf is on the right: the border holds the real part *)
        specialize (Hchr ltac:(lia)). subst bk.
        assert (j < lv - 1) as Hjlt.
        { destruct (decide (j = lv - 1)) as [->|]; [|lia]. simplify_eq. lia. }
        destruct Hchain as (bk' & Hbk' & ? & Hlo & Hhi); [done|]. simplify_eq.
        unfold subtree_max in Hbmax. rewrite <- Hlo in Hbmax.
        rewrite sub_clip in Hbmax by done.
        rewrite (sub_clip (n + 1)) by lia.
        replace (n + 2 ^ (lv - 1) - (2 ^ (lv - 1) - 1)) with (n + 1) in Hbmax by lia.
        rewrite Hbmax. simpl. f_equal. lia. }
  (* the state after the turn *)
  unfold augment_node. rewrite Hnd. simpl. rewrite Hlnd. simpl.
  rewrite Hx. simpl. rewrite Hblv. simpl.
  eexists _, _. split; [done|].
  assert (0 <= n) as Hn0 by lia.
  split; [split|split].
  - by apply ime_updated_insert.
  - intros m km nd' Hm Hnd'. pose proof (lvl_nonneg _ _ Hm) as Hm0.
    destruct (decide (m = n)) as [->|Hmn].
    + pose proof (lvl_unique _ _ _ Hm Hn). subst km.
      unfold at_rank in Hnd'. rewrite list_lookup_insert_eq in Hnd'
        by (unfold at_rank in Hnd; by eapply lookup_lt_Some).
      simplify_eq. rewrite node_ime_set.
      pose proof (pow2_pos (lv + 1) ltac:(lia)).
      split; [done|]. intros Hnot. exfalso. apply Hnot. right. lia.
    + unfold at_rank in Hnd'. rewrite list_lookup_insert_ne in Hnd' by lia.
      destruct (Hnodes _ _ _ Hm Hnd') as [Hdone Hnot].
      assert ((km < lv ∨ km = lv ∧ m < n + 2 ^ (lv + 1)) ↔ (km < lv ∨ km = lv ∧ m < n)) as Hiff.
      { split; intros [?|[-> Hlt]]; [by left| |by left|].
        - right. split; [done|]. destruct (decide (m < n)); [done|].
          pose proof (lvl_spacing n m lv Hn Hm ltac:(lia)). lia.
        - right. split; [done|]. pose proof (pow2_pos (lv + 1) ltac:(lia)). lia. }
      rewrite Hiff. done.
  - intros Hle. pose proof (pow2_pos (lv + 1) ltac:(lia)).
    destruct (Z.eqb_spec n blv); [lia|]. apply Hbefore. lia.
  - intros Hlt. destruct (Z.eqb_spec n blv) as [->|Hne].
    + split; [|done]. exists lv, blv. split; [lia|]. do 3 (split; [done|]). lia.
    + destruct (decide (blv < n)); [by apply Hafter|].
      pose proof (lvl_spacing n blv lv Hn ltac:(done) ltac:(lia)). lia.
Qed.

Local Arguments augment_node : simpl never.
Local Arguments augment_level : simpl never.

(** The inner loop: one level of the tree. *)
Lemma augment_level_spec lv nds rbi :
  1 <= lv <= h →
  nodes_inv srt lv (2 ^ lv - 1) nds →
  border_inv srt border (lv - 1) rbi →
  ∃ nds' rbi', augment_level border lv (nds, rbi) = Some (nds', rbi') ∧
    nodes_inv srt (lv + 1) (2 ^ (lv + 1) - 1) nds' ∧
    border_inv srt border lv rbi'.
Proof.
  intros Hlv Hnodes Hrb.
  pose proof (pow2_pos (lv - 1) ltac:(lia)) as Hp.
  pose proof (pow2_pred lv ltac:(lia)) as Hp2.
  pose proof (pow2_le lv 62 ltac:(lia)) as Hp62.
  pose proof (pow2_succ lv ltac:(lia)) as Hps.
  destruct (border_at lv ltac:(lia)) as (blv & Hblv & Hbl & Hbr & Hbs).
  unfold augment_level.
  rewrite (sub64_small lv 1) by lia. rewrite (shl64_one (lv - 1)) by lia.
  rewrite (shl64_pow2 (lv - 1) 2) by lia. rewrite (shl64_pow2 (lv - 1) 1) by lia.
  replace (lv - 1 + 2) with (lv + 1) by lia. replace (lv - 1 + 1) with lv by lia.
  rewrite (sub64_small (2 ^ lv) 1) by lia. simpl.
  while_inv
    (λ '((n, (nds', rbi')) : Z * (list Node * Z)),
       lvl n lv ∧ nodes_inv srt lv n nds' ∧
       (n <= blv → border_inv srt border (lv - 1) rbi') ∧
       (blv < n → border_inv srt border lv rbi' ∧ blv < vsize srt))
    (λ '((n, _) : Z * (list Node * Z)), Z.to_nat (vsize srt - n)).
  - split; [apply lvl_root; lia|]. split; [done|]. split; [done|].
    intros Hlt. pose proof (lvl_bound _ _ Hbl). lia.
  - destruct Hnodes as [Hupd _]. pose proof (ime_updated_vsize _ _ Hupd) as Hlen.
    unfold vsize in *. lia.
  - intros [n [nds' rbi']] (Hn & Hnodes' & Hbefore & Hafter). simpl.
    eexists. split; [done|]. intros Hlt%Z.ltb_lt.
    pose proof (ime_updated_vsize _ _ (proj1 Hnodes')) as Hlen. rewrite Hlen in Hlt.
    destruct (augment_node_spec lv n blv nds' rbi')
      as (nds'' & rbi'' & -> & Hn'' & Hb'' & Ha''); try done.
    simpl. eexists. split; [done|]. pose proof (lvl_nonneg _ _ Hn).
    rewrite add64_small by lia. split; [|lia].
    split; [by apply lvl_step|]. done.
  - intros [n [nds' rbi']] (Hn & [Hupd Hnodes'] & Hbefore & Hafter) He.
    simpl in He. injection He as Hge%Z.ltb_ge.
    pose proof (ime_updated_vsize _ _ Hupd) as Hlen. rewrite Hlen in Hge.
    simpl. exists nds', rbi'. split; [done|]. split; [split; [done|]|].
    + intros m km nd Hm Hnd. destruct (Hnodes' m km nd Hm Hnd) as [Hdone Hnot].
      pose proof (at_rank_Some _ _ _ Hnd) as Hmn. rewrite Hlen in Hmn.
      pose proof (lvl_bound _ _ Hm).
      assert ((km < lv + 1 ∨ km = lv + 1 ∧ m < 2 ^ (lv + 1) - 1) ↔
              (km < lv ∨ km = lv ∧ m < n)) as Hiff.
      { split; intros [?|[-> Hlt]]; [|lia|lia|lia].
        destruct (decide (km = lv)); [right; lia|left; lia]. }
      by rewrite Hiff.
    + destruct (decide (blv < n)); [by apply Hafter|].
      apply (border_inv_imag lv blv); try done; try lia.
      apply Hbefore. lia.
Qed.

(** The outer loop: every level from the leaves to the root. *)
Lemma augment_levels_spec n0 :
  srt !!r l0 = Some n0 →
  ∃ nds rbi, augment_levels border h (srt, node_ime n0) = Some (nds, rbi) ∧
    Forall2 ime_updated srt nds ∧ augmented nds.
Proof.
  intros Hn0. unfold augment_levels.
  while_inv
    (λ '((lv, (nds, rbi)) : Z * (list Node * Z)),
       1 <= lv <= h + 1 ∧ nodes_inv srt lv (2 ^ lv - 1) nds ∧
       border_inv srt border (lv - 1) rbi)
    (λ '((lv, _) : Z * (list Node * Z)), Z.to_nat (h + 1 - lv)).
  - split; [lia|]. split; [split|].
    + apply Forall2_same_length_lookup. split; [done|].
      intros i x y Hx Hy. simplify_eq. constructor.
    + intros m km nd Hm Hnd. pose proof (lvl_bound _ _ Hm) as Hb.
      assert (nd ∈ srt) as Hin by (by eapply list_elem_of_lookup_2).
      split; [|intros _; by apply Hfresh].
      intros [Hlt|[-> Hlt]]; [|simpl in *; lia].
      assert (km = 0) as -> by (destruct Hm; lia).
      rewrite (subtree_max_leaf m nd) by done. f_equal. symmetry. by apply Hfresh.
    + exists 0, l0. split; [lia|].
      destruct (border_at 0 ltac:(lia)) as (b0 & Hb0 & _ & Hrange & _).
      change (2 ^ 0 - 1) with 0 in Hrange. assert (b0 = l0) as -> by lia.
      split; [done|]. split; [lia|]. split; [|lia].
      rewrite (subtree_max_leaf l0 n0) by done. f_equal. symmetry. apply Hfresh.
      by eapply list_elem_of_lookup_2.
  - simpl. lia.
  - intros [lv [nds rbi]] (Hlv & Hnodes & Hrb). simpl.
    eexists. split; [done|]. intros Hle%Z.leb_le.
    destruct (augment_level_spec lv nds rbi) as (nds' & rbi' & -> & Hnodes' & Hrb'); try done; try lia.
    simpl. eexists. split; [done|]. rewrite add64_small by lia.
    replace (lv + 1 - 1) with lv by lia. split; [|lia]. split; [lia|done].
  - intros [lv [nds rbi]] (Hlv & [Hupd Hnodes] & Hrb) He. simpl in He.
    injection He as Hgt%Z.leb_gt. simpl. exists nds, rbi. split; [done|]. split; [done|].
    intros n k nd Hk Hnd. pose proof (at_rank_Some _ _ _ Hnd) as Hn.
    rewrite (ime_updated_vsize _ _ Hupd) in Hn.
    pose proof (lvl_nonneg _ _ Hk).
    pose proof (lvl_le_root n k h Hk ltac:(lia) ltac:(lia)).
    fold (subtree_max nds n k). rewrite (subtree_max_ext srt nds) by done.
    apply (Hnodes n k nd Hk Hnd). left. lia.
Qed.

End AugmentProof.

(** ** The constructor *)

Section Ctor.
Context {Item : Type} `{NodeType Item Node}.

Lemma fresh_sort (v : list Node) : fresh v → fresh (std_sort v).
Proof. intros Hf nd Hnd. apply Hf. by rewrite <- (std_sort_perm v). Qed.

Lemma augmented_ime_bound (v : list Node) : augmented v → ime_bound v.
Proof. intros Ha n k nd m Hk Hnd Hm. by eapply max_ends_ge; [apply Ha|]. Qed.

(** The constructor returns an index: the geometry is that of the number of
    nodes, the nodes are the sorted input with [inside_max_end] assigned, and
    every [inside_max_end] is the maximum of its subtree. *)
Lemma iit_base_ctor_spec (nodes_ : list Node) :
  vsize nodes_ < 2 ^ 63 → fresh nodes_ →
  ∃ t, iit_base_ctor nodes_ = Some t ∧ geometry_of t ∧
       Forall2 ime_updated (std_sort nodes_) (nodes t) ∧
       augmented (nodes t) ∧ sorted_nodes (nodes t).
Proof.
  intros Hsz Hfresh. unfold iit_base_ctor.
  assert (0 <= vsize nodes_) as Hsz0 by (unfold vsize; lia).
  destruct (tree_geometry_spec (vsize nodes_)) as (h & fs & -> & Hh & Hfs & Hzero & Hpos); [lia|].
  simpl. rewrite shl64_one by lia. pose proof (pow2_pos h ltac:(lia)).
  pose proof (pow2_le h 62 ltac:(lia)).
  rewrite sub64_small by lia.
  destruct (Z.eqb_spec (vsize nodes_) 0) as [Hz|Hnz].
  - eexists. split; [done|]. destruct (Hzero Hz) as [-> ->].
    assert (nodes_ = []) as -> by (destruct nodes_; [done|unfold vsize in Hz; simpl in Hz; lia]).
    split; [unfold geometry_of, vsize; simpl; lia|].
    split; [constructor|]. split.
    + intros n k nd _ Hnd. by destruct (Z.to_nat n).
    + intros i j a b _ Ha. by destruct (Z.to_nat i).
  - destruct (Hpos ltac:(lia)) as [Hh1 ->].
    pose proof (std_sort_length nodes_) as Hlen.
    destruct (right_border_spec (vsize nodes_) h) as (border & -> & Hborder); [lia..|].
    simpl. destruct (rightmost_leaf_spec (vsize nodes_)) as [Hl0 Hl0n]; [lia|].
    pose proof (lvl_nonneg _ _ Hl0) as Hl00.
    edestruct (λ H1 H2 H3 H4, border_at (std_sort nodes_) border h
                 (rightmost_leaf (vsize nodes_)) H1 H2 H3 H4 0)
      as (b0 & Hb0 & _ & Hrange & _); rewrite ?Hlen; try done; try lia.
    change (2 ^ 0 - 1) with 0 in Hrange.
    assert (b0 = rightmost_leaf (vsize nodes_)) as -> by lia.
    rewrite Hb0. simpl.
    destruct (at_rank_lt (std_sort nodes_) (rightmost_leaf (vsize nodes_))) as [n0 Hn0]; [lia|].
    rewrite Hn0. simpl.
    edestruct (λ H1 H2 H3 H4 H5 H6 H7, augment_levels_spec (std_sort nodes_) border h
                 (rightmost_leaf (vsize nodes_)) H1 H2 H3 H4 H5 H6 H7 n0)
      as (nds & rbi & Haugs & Hupd & Haug); rewrite ?Hlen; try done; try lia.
    { by apply fresh_sort. }
    rewrite Haugs.
    simpl. eexists. split; [done|]. simpl.
    split; [|split; [done|split; [done|]]].
    + unfold geometry_of. simpl. rewrite (ime_updated_vsize _ _ Hupd), Hlen. lia.
    + eapply sorted_nodes_ext; [done|]. apply std_sort_sorted_nodes.
Qed.

End Ctor.

(** ** Subtrees as ranges of ranks *)

Lemma in_subtree_range n k m :
  lvl n k → n < 2 ^ 63 - 1 →
  in_subtree n m ↔ n - (2 ^ k - 1) <= m <= n + (2 ^ k - 1).
Proof.
  intros Hk Hn. split.
  - intros Hin. revert k Hk Hn.
    induction Hin as [n|n m Hne _ IH|n m Hne _ IH]; intros k Hk Hn.
    + pose proof (pow2_pos k (proj1 Hk)). lia.
    + destruct (decide (k = 0)) as [->|]; [by rewrite left_leaf in Hne|].
      assert (0 < k) as Hpos by (destruct Hk; lia).
      destruct (left_lvl n k Hn Hk Hpos) as [Hl Hlk].
      pose proof (pow2_pos (k - 1) ltac:(lia)).
      specialize (IH (k - 1) Hlk ltac:(lia)). rewrite Hl in IH.
      rewrite (pow2_pred k) by lia. lia.
    + destruct (decide (k = 0)) as [->|]; [by rewrite right_leaf in Hne|].
      assert (0 < k) as Hpos by (destruct Hk; lia).
      destruct (right_lvl n k Hn Hk Hpos) as [Hr Hrk].
      pose proof (pow2_pos (k - 1) ltac:(lia)).
      pose proof (subtree_hi_small n k Hn Hk) as Hhi.
      rewrite (pow2_pred k) in Hhi by lia.
      specialize (IH (k - 1) Hrk ltac:(lia)). rewrite Hr in IH.
      rewrite (pow2_pred k) by lia. lia.
  - assert (∀ (d : nat) n k m, Z.to_nat k = d → lvl n k → n < 2 ^ 63 - 1 →
              n - (2 ^ k - 1) <= m <= n + (2 ^ k - 1) → in_subtree n m) as Hgen.
    { clear. induction d as [|d IH]; intros n k m Hd Hk Hn Hm.
      - assert (k = 0) as -> by (destruct Hk; lia).
        change (2 ^ 0 - 1) with 0 in Hm. assert (m = n) as -> by lia. constructor.
      - assert (0 < k) as Hpos by lia.
        destruct (left_lvl n k Hn Hk Hpos) as [Hl Hlk].
        destruct (right_lvl n k Hn Hk Hpos) as [Hr Hrk].
        pose proof (pow2_pos (k - 1) ltac:(lia)).
        pose proof (subtree_hi_small n k Hn Hk) as Hhi.
        pose proof (lvl_nonneg _ _ Hlk).
        rewrite (pow2_pred k) in Hhi, Hm by lia.
        destruct (Z.lt_trichotomy m n) as [Hlt|[->|Hgt]].
        + apply in_subtree_left; [unfold nrank; lia|].
          apply (IH _ (k - 1)); [lia|done|lia|]. rewrite Hl. lia.
        + constructor.
        + apply in_subtree_right; [unfold nrank; lia|].
          apply (IH _ (k - 1)); [lia|done|lia|]. rewrite Hr. lia. }
    by apply (Hgen (Z.to_nat k)).
Qed.

(** ** The builder and the index it builds *)

Section Build.
Context {Item : Type} `{NodeType Item Node}.
Implicit Types (items : list Item) (t : iit_base Node).

Lemma builder_add_range_fmap (nodes_ : list Node) items :
  builder_add_range nodes_ items = nodes_ ++ (node_new <$> items).
Proof.
  unfold builder_add_range.
  revert nodes_. induction items as [|it items IH]; intros nodes_; simpl.
  - by rewrite app_nil_r.
  - rewrite IH. unfold builder_add. by rewrite <- app_assoc.
Qed.

Lemma builder_of_range_fmap items : builder_of_range items = node_new <$> items.
Proof. apply builder_add_range_fmap. Qed.

Lemma node_item_new (it : Item) : node_item (node_new it : Node) = it.
Proof. unfold node_item. by rewrite node_base_new. Qed.

Lemma builder_items items : node_item <$> (builder_of_range items : list Node) = items.
Proof.
  rewrite builder_of_range_fmap, <- list_fmap_compose.
  rewrite <- (list_fmap_id items) at 2. apply list_fmap_ext.
  intros _ it _. apply node_item_new.
Qed.

Lemma builder_fresh items : fresh (builder_of_range items : list Node).
Proof.
  rewrite builder_of_range_fmap. intros nd (it & -> & _)%list_elem_of_fmap.
  unfold node_ime, node_end, node_item. by rewrite node_base_new.
Qed.

Lemma builder_vsize items : vsize (builder_of_range items : list Node) = vsize items.
Proof. unfold vsize. by rewrite builder_of_range_fmap, length_fmap. Qed.

(** What [build] returns for the items given to the builder. *)
Lemma build_spec items :
  vsize items < 2 ^ 63 →
  ∃ t, iit_base_ctor (builder_of_range items) = Some t ∧ geometry_of t ∧
       augmented (nodes t) ∧ sorted_nodes (nodes t) ∧
       node_item <$> nodes t ≡ₚ items ∧
       Forall2 ime_updated (std_sort (builder_of_range items)) (nodes t).
Proof.
  intros Hsz.
  destruct (iit_base_ctor_spec (builder_of_range items))
    as (t & Ht & Hgeo & Hupd & Haug & Hsorted).
  { by rewrite builder_vsize. }
  { apply builder_fresh. }
  exists t. do 4 (split; [done|]). split; [|done].
  rewrite (ime_updated_items _ _ Hupd), std_sort_perm. by rewrite builder_items.
Qed.

(** The query from the root returns the overlapping items of all the nodes. *)
Lemma iit_base_overlap_spec t qbeg qend ans0 :
  geometry_of t → sorted_nodes (nodes t) → ime_bound (nodes t) →
  ∃ c, iit_base_overlap t qbeg qend ans0 =
         Some (c, overlapping qbeg qend (nodes t)).
Proof.
  intros (Hrl & Hroot & Hfs & Hzero & Hpos) Hsorted Hime. unfold iit_base_overlap.
  pose proof (pow2_pos (root_level t) ltac:(lia)) as Hp.
  pose proof (pow2_le (root_level t) 62 ltac:(lia)) as Hp62.
  destruct (scan_spec (nodes t) qbeg qend Hsorted Hime 64 (root_level t) (root t) [])
    as [c Hc]; [rewrite Hroot; apply lvl_root; lia|lia|lia|].
  exists c. rewrite Hc. simpl. do 3 f_equal. rewrite Hroot.
  replace (2 ^ root_level t - 1 - (2 ^ root_level t - 1)) with 0 by lia.
  apply sub_all. assert (0 <= vsize (nodes t)) by (unfold vsize; lia).
  destruct (decide (vsize (nodes t) = 0)); [lia|].
  destruct Hpos as [_ Hfull]; [lia|].
  rewrite pow2_succ in Hfull by lia. lia.
Qed.

Lemma augmented_is_max (v : list Node) n k nd :
  augmented v → lvl n k → n < 2 ^ 63 - 1 → v !!r n = Some nd →
  is_max_end v (in_subtree n) (node_ime nd).
Proof.
  intros Haug Hk Hn Hnd. specialize (Haug n k nd Hk Hnd).
  pose proof (lvl_bound _ _ Hk) as Hb.
  split.
  - destruct (max_ends_in _ _ Haug) as (m & Hm & Hend).
    apply elem_of_sub in Hm as (i & Hi & Hm); [|lia].
    exists i, m. split; [lia|]. split; [by apply (in_subtree_range n k)|done].
  - intros m nd' Hm0 Hin Hnd'. apply (max_ends_ge _ _ _ Haug).
    apply elem_of_sub; [lia|]. exists m. split; [|done].
    by apply (in_subtree_range n k).
Qed.

End Build.

(** ** The outside augment of [iitii] *)

Section Outside.
Context {Item : Type} `{Interval Item} `{PosType}.
Implicit Types (v nds : list (iitii_node Item)).

(** The running maximum: entry [i] is the greatest [end] of ranks [0..i]. *)
Lemma running_max_end_spec nds :
  0 < vsize nds < 2 ^ 63 →
  ∃ rme, running_max_end nds = Some rme ∧
    ∀ i, 0 <= i < vsize nds →
      ∃ x, rme !!r i = Some x ∧ max_ends (sub 0 i nds) = Some x.
Proof.
  intros Hsz. unfold running_max_end.
  destruct (at_rank_lt nds 0) as [n0 Hn0]; [lia|]. rewrite Hn0. simpl.
  while_inv
    (λ '((n, rme) : Z * list Z), 1 <= n <= vsize nds ∧ vsize rme = n ∧
       ∀ i, 0 <= i < n →
         ∃ x, rme !!r i = Some x ∧ max_ends (sub 0 i nds) = Some x)
    (λ '((n, _) : Z * list Z), Z.to_nat (vsize nds - n)).
  - split; [lia|]. split; [done|]. intros i Hi. assert (i = 0) as -> by lia.
    exists (node_end n0). split; [done|]. by rewrite sub_single, Hn0.
  - unfold vsize. lia.
  - intros [n rme] (Hn & Hlen & Hrme). eexists. split; [done|].
    intros Hlt%Z.ltb_lt. rewrite sub64_small by lia.
    destruct (Hrme (n - 1)) as (prev & Hprev & Hmax); [lia|]. rewrite Hprev. simpl.
    destruct (at_rank_lt nds n) as [nd Hnd]; [lia|]. rewrite Hnd. simpl.
    eexists. split; [done|]. rewrite add64_small by lia.
    split; [|lia]. split; [lia|]. split; [rewrite vsize_snoc; lia|].
    intros i Hi. destruct (decide (i = n)) as [->|].
    + exists (Z.max prev (node_end nd)). split.
      * unfold at_rank. rewrite lookup_app_r by (unfold vsize in Hlen; lia).
        replace (Z.to_nat n - length rme)%nat with 0%nat by (unfold vsize in Hlen; lia).
        done.
      * rewrite (sub_split 0 n n) by lia. rewrite max_ends_app, Hmax, sub_single, Hnd.
        done.
    + destruct (Hrme i) as (x & Hx & Hmx); [lia|]. exists x. split; [|done].
      rewrite at_rank_snoc_lt by lia. done.
  - intros [n rme] (Hn & Hlen & Hrme) He. simpl in He. injection He as Hge%Z.ltb_ge.
    simpl. exists rme. split; [done|]. intros i Hi. apply Hrme. lia.
Qed.

(** The walk backwards over the nodes that tie on [beg]. *)
Lemma walk_back_spec nds beg leq0 :
  0 <= leq0 < vsize nds → vsize nds < 2 ^ 63 →
  ∃ leq nd, walk_back nds beg leq0 = Some leq ∧ 0 <= leq <= leq0 ∧
    nds !!r leq = Some nd ∧
    (∀ i ndi, leq < i <= leq0 → nds !!r i = Some ndi → node_beg ndi = beg) ∧
    (node_beg nd = beg → leq = 0).
Proof.
  intros Hleq Hsz. unfold walk_back.
  while_inv
    (λ '((leq, broke) : Z * bool), 0 <= leq <= leq0 ∧
       (∀ i ndi, leq < i <= leq0 → nds !!r i = Some ndi → node_beg ndi = beg) ∧
       (broke = true → leq = 0))
    (λ '((leq, broke) : Z * bool), if broke then 0%nat else S (Z.to_nat leq)).
  - split; [lia|]. split; [intros; lia|done].
  - lia.
  - intros [leq broke] (Hl & Htie & Hbroke).
    destruct broke; [eexists; split; [done|]; done|].
    destruct (at_rank_lt nds leq) as [nd Hnd]; [lia|]. rewrite Hnd. simpl.
    eexists. split; [done|]. intros Heq%Z.eqb_eq.
    destruct (Z.eqb_spec leq 0) as [->|Hne].
    + eexists. split; [done|]. split; [|lia]. split; [lia|done].
    + eexists. split; [done|]. rewrite sub64_small by lia. split; [|lia].
      split; [lia|]. split; [|done]. intros i ndi Hi Hndi.
      destruct (decide (i = leq)) as [->|]; [by simplify_eq|]. apply (Htie i); [lia|done].
  - intros [leq broke] (Hl & Htie & Hbroke) He. simpl.
    destruct (at_rank_lt nds leq) as [nd Hnd]; [lia|].
    exists leq, nd. do 4 (split; [done|]). intros Heq.
    destruct broke; [by apply Hbroke|]. rewrite Hnd in He. simpl in He.
    injection He as Hne%Z.eqb_neq. done.
Qed.

End Outside.

Section SameItems.
Context {Item : Type} `{NodeType Item Node}.
Implicit Types (v : list Node).

Lemma sorted_beg_le v i j a b :
  sorted_nodes v → 0 <= i <= j → v !!r i = Some a → v !!r j = Some b →
  node_beg a <= node_beg b.
Proof.
  intros Hs Hij Ha Hb. destruct (decide (i = j)) as [->|]; [by simplify_eq|].
  destruct (Hs i j a b); [lia|done..|lia|lia].
Qed.

Lemma same_items_lookup (v1 v2 : list Node) i a :
  node_item <$> v1 = node_item <$> v2 → v1 !!r i = Some a →
  ∃ b, v2 !!r i = Some b ∧ node_item b = node_item a.
Proof.
  unfold at_rank. intros Heq Ha.
  assert ((node_item <$> v2) !! Z.to_nat i = Some (node_item a)) as Hb.
  { rewrite <- Heq, list_lookup_fmap, Ha. done. }
  rewrite list_lookup_fmap in Hb. destruct (v2 !! Z.to_nat i) as [b|]; [|done].
  exists b. split; [done|]. simpl in Hb. by simplify_eq.
Qed.

Lemma same_items_vsize (v1 v2 : list Node) :
  node_item <$> v1 = node_item <$> v2 → vsize v1 = vsize v2.
Proof.
  intros Heq. unfold vsize. f_equal.
  by rewrite <- (length_fmap node_item v1), Heq, length_fmap.
Qed.

Lemma sorted_nodes_same_items (v1 v2 : list Node) :
  node_item <$> v1 = node_item <$> v2 → sorted_nodes v1 → sorted_nodes v2.
Proof.
  intros Heq Hs i j a b Hij Ha Hb.
  destruct (same_items_lookup v2 v1 i a (eq_sym Heq) Ha) as (a' & Ha' & Hia).
  destruct (same_items_lookup v2 v1 j b (eq_sym Heq) Hb) as (b' & Hb' & Hib).
  unfold node_beg, node_end. rewrite <- Hia, <- Hib. by eapply Hs.
Qed.

Lemma is_max_end_ext (v1 v2 : list Node) (P1 P2 : Z → Prop) x :
  node_item <$> v1 = node_item <$> v2 → (∀ m, 0 <= m → P1 m ↔ P2 m) →
  is_max_end v1 P1 x → is_max_end v2 P2 x.
Proof.
  intros Heq HP [(m & nd & Hm & HPm & Hnd & Hx) Hub]. split.
  - destruct (same_items_lookup v1 v2 m nd Heq Hnd) as (nd' & Hnd' & Hi).
    exists m, nd'. split; [done|]. split; [by apply HP|]. split; [done|].
    unfold node_end. by rewrite Hi.
  - intros m' nd' Hm' HPm' Hnd'.
    destruct (same_items_lookup v2 v1 m' nd' (eq_sym Heq) Hnd') as (nd'' & Hnd'' & Hi).
    unfold node_end. rewrite <- Hi. apply (Hub m'); [done|by apply HP|done].
Qed.

Lemma is_min_beg_ext (v1 v2 : list Node) (P1 P2 : Z → Prop) x :
  node_item <$> v1 = node_item <$> v2 → (∀ m, 0 <= m → P1 m ↔ P2 m) →
  is_min_beg v1 P1 x → is_min_beg v2 P2 x.
Proof.
  intros Heq HP [(m & nd & Hm & HPm & Hnd & Hx) Hlb]. split.
  - destruct (same_items_lookup v1 v2 m nd Heq Hnd) as (nd' & Hnd' & Hi).
    exists m, nd'. split; [done|]. split; [by apply HP|]. split; [done|].
    unfold node_beg. by rewrite Hi.
  - intros m' nd' Hm' HPm' Hnd'.
    destruct (same_items_lookup v2 v1 m' nd' (eq_sym Heq) Hnd') as (nd'' & Hnd'' & Hi).
    unfold node_beg. rewrite <- Hi. apply (Hlb m'); [done|by apply HP|done].
Qed.

Lemma augmented_same_base (v1 v2 : list Node) :
  node_base <$> v1 = node_base <$> v2 → augmented v1 → augmented v2.
Proof.
  intros Heq Haug n k nd Hk Hnd.
  assert (node_item <$> v2 = node_item <$> v1) as Hitems.
  { trans (item <$> (node_base <$> v2)); [by rewrite <- list_fmap_compose|].
    rewrite <- Heq. by rewrite <- list_fmap_compose. }
  assert ((node_base <$> v1) !! Z.to_nat n = Some (node_base nd)) as Hb.
  { rewrite Heq, list_lookup_fmap. unfold at_rank in Hnd. by rewrite Hnd. }
  rewrite list_lookup_fmap in Hb.
  destruct (v1 !! Z.to_nat n) as [nd1|] eqn:Hnd1; [|done]. simpl in Hb.
  injection Hb as Hb. unfold node_ime. rewrite <- Hb.
  fold (node_ime nd1). rewrite <- (Haug n k nd1 Hk Hnd1).
  apply max_ends_ext. by rewrite !fmap_sub, Hitems.
Qed.

End SameItems.

Section OutsideExt.
Context {Item : Type} `{Interval Item} `{PosType}.
Implicit Types (v : list (iitii_node Item)).

Lemma outside_lt_ext v1 v2 n i :
  node_item <$> v1 = node_item <$> v2 → outside_lt v1 n i → outside_lt v2 n i.
Proof.
  intros Heq [Hout (ndn & ndi & Hn & Hi & Hlt)]. split; [done|].
  destruct (same_items_lookup v1 v2 n ndn Heq Hn) as (ndn' & Hn' & Hin).
  destruct (same_items_lookup v1 v2 i ndi Heq Hi) as (ndi' & Hi' & Hii).
  exists ndn', ndi'. do 2 (split; [done|]). unfold node_beg. by rewrite Hin, Hii.
Qed.

Lemma outside_ge_ext v1 v2 n i :
  node_item <$> v1 = node_item <$> v2 → outside_ge v1 n i → outside_ge v2 n i.
Proof.
  intros Heq [Hout (ndn & ndi & Hn & Hi & Hlt)]. split; [done|].
  destruct (same_items_lookup v1 v2 n ndn Heq Hn) as (ndn' & Hn' & Hin).
  destruct (same_items_lookup v1 v2 i ndi Heq Hi) as (ndi' & Hi' & Hii).
  exists ndn', ndi'. do 2 (split; [done|]). unfold node_beg. by rewrite Hin, Hii.
Qed.

Lemma outside_max_end_of_ext v1 v2 n x :
  node_item <$> v1 = node_item <$> v2 →
  outside_max_end_of v1 n x → outside_max_end_of v2 n x.
Proof.
  intros Heq [Hsome Hnone]. split.
  - intros (i & Hi & Hout). apply (is_max_end_ext v1 v2 (outside_lt v1 n)); [done| |].
    + intros m _. split; by apply outside_lt_ext.
    + apply Hsome. exists i. split; [done|]. by apply (outside_lt_ext v2 v1).
  - intros Hno. apply Hnone. intros (i & Hi & Hout). apply Hno.
    exists i. split; [done|]. by apply (outside_lt_ext v1 v2).
Qed.

Lemma outside_min_beg_of_ext v1 v2 n x :
  node_item <$> v1 = node_item <$> v2 →
  outside_min_beg_of v1 n x → outside_min_beg_of v2 n x.
Proof.
  intros Heq [Hsome Hnone]. split.
  - intros (i & Hi & Hout). apply (is_min_beg_ext v1 v2 (outside_ge v1 n)); [done| |].
    + intros m _. split; by apply outside_ge_ext.
    + apply Hsome. exists i. split; [done|]. by apply (outside_ge_ext v2 v1).
  - intros Hno. apply Hnone. intros (i & Hi & Hout). apply Hno.
    exists i. split; [done|]. by apply (outside_ge_ext v1 v2).
Qed.

End OutsideExt.

Section OutsideMax.
Context {Item : Type} `{Interval Item} `{PosType}.
Implicit Types (v nds : list (iitii_node Item)).

(** In a sorted vector a node outside the subtree that begins earlier has a
    smaller rank than the whole subtree. *)
Lemma outside_lt_left nds n k i :
  sorted_nodes nds → lvl n k → n < 2 ^ 63 - 1 → 0 <= i →
  outside_lt nds n i → i < n - (2 ^ k - 1).
Proof.
  intros Hs Hk Hn Hi [Hout (ndn & ndi & Hndn & Hndi & Hlt)].
  rewrite (in_subtree_range n k) in Hout by done.
  pose proof (pow2_pos k (proj1 Hk)).
  destruct (decide (i < n - (2 ^ k - 1))); [done|].
  pose proof (sorted_beg_le nds n i ndn ndi Hs ltac:(pose proof (lvl_nonneg _ _ Hk); lia) Hndn Hndi).
  lia.
Qed.

Lemma outside_max_none nds n k ndn :
  sorted_nodes nds → lvl n k → n < 2 ^ 63 - 1 → nds !!r n = Some ndn →
  (∀ i ndi, 0 <= i < n - (2 ^ k - 1) → nds !!r i = Some ndi →
     node_beg ndi = node_beg ndn) →
  outside_max_end_of nds n pos_min.
Proof.
  intros Hs Hk Hn Hndn Htie. split; [|done].
  intros (i & Hi & Hout). pose proof (outside_lt_left nds n k i Hs Hk Hn Hi Hout).
  destruct Hout as [_ (ndn' & ndi & ? & Hndi & Hlt)]. simplify_eq.
  pose proof (Htie i ndi ltac:(lia) Hndi). lia.
Qed.

Lemma outside_max_some nds n k ndn leq ndl x :
  sorted_nodes nds → lvl n k → n < 2 ^ 63 - 1 → nds !!r n = Some ndn →
  0 <= leq < n - (2 ^ k - 1) → nds !!r leq = Some ndl →
  node_beg ndl < node_beg ndn →
  (∀ i ndi, leq < i < n - (2 ^ k - 1) → nds !!r i = Some ndi →
     node_beg ndi = node_beg ndn) →
  max_ends (sub 0 leq nds) = Some x →
  outside_max_end_of nds n x.
Proof.
  intros Hs Hk Hn Hndn Hleq Hndl Hlt Htie Hmax.
  pose proof (pow2_pos k (proj1 Hk)).
  assert (∀ i ndi, 0 <= i <= leq → nds !!r i = Some ndi → outside_lt nds n i) as Hin.
  { intros i ndi Hi Hndi. split.
    - rewrite (in_subtree_range n k) by done. lia.
    - exists ndn, ndi. do 2 (split; [done|]).
      pose proof (sorted_beg_le nds i leq ndi ndl Hs ltac:(lia) Hndi Hndl). lia. }
  split; [|intros Hno; exfalso; apply Hno; exists leq; split; [lia|apply (Hin leq ndl); [lia|done]]].
  intros _. split.
  - destruct (max_ends_in _ _ Hmax) as (m & Hm & Hend).
    apply elem_of_sub in Hm as (i & Hi & Hm); [|done].
    exists i, m. split; [lia|]. split; [apply (Hin i m); [lia|done]|done].
  - intros m nd Hm Hout Hnd. apply (max_ends_ge _ _ _ Hmax).
    apply elem_of_sub; [done|]. exists m. split; [|done].
    pose proof (outside_lt_left nds n k m Hs Hk Hn Hm Hout).
    destruct Hout as [_ (ndn' & ndi & ? & Hndi & Hlt')]. simplify_eq.
    destruct (decide (m <= leq)); [lia|].
    pose proof (Htie m ndi ltac:(lia) Hndi). lia.
Qed.

Lemma base_items (v1 v2 : list (iitii_node Item)) :
  iitii_base <$> v1 = iitii_base <$> v2 → node_item <$> v1 = node_item <$> v2.
Proof.
  intros Heq. trans (item <$> (iitii_base <$> v1)); [by rewrite <- list_fmap_compose|].
  rewrite Heq. by rewrite <- list_fmap_compose.
Qed.

Lemma base_insert_ome nds n nd x :
  nds !! n = Some nd →
  iitii_base <$> <[n := node_set_ome nd x]> nds = iitii_base <$> nds.
Proof.
  intros Hnd. rewrite list_fmap_insert. simpl. apply list_insert_id.
  by rewrite list_lookup_fmap, Hnd.
Qed.

(** One turn of the loop that fills [outside_max_end]. *)
Lemma fill_outside_node_spec rme n nds :
  sorted_nodes nds → vsize nds < 2 ^ 63 → 0 <= n < vsize nds →
  (∀ i, 0 <= i < vsize nds →
     ∃ x, rme !!r i = Some x ∧ max_ends (sub 0 i nds) = Some x) →
  (∀ nd, nds !!r n = Some nd → outside_max_end nd = pos_min) →
  ∃ nds' nd', fill_outside_node rme n nds = Some nds' ∧
    iitii_base <$> nds' = iitii_base <$> nds ∧
    (∀ m, 0 <= m → m ≠ n → nds' !!r m = nds !!r m) ∧
    nds' !!r n = Some nd' ∧ outside_max_end_of nds n (outside_max_end nd').
Proof.
  intros Hs Hsz Hn Hrme Hfresh. unfold fill_outside_node.
  destruct (at_rank_lt nds n) as [node Hnode]; [lia|]. rewrite Hnode. simpl.
  assert (n < 2 ^ 63 - 1) as Hns by lia.
  pose proof (level_lvl n ltac:(lia)) as Hk. set (k := level n) in *.
  pose proof (lvl_bound _ _ Hk) as Hb. pose proof (pow2_pos k (proj1 Hk)) as Hp.
  rewrite (leftmost_child_lvl n k) by done.
  destruct (Z.ltb_spec 0 (n - (2 ^ k - 1))) as [Hl|Hl].
  - rewrite sub64_small by lia.
    destruct (walk_back_spec nds (node_beg node) (n - (2 ^ k - 1) - 1))
      as (leq & nleq & -> & Hleq & Hnleq & Htie & Hstop); [lia|lia|].
    simpl. rewrite Hnleq. simpl.
    assert (∃ x, (if node_beg nleq <? node_beg node then rme !!r leq else Some pos_min)
                   = Some x ∧ outside_max_end_of nds n x) as (x & -> & Hx).
    { destruct (Z.ltb_spec (node_beg nleq) (node_beg node)) as [Hlt|Hge].
      - destruct (Hrme leq) as (x & Hx & Hmax); [lia|]. exists x. split; [done|].
        apply (outside_max_some nds n k node leq nleq); try done; [lia|].
        intros i ndi Hi. apply Htie. lia.
      - exists pos_min. split; [done|].
        pose proof (sorted_beg_le nds leq n nleq node Hs ltac:(lia) Hnleq Hnode).
        specialize (Hstop ltac:(lia)). subst leq.
        apply (outside_max_none nds n k node); try done.
        intros i ndi Hi Hndi. destruct (decide (i = 0)) as [->|]; [simplify_eq; lia|].
        apply (Htie i); [lia|done]. }
    simpl. eexists _, _. split; [done|].
    split; [apply base_insert_ome; by unfold at_rank in Hnode|].
    split; [intros m Hm Hne; unfold at_rank; apply list_lookup_insert_ne; lia|].
    split; [unfold at_rank; apply list_lookup_insert_eq;
            unfold at_rank in Hnode; by eapply lookup_lt_Some|].
    exact Hx.
  - exists nds, node. do 3 (split; [done|]). split; [done|].
    rewrite (Hfresh node Hnode).
    apply (outside_max_none nds n k node); try done. intros i ndi Hi. lia.
Qed.

(** The loop that fills [outside_max_end]. *)
Lemma fill_outside_spec rme nds :
  sorted_nodes nds → vsize nds < 2 ^ 63 → fresh_outside nds →
  (∀ i, 0 <= i < vsize nds →
     ∃ x, rme !!r i = Some x ∧ max_ends (sub 0 i nds) = Some x) →
  ∃ nds', fill_outside rme nds = Some nds' ∧
    iitii_base <$> nds' = iitii_base <$> nds ∧ outside_augmented nds'.
Proof.
  intros Hs Hsz Hfresh Hrme. unfold fill_outside.
  assert (0 <= vsize nds) as Hsz0 by (unfold vsize; lia).
  while_inv
    (λ '((n, nds') : Z * list (iitii_node Item)), 0 <= n <= vsize nds ∧
       iitii_base <$> nds' = iitii_base <$> nds ∧
       (∀ m nd', 0 <= m < n → nds' !!r m = Some nd' →
          outside_max_end_of nds m (outside_max_end nd')) ∧
       (∀ m nd', n <= m → nds' !!r m = Some nd' → outside_max_end nd' = pos_min))
    (λ '((n, _) : Z * list (iitii_node Item)), Z.to_nat (vsize nds - n)).
  - split; [lia|]. split; [done|]. split; [intros; lia|].
    intros m nd' _ Hnd'. apply Hfresh. by eapply list_elem_of_lookup_2.
  - unfold vsize. lia.
  - intros [n nds'] (Hn & Hbase & Hdone & Htodo). simpl.
    pose proof (base_items _ _ Hbase) as Hitems.
    pose proof (same_items_vsize _ _ Hitems) as Hlen. rewrite Hlen.
    eexists. split; [done|]. intros Hlt%Z.ltb_lt.
    destruct (fill_outside_node_spec rme n nds')
      as (nds'' & nd'' & -> & Hbase' & Hother & Hnd'' & Hout).
    { by apply (sorted_nodes_same_items nds nds'). }
    { lia. }
    { lia. }
    { intros i Hi. destruct (Hrme i) as (x & Hx & Hmax); [lia|]. exists x.
      split; [done|]. rewrite <- Hmax. apply max_ends_ext. by rewrite !fmap_sub, Hitems. }
    { intros nd Hnd. apply (Htodo n); [lia|done]. }
    simpl. eexists. split; [done|]. rewrite add64_small by lia.
    split; [|lia]. split; [lia|]. split; [by rewrite Hbase'|]. split.
    + intros m nd' Hm Hnd'. destruct (decide (m = n)) as [->|].
      * simplify_eq. by apply (outside_max_end_of_ext nds' nds).
      * rewrite Hother in Hnd' by lia. apply (Hdone m); [lia|done].
    + intros m nd' Hm Hnd'. rewrite Hother in Hnd' by lia. apply (Htodo m); [lia|done].
  - intros [n nds'] (Hn & Hbase & Hdone & Htodo) He. simpl in He.
    pose proof (base_items _ _ Hbase) as Hitems.
    pose proof (same_items_vsize _ _ Hitems) as Hlen. rewrite Hlen in He.
    injection He as Hge%Z.ltb_ge. simpl. exists nds'. do 2 (split; [done|]).
    intros m nd' Hm Hnd'. apply (outside_max_end_of_ext nds nds'); [done|].
    apply Hdone; [|done]. pose proof (at_rank_Some _ _ _ Hnd'). lia.
Qed.

End OutsideMax.

Section OutsideMin.
Context {Item : Type} `{Interval Item} `{PosType}.
Implicit Types (v nds : list (iitii_node Item)).

(** [outside_min_beg] returns the least [beg] outside the subtree among the
    nodes that do not begin before the subtree root. *)
Lemma outside_min_beg_spec nds n :
  sorted_nodes nds → vsize nds < 2 ^ 63 → 0 <= n < vsize nds →
  ∃ x, outside_min_beg nds n = Some x ∧ outside_min_beg_of nds n x.
Proof.
  intros Hs Hsz Hn. unfold outside_min_beg.
  destruct (at_rank_lt nds n) as [nd Hnd]; [lia|]. rewrite Hnd. simpl.
  assert (n < 2 ^ 63 - 1) as Hns by lia.
  pose proof (level_lvl n ltac:(lia)) as Hk. set (k := level n) in *.
  pose proof (lvl_bound _ _ Hk) as Hb. pose proof (pow2_pos k (proj1 Hk)) as Hp.
  pose proof (subtree_hi_small n k Hns Hk) as Hhi.
  rewrite (leftmost_child_lvl n k), (rightmost_child_lvl n k) by done.
  (* ranks outside the subtree *)
  assert (∀ i, in_subtree n i ↔ n - (2 ^ k - 1) <= i <= n + (2 ^ k - 1)) as Hrange
    by (intros i; by apply in_subtree_range).
  (* a node before the subtree that does not begin earlier ties with the
     left neighbour of the subtree *)
  assert (∀ i ndi, 0 <= i < n - (2 ^ k - 1) → nds !!r i = Some ndi →
            node_beg nd <= node_beg ndi →
            ∃ nl, nds !!r (n - (2 ^ k - 1) - 1) = Some nl ∧ node_beg nl = node_beg nd) as Hleft.
  { intros i ndi Hi Hndi Hge.
    destruct (at_rank_lt nds (n - (2 ^ k - 1) - 1)) as [nl Hnl]; [lia|].
    exists nl. split; [done|].
    pose proof (sorted_beg_le nds i (n - (2 ^ k - 1) - 1) ndi nl Hs ltac:(lia) Hndi Hnl).
    pose proof (sorted_beg_le nds (n - (2 ^ k - 1) - 1) n nl nd Hs ltac:(lia) Hnl Hnd).
    lia. }
  assert (∃ tie : bool,
    (if n - (2 ^ k - 1) =? 0 then Some false
     else nl ← nds !!r sub64 (n - (2 ^ k - 1)) 1; Some (node_beg nl =? node_beg nd))
      = Some tie ∧
    (tie = true ↔ ∃ nl, 0 < n - (2 ^ k - 1) ∧
                   nds !!r (n - (2 ^ k - 1) - 1) = Some nl ∧ node_beg nl = node_beg nd))
    as (tie & -> & Htie).
  { destruct (Z.eqb_spec (n - (2 ^ k - 1)) 0) as [Hz|Hnz].
    - exists false. split; [done|]. split; [done|]. intros (nl & ? & _). lia.
    - rewrite sub64_small by lia.
      destruct (at_rank_lt nds (n - (2 ^ k - 1) - 1)) as [nl Hnl]; [lia|].
      rewrite Hnl. simpl. eexists. split; [done|]. rewrite Z.eqb_eq. split.
      + intros Heq. exists nl. split; [lia|done].
      + intros (nl' & _ & ? & ?). by simplify_eq. }
  simpl. destruct tie.
  - (* a tie on the left *)
    destruct (proj1 Htie eq_refl) as (nl & Hl & Hnl & Hbeg).
    exists (node_beg nd). split; [done|].
    assert (outside_ge nds n (n - (2 ^ k - 1) - 1)) as Hout.
    { split; [rewrite Hrange; lia|]. exists nd, nl. do 2 (split; [done|]). lia. }
    split; [|intros Hno; exfalso; apply Hno; eexists; split; [|done]; lia].
    intros _. split.
    + exists (n - (2 ^ k - 1) - 1), nl. split; [lia|]. do 2 (split; [done|]). done.
    + intros m ndm Hm [_ (nd' & ndm' & Hnd' & Hndm' & Hge)] Hndm.
      assert (nd' = nd) as -> by congruence. assert (ndm' = ndm) as -> by congruence.
      done.
  - assert (∀ i ndi, 0 <= i → outside_ge nds n i → nds !!r i = Some ndi →
              n + (2 ^ k - 1) < i) as Hright.
    { intros i ndi Hi [Hout (nd' & ndi' & Hnd' & Hndi' & Hge)] Hndi.
      assert (nd' = nd) as -> by congruence. assert (ndi' = ndi) as -> by congruence.
      rewrite Hrange in Hout. destruct (decide (n + (2 ^ k - 1) < i)); [done|].
      destruct (Hleft i ndi ltac:(lia) Hndi Hge) as (nl & Hnl & Hbeg).
      assert (false = true); [|done]. apply Htie. exists nl. split; [lia|done]. }
    assert (0 < vsize nds) as Hpos by lia. rewrite (sub64_small (vsize nds) 1) by lia.
    destruct (Z.ltb_spec (n + (2 ^ k - 1)) (vsize nds - 1)) as [Hin|Hlast].
    + rewrite add64_small by lia.
      destruct (at_rank_lt nds (n + (2 ^ k - 1) + 1)) as [nr Hnr]; [lia|].
      rewrite Hnr. simpl. exists (node_beg nr). split; [done|].
      assert (outside_ge nds n (n + (2 ^ k - 1) + 1)) as Hout.
      { split; [rewrite Hrange; lia|]. exists nd, nr. do 2 (split; [done|]).
        apply (sorted_beg_le nds n (n + (2 ^ k - 1) + 1)); [done|lia|done..]. }
      split; [|intros Hno; exfalso; apply Hno; eexists; split; [|done]; lia].
      intros _. split.
      * exists (n + (2 ^ k - 1) + 1), nr. split; [lia|]. do 2 (split; [done|]). done.
      * intros m ndm Hm Hmout Hndm. pose proof (Hright m ndm Hm Hmout Hndm).
        apply (sorted_beg_le nds (n + (2 ^ k - 1) + 1) m); [done|lia|done..].
    + exists pos_max. split; [done|]. split; [|done].
      intros (i & Hi & Hiout). exfalso.
      assert (∃ ndi, nds !!r i = Some ndi) as [ndi Hndi]
        by (destruct Hiout as [_ (? & ndi & _ & ? & _)]; by exists ndi).
      pose proof (Hright i ndi Hi Hiout Hndi). pose proof (at_rank_Some _ _ _ Hndi). lia.
Qed.

End OutsideMin.

(** ** The model of [iitii] and its constructor *)

Lemma bind_Some {A B} (f : A → option B) (x : A) : Some x ≫= f = f x.
Proof. done. Qed.

Lemma vset_spec {A} (v : list A) i x :
  0 <= i < vsize v → ∃ v', vset v i x = Some v' ∧ vsize v' = vsize v.
Proof.
  intros Hi. unfold vset. destruct (Z.ltb_spec i (vsize v)); [|lia].
  eexists. split; [done|]. unfold vsize. by rewrite length_insert.
Qed.

Section IitiiCtor.
Context {Item : Type} `{Interval Item} `{PosType} `{FloatOps}.
Implicit Types (t : iitii Item) (nds : list (iitii_node Item)).

Local Arguments which_domain : simpl never.
Local Arguments regress : simpl never.
Local Arguments mean_absolute_residual : simpl never.

Lemma which_domain_range d ds mb beg :
  1 <= d < 2 ^ 32 → 0 <= which_domain d ds mb beg <= d - 1.
Proof.
  intros Hd. unfold which_domain. destruct (beg <? mb); [lia|].
  rewrite (wrap_small 32 (d - 1)) by lia.
  pose proof (wrap_range 32 (pos_domain_quot beg mb ds) ltac:(lia)). lia.
Qed.

Lemma train_points_spec t :
  vsize (nodes (base t)) < 2 ^ 63 → 1 <= domains t < 2 ^ 32 →
  ∃ points, train_points t 0 = Some points ∧ vsize points = domains t.
Proof.
  intros Hsz Hd. unfold train_points.
  rewrite (add64_small 0 1), !shl64_one, sub64_small by (simpl; lia).
  change (2 ^ 0 - 1) with 0. change (2 ^ (0 + 1)) with 2.
  while_inv
    (λ '((r, ofs, points) : Z * Z * list (list (Z * Z))),
       0 <= r ∧ vsize points = domains t)
    (λ '((r, _, _) : Z * Z * list (list (Z * Z))),
       Z.to_nat (vsize (nodes (base t)) - r)).
  - split; [lia|]. unfold vsize. rewrite length_replicate. lia.
  - unfold vsize. lia.
  - intros [[r ofs] points] [Hr Hlen]. eexists. split; [done|].
    intros Hlt%Z.ltb_lt.
    destruct (at_rank_lt (nodes (base t)) r) as [nd Hnd]; [lia|]. rewrite Hnd. simpl.
    pose proof (which_domain_range (domains t) (domain_size t) (min_beg t)
                  (node_beg nd) Hd) as Hw.
    destruct (at_rank_lt points
                (which_domain (domains t) (domain_size t) (min_beg t) (node_beg nd)))
      as [pts Hpts]; [lia|]. rewrite Hpts. simpl.
    eexists. split; [done|]. rewrite add64_small by lia.
    split; [|lia]. split; [lia|]. unfold vsize in *. by rewrite length_insert.
  - intros [[r ofs] points] [Hr Hlen] _. simpl. by exists points.
Qed.

Lemma train_models_spec t points :
  vsize points = domains t → 1 <= domains t → 3 * domains t < 2 ^ 32 →
  vsize (parameters t) = 3 * domains t →
  ∃ params, train_models t 0 points = Some params ∧
            vsize params = 3 * domains t.
Proof.
  intros Hpts Hd Hd3 Hlen. unfold train_models.
  while_inv
    (λ '((which, params) : Z * list flt),
       0 <= which <= domains t ∧ vsize params = 3 * domains t)
    (λ '((which, _) : Z * list flt), Z.to_nat (domains t - which)).
  - split; [lia|done].
  - lia.
  - intros [which params] [Hw Hp]. eexists. split; [done|].
    intros Hlt%Z.ltb_lt.
    destruct (at_rank_lt points which) as [pts Hp']; [lia|]. rewrite Hp'. simpl.
    rewrite !(wrap_small 32) by lia.
    assert (∃ params',
      (if d_isfinite (regress pts).1 && d_isfinite (regress pts).2 &&
          d_leb (mean_absolute_residual pts (regress pts).1 (regress pts).2)
                (d_of_Z (1 ≪ (root_level (base t) / 2)))
       then
         params0 ← vset params (3 * which) (f_of_d (regress pts).1);
         params1 ← vset params0 (3 * which + 1) (f_of_d (regress pts).2);
         vset params1 (3 * which + 2) (f_of_Z 0)
       else Some params) = Some params' ∧ vsize params' = 3 * domains t)
      as (params' & -> & Hp'').
    { destruct (_ && _ && _); [|by exists params].
      destruct (vset_spec params (3 * which) (f_of_d (regress pts).1))
        as (p0 & -> & Hp0); [lia|]. simpl.
      destruct (vset_spec p0 (3 * which + 1) (f_of_d (regress pts).2))
        as (p1 & -> & Hp1); [lia|]. simpl.
      destruct (vset_spec p1 (3 * which + 2) (f_of_Z 0))
        as (p2 & -> & Hp2); [lia|]. exists p2. split; [done|]. lia. }
    simpl. eexists. split; [done|]. split; [lia|lia].
  - intros [which params] [Hw Hp] _. simpl. by exists params.
Qed.

Lemma ime_updated_ome (a b : iitii_node Item) :
  ime_updated a b → outside_max_end b = outside_max_end a.
Proof. induction 1; [done|]. done. Qed.

Lemma ime_updated_fresh_outside (v1 v2 : list (iitii_node Item)) :
  Forall2 ime_updated v1 v2 → fresh_outside v1 → fresh_outside v2.
Proof.
  intros Hupd Hf nd Hnd. apply list_elem_of_lookup in Hnd as [i Hi].
  destruct (Forall2_lookup_r _ _ _ _ _ Hupd Hi) as (nd0 & Hnd0 & Hu).
  rewrite (ime_updated_ome _ _ Hu). apply Hf. by eapply list_elem_of_lookup_2.
Qed.

(** The constructor of [iitii] up to the training: the index [t1] that it
    has made when it calls [train], or returns when there is no node. *)
Lemma iitii_ctor_pre nodes_ domains_ :
  vsize nodes_ < 2 ^ 63 → fresh nodes_ → fresh_outside nodes_ →
  ∃ t1, iitii_ok t1 ∧
    node_item <$> nodes (base t1) ≡ₚ node_item <$> nodes_ ∧
    domains t1 = Z.max 1 domains_ ∧
    parameters t1 = replicate (Z.to_nat (wrap 32 (Z.max 1 domains_ * 3))) f_nan ∧
    queries t1 = 0 ∧ total_climb_cost t1 = 0 ∧
    iitii_ctor nodes_ domains_ =
      if vsize nodes_ =? 0 then Some t1
      else params ← train t1 0; Some (with_parameters t1 params).
Proof.
  intros Hsz Hfresh Hfo. unfold iitii_ctor.
  destruct (iit_base_ctor_spec nodes_ Hsz Hfresh)
    as (super & -> & Hgeo & Hupd & Haug & Hsorted).
  rewrite bind_Some. cbv zeta.
  pose proof (ime_updated_vsize _ _ Hupd) as Hlen.
  rewrite std_sort_length in Hlen. rewrite Hlen.
  assert (node_item <$> nodes super ≡ₚ node_item <$> nodes_) as Hperm.
  { rewrite (ime_updated_items _ _ Hupd). by rewrite std_sort_perm. }
  assert (fresh_outside (nodes super)) as Hfo'.
  { apply (ime_updated_fresh_outside _ _ Hupd). intros nd Hnd. apply Hfo.
    by rewrite <- (std_sort_perm nodes_). }
  destruct (Z.eqb_spec (vsize nodes_) 0) as [Hz|Hnz].
  - eexists. split; [|split; [|split; [|split; [|split; [|split; [|done]]]]]];
      try done.
    unfold iitii_ok. cbn [base parameters].
    split; [lia|]. do 3 (split; [done|]).
    split; [intros n nd _ Hnd; apply at_rank_Some in Hnd; lia|].
    intros _. apply Forall_replicate. apply f_isfinite_nan.
  - assert (0 < vsize (nodes super)) as Hpos by (unfold vsize in *; lia).
    destruct (at_rank_lt (nodes super) 0) as [n0 Hn0]; [lia|].
    rewrite Hn0, bind_Some.
    destruct (last (nodes super)) as [nback|] eqn:Hback.
    2:{ apply last_None in Hback. rewrite Hback in Hpos. unfold vsize in Hpos.
        simpl in Hpos. lia. }
    rewrite bind_Some.
    destruct (running_max_end_spec (nodes super)) as (rme & -> & Hrme); [lia|].
    rewrite bind_Some.
    destruct (fill_outside_spec rme (nodes super))
      as (nds & -> & Hbase & Hout); [done|lia|done|done|].
    rewrite bind_Some. cbv zeta.
    pose proof (base_items _ _ Hbase) as Hitems.
    pose proof (same_items_vsize _ _ Hitems) as Hlen'.
    match goal with |- context [train ?t 0] => exists t end.
    split; [|split; [|split; [|split; [|split; [|split; [|done]]]]]];
      try done; cbn [base nodes].
    + unfold iitii_ok. cbn [base nodes parameters].
      split; [lia|]. split.
      { unfold geometry_of in *. cbn [nodes root root_level full_size].
        by rewrite Hlen'. }
      split; [by apply (augmented_same_base (nodes super) nds)|].
      split; [by apply (sorted_nodes_same_items (nodes super) nds)|].
      split; [done|]. lia.
    + by rewrite Hitems.
Qed.

(** What the constructor of [iitii] returns is in the state [iitii_ok], holds
    the items given and has both counters at zero. *)
Lemma iitii_ctor_sound nodes_ domains_ t :
  vsize nodes_ < 2 ^ 63 → fresh nodes_ → fresh_outside nodes_ →
  iitii_ctor nodes_ domains_ = Some t →
  iitii_ok t ∧ node_item <$> nodes (base t) ≡ₚ node_item <$> nodes_ ∧
  queries t = 0 ∧ total_climb_cost t = 0.
Proof.
  intros Hsz Hfresh Hfo Ht.
  destruct (iitii_ctor_pre nodes_ domains_ Hsz Hfresh Hfo)
    as (t1 & Hok & Hperm & Hd & Hp & Hq & Hc & Heq).
  rewrite Heq in Ht. destruct (Z.eqb_spec (vsize nodes_) 0) as [Hz|Hnz].
  - by simplify_eq.
  - destruct (train t1 0) as [params|]; [|done]. rewrite bind_Some in Ht.
    injection Ht as <-. split; [|done].
    destruct Hok as (? & ? & ? & ? & ? & _). unfold iitii_ok.
    cbn [with_parameters base]. do 5 (split; [done|]).
    intros Hz. exfalso. apply Hnz. pose proof (Permutation_length Hperm) as Hl.
    rewrite !length_fmap in Hl. unfold vsize in *. lia.
Qed.

(** The constructor of [iitii] returns when [domains*3] does not wrap around. *)
Lemma iitii_ctor_total nodes_ domains_ :
  vsize nodes_ < 2 ^ 63 → fresh nodes_ → fresh_outside nodes_ →
  0 <= domains_ → 3 * Z.max 1 domains_ < 2 ^ 32 →
  ∃ t, iitii_ctor nodes_ domains_ = Some t ∧ params_ok t.
Proof.
  intros Hsz Hfresh Hfo Hd0 Hd3.
  destruct (iitii_ctor_pre nodes_ domains_ Hsz Hfresh Hfo)
    as (t1 & Hok & Hperm & Hd & Hp & Hq & Hc & ->).
  assert (params_ok t1) as (Hd1 & Hd3' & Hlen).
  { unfold params_ok. rewrite Hd, Hp. split; [lia|]. split; [lia|].
    unfold vsize. rewrite length_replicate, (wrap_small 32) by lia. lia. }
  destruct (Z.eqb_spec (vsize nodes_) 0) as [Hz|Hnz].
  - exists t1. split; [done|]. done.
  - unfold train.
    destruct (train_points_spec t1) as (points & -> & Hpts);
      [by destruct Hok|lia|].
    rewrite bind_Some.
    destruct (train_models_spec t1 points) as (params & -> & Hparams); [done..|].
    rewrite bind_Some. eexists. split; [done|]. done.
Qed.

End IitiiCtor.

(** ** The query of [iitii] *)

Section IitiiQuery.
Context {Item : Type} `{Interval Item} `{PosType} `{FloatOps}.
Implicit Types (t : iitii Item) (nds : list (iitii_node Item)).

Local Arguments which_domain : simpl never.
Local Arguments outside_min_beg : simpl never.

(** [predict_leaf] returns when the parameter vector has its three entries
    for each domain. *)
Lemma predict_leaf_total t qbeg :
  params_ok t → ∃ p, predict_leaf t qbeg = Some p.
Proof.
  intros (Hd & Hd3 & Hlen). unfold predict_leaf.
  pose proof (which_domain_range (domains t) (domain_size t) (min_beg t) qbeg
                ltac:(lia)) as Hw.
  set (which := which_domain _ _ _ _) in *.
  rewrite !(wrap_small 32 (3 * which + _)), (wrap_small 32 (3 * which)) by lia.
  destruct (at_rank_lt (parameters t) (3 * which + 2)) as [lv_f ->]; [lia|].
  destruct (at_rank_lt (parameters t) (3 * which)) as [p0 ->]; [lia|].
  destruct (at_rank_lt (parameters t) (3 * which + 1)) as [p1 ->]; [lia|].
  rewrite bind_Some. destruct (negb (f_isfinite lv_f)); [by eexists|].
  rewrite !bind_Some. by eexists.
Qed.

(** What [predict_leaf] returns is [nrank] or the rank of a real node; it is
    [nrank] exactly when the level parameter of the domain is not finite. *)
Lemma predict_leaf_spec t qbeg p :
  iitii_ok t → predict_leaf t qbeg = Some p →
  ∃ lv_f,
    parameters t !!r
      wrap 32 (3 * which_domain (domains t) (domain_size t) (min_beg t) qbeg + 2)
      = Some lv_f ∧
    (f_isfinite lv_f = false → p = nrank) ∧
    (f_isfinite lv_f = true → 0 <= p < vsize (nodes (base t)) ∧ p ≠ nrank).
Proof.
  intros (Hsz & Hgeo & Haug & Hsorted & Hout & Hnan) Hp.
  unfold predict_leaf in Hp.
  set (which := which_domain _ _ _ _) in *.
  destruct (parameters t !!r wrap 32 (3 * which + 2)) as [lv_f|] eqn:Hlv; [|done].
  rewrite bind_Some in Hp. exists lv_f. split; [done|].
  destruct (f_isfinite lv_f) eqn:Hfin; cbn [negb] in Hp.
  - split; [done|]. intros _.
    destruct (parameters t !!r wrap 32 (3 * which)) as [p0|]; [|done].
    rewrite bind_Some in Hp.
    destruct (parameters t !!r wrap 32 (3 * which + 1)) as [p1|]; [|done].
    rewrite bind_Some in Hp. cbv zeta in Hp. injection Hp as <-.
    assert (0 <= vsize (nodes (base t))) as Hsz0 by (unfold vsize; lia).
    destruct (decide (vsize (nodes (base t)) = 0)) as [Hz|Hnz].
    { specialize (Hnan Hz). rewrite Forall_forall in Hnan.
      rewrite Hnan in Hfin; [done|]. by eapply list_elem_of_lookup_2. }
    match goal with |- context [if ?x <? _ then _ else _] => set (r := x) end.
    unfold nrank.
    destruct (Z.ltb_spec r (vsize (nodes (base t)))) as [Hlt|Hge].
    + pose proof (wrap_range 64 (mul64 (shl64 1 (wrap 64 (f_to_Z lv_f)))
        (add64 (mul64 2 (wrap 64 (f_to_Z (f_max f_zero (f_round
           (f_add p0 (f_mul p1 (f_of_Z qbeg)))))))) 1) - 1) ltac:(lia)) as Hr.
      fold (sub64 (mul64 (shl64 1 (wrap 64 (f_to_Z lv_f)))
        (add64 (mul64 2 (wrap 64 (f_to_Z (f_max f_zero (f_round
           (f_add p0 (f_mul p1 (f_of_Z qbeg)))))))) 1)) 1) in Hr.
      fold r in Hr. lia.
    + destruct (rightmost_leaf_spec (vsize (nodes (base t)))) as [Hl0 Hl0n]; [lia|].
      pose proof (lvl_nonneg _ _ Hl0). unfold rightmost_leaf in *. lia.
  - injection Hp as <-. split; [done|]. done.
Qed.

(** The guard of the climb is defined at every rank of the tree. *)
Lemma climb_guard_spec t qbeg qend s :
  iitii_ok t → 0 <= s →
  ∃ c, climb_guard t qbeg qend s = Some c ∧
    (c = true → s ≠ root (base t)) ∧
    (c = false → s = root (base t) ∨
       ∃ nd x, nodes (base t) !!r s = Some nd ∧ outside_max_end nd <= qbeg ∧
               outside_min_beg (nodes (base t)) s = Some x ∧ qend <= x).
Proof.
  intros (Hsz & Hgeo & Haug & Hsorted & Hout & _) Hs. unfold climb_guard.
  destruct (Z.eqb_spec s (root (base t))) as [->|Hne].
  { eexists. split; [done|]. split; [done|]. by left. }
  destruct (Z.leb_spec (vsize (nodes (base t))) s) as [Himag|Hreal].
  { eexists. split; [done|]. split; [done|]. done. }
  destruct (at_rank_lt (nodes (base t)) s) as [nd Hnd]; [lia|]. rewrite Hnd. simpl.
  destruct (Z.ltb_spec qbeg (outside_max_end nd)).
  { eexists. split; [done|]. split; [done|]. done. }
  destruct (outside_min_beg_spec (nodes (base t)) s) as (x & Hx & _); [done|lia|lia|].
  rewrite Hx. simpl. eexists. split; [done|]. split; [done|].
  intros Hc%Z.ltb_ge. right. exists nd, x. done.
Qed.

(** The climb stops, after as many steps as it reports, at a rank of the
    tree. *)
Lemma climb_spec t qbeg qend p :
  iitii_ok t → 0 <= p < vsize (nodes (base t)) →
  ∃ s k ks, climb t qbeg qend p = Some (s, Z.of_nat k) ∧
    climb_steps t qbeg qend p k s ∧ (Z.of_nat k <= 62) ∧
    lvl s ks ∧ s < 2 ^ (root_level (base t) + 1) - 1 ∧
    climb_guard t qbeg qend s = Some false.
Proof.
  intros Hok' Hp.
  pose proof Hok' as (Hsz & Hgeo & _).
  destruct Hgeo as (Hrl & Hroot & Hfs & Hzero & Hpos).
  destruct Hpos as [Hrl1 Hfull]; [lia|]. rewrite Hfull in Hfs.
  set (h := root_level (base t)) in *.
  unfold climb.
  while_inv
    (λ '((s, c) : Z * Z), ∃ ks (k : nat), lvl s ks ∧ s < 2 ^ (h + 1) - 1 ∧
       c = Z.of_nat k ∧ Z.of_nat k <= ks ∧
       ∀ k' s', climb_steps t qbeg qend s k' s' →
                climb_steps t qbeg qend p (k + k') s')
    (λ '((s, c) : Z * Z), Z.to_nat (h - level s)).
  - exists (level p), 0%nat. pose proof (level_lvl p ltac:(lia)) as Hlp.
    split; [done|]. split; [lia|]. split; [done|].
    split; [destruct Hlp; lia|]. done.
  - pose proof (level_lvl p ltac:(lia)) as [? _]. lia.
  - intros [s c] (ks & k & Hks & Hs & -> & Hk & Hsteps).
    pose proof (lvl_nonneg _ _ Hks) as Hs0.
    pose proof (pow2_le (h + 1) 63 ltac:(lia)) as Hp63.
    destruct (climb_guard_spec t qbeg qend s Hok' Hs0) as (g & Hg & Htrue & _).
    exists g. split; [done|]. intros ->. specialize (Htrue eq_refl).
    eexists. split; [done|].
    pose proof (lvl_le_root s ks h Hks ltac:(lia) Hs) as Hle.
    assert (ks < h) as Hlt.
    { destruct (decide (ks = h)) as [->|]; [|lia].
      apply lvl_root_unique in Hks; [|done]. congruence. }
    destruct (parent_lvl (root (base t)) s ks) as [Hpl Hchild]; [lia|done|done|].
    pose proof (pow2_pos ks ltac:(lia)) as Hpk.
    assert (parent (root (base t)) s < 2 ^ (h + 1) - 1) as Hin.
    { apply (lvl_in_tree _ (ks + 1)); [done|lia|]. rewrite pow2_succ by lia. lia. }
    rewrite (lvl_level s ks) by (done || lia).
    rewrite (lvl_level _ (ks + 1)) by (done || pose proof (lvl_nonneg _ _ Hpl); lia).
    split; [|lia]. exists (ks + 1), (S k). split; [done|]. split; [done|].
    rewrite add64_small by lia. split; [lia|]. split; [lia|].
    intros k' s' Hclimb. replace (S k + k')%nat with (k + S k')%nat by lia.
    apply Hsteps. by econstructor.
  - intros [s c] (ks & k & Hks & Hs & -> & Hk & Hsteps) He.
    exists s, k, ks. split; [done|].
    split; [rewrite <- (Nat.add_0_r k); apply Hsteps; by constructor|].
    pose proof (lvl_le_root s ks h Hks ltac:(lia) Hs). split; [lia|]. done.
Qed.

End IitiiQuery.

Section IitiiOverlap.
Context {Item : Type} `{Interval Item} `{PosType} `{FloatOps}.
Implicit Types (t : iitii Item) (nds : list (iitii_node Item)).

Local Arguments outside_min_beg : simpl never.
Local Arguments scan : simpl never.
Local Arguments climb : simpl never.
Local Arguments iit_base_overlap : simpl never.
Local Arguments predict_leaf : simpl never.

(** Where the climb stops, no node outside the subtree overlaps the query. *)
Lemma climb_stop_sound t qbeg qend s ks :
  iitii_ok t → lvl s ks → s < 2 ^ (root_level (base t) + 1) - 1 →
  climb_guard t qbeg qend s = Some false →
  overlapping qbeg qend (sub (s - (2 ^ ks - 1)) (s + (2 ^ ks - 1)) (nodes (base t)))
    = overlapping qbeg qend (nodes (base t)).
Proof.
  intros Hok Hks Hs Hguard.
  pose proof Hok as (Hsz & Hgeo & Haug & Hsorted & Hout & _).
  destruct Hgeo as (Hrl & Hroot & Hfs & Hzero & Hpos).
  set (h := root_level (base t)) in *. set (nds := nodes (base t)) in *.
  pose proof (lvl_nonneg _ _ Hks) as Hs0.
  pose proof (pow2_pos ks (proj1 Hks)) as Hpk.
  pose proof (lvl_bound _ _ Hks) as Hb.
  pose proof (pow2_le (h + 1) 63 ltac:(lia)) as Hp63.
  assert (0 <= vsize nds) as Hsz0 by (unfold vsize; lia).
  destruct (climb_guard_spec t qbeg qend s Hok Hs0) as (g & Hg & _ & Hfalse).
  rewrite Hguard in Hg. injection Hg as <-.
  destruct (Hfalse eq_refl) as [Hr|(nd & x & Hnd & Home & Homb & Hx)].
  - (* the root *)
    fold h in Hr. rewrite Hroot in Hr.
    pose proof (lvl_unique _ _ _ Hks (eq_ind_r (λ s, lvl s h) (lvl_root h ltac:(lia)) Hr)).
    subst ks s. f_equal.
    replace (2 ^ h - 1 - (2 ^ h - 1)) with 0 by lia. apply sub_all.
    destruct (decide (vsize nds = 0)); [lia|].
    destruct Hpos as [_ Hfull]; [lia|]. rewrite pow2_succ in Hfull by lia. lia.
  - (* a real node whose outside augments exclude the rest *)
    fold nds in Hnd, Homb.
    pose proof (at_rank_Some _ _ _ Hnd) as Hreal.
    destruct (outside_min_beg_spec nds s Hsorted Hsz ltac:(lia)) as (x' & Hx' & Hmin).
    rewrite Homb in Hx'. injection Hx' as <-.
    assert (∀ i ndi, 0 <= i → ¬ (s - (2 ^ ks - 1) <= i <= s + (2 ^ ks - 1)) →
              nds !!r i = Some ndi → ¬ overlaps qbeg qend (node_item ndi)) as Houtside.
    { intros i ndi Hi Hnot Hndi [Hend Hbeg].
      assert (¬ in_subtree s i) as Hnin by (rewrite (in_subtree_range s ks); [done..|lia]).
      destruct (decide (node_beg ndi < node_beg nd)) as [Hlt|Hge].
      - assert (outside_lt nds s i) as Hol by (split; [done|]; by exists nd, ndi).
        destruct (Hout s nd Hs0 Hnd) as [Hsome _].
        destruct Hsome as [_ Hub]; [by exists i|].
        pose proof (Hub i ndi Hi Hol Hndi). unfold node_end in *. lia.
      - assert (outside_ge nds s i) as Hog
          by (split; [done|]; exists nd, ndi; do 2 (split; [done|]); lia).
        destruct Hmin as [Hsome _].
        destruct Hsome as [_ Hlb]; [by exists i|].
        pose proof (Hlb i ndi Hi Hog Hndi). unfold node_beg in *. lia. }
    set (top := Z.max (s + (2 ^ ks - 1)) (vsize nds - 1)).
    rewrite <- (sub_all top nds) at 2 by lia.
    rewrite (sub_split 0 (s - (2 ^ ks - 1)) top) by lia.
    rewrite (sub_split (s - (2 ^ ks - 1)) (s + (2 ^ ks - 1) + 1) top) by lia.
    replace (s + (2 ^ ks - 1) + 1 - 1) with (s + (2 ^ ks - 1)) by lia.
    rewrite !overlapping_app.
    rewrite (overlapping_none _ _ (sub 0 _ _)), (overlapping_none _ _ (sub (_ + 1) _ _)).
    + by rewrite app_nil_r.
    + intros m (i & Hi & Hm)%elem_of_sub; [|lia]. apply (Houtside i); [lia|lia|done].
    + intros m (i & Hi & Hm)%elem_of_sub; [|lia]. apply (Houtside i); [lia|lia|done].
Qed.

(** The query of [iitii]: what it returns and what it does to the index, in
    both of its paths. *)
Lemma iitii_overlap_spec t qbeg qend ans0 p :
  iitii_ok t → predict_leaf t qbeg = Some p →
  (p = nrank →
     ∃ c, iit_base_overlap (base t) qbeg qend ans0
            = Some (c, overlapping qbeg qend (nodes (base t))) ∧
          iitii_overlap t qbeg qend ans0
            = Some (c, overlapping qbeg qend (nodes (base t)), t)) ∧
  (p ≠ nrank →
     ∃ s k c, climb_steps t qbeg qend p k s ∧
       scan 64 (nodes (base t)) s qbeg qend []
         = Some (c, overlapping qbeg qend (nodes (base t))) ∧
       iitii_overlap t qbeg qend ans0
         = Some (add64 c (Z.of_nat k), overlapping qbeg qend (nodes (base t)),
                 with_counters t (add64 (queries t) 1)
                   (add64 (total_climb_cost t) (Z.of_nat k)))).
Proof.
  intros Hok Hp. pose proof Hok as (Hsz & Hgeo & Haug & Hsorted & Hout & _).
  destruct (predict_leaf_spec t qbeg p Hok Hp) as (lv_f & Hlv & Hnan & Hfin).
  unfold iitii_overlap. rewrite Hp, bind_Some. split.
  - intros ->. rewrite Z.eqb_refl.
    destruct (iit_base_overlap_spec (base t) qbeg qend ans0 Hgeo Hsorted
                (augmented_ime_bound _ Haug)) as [c Hc].
    exists c. split; [done|]. by rewrite Hc, bind_Some.
  - intros Hne. destruct (Z.eqb_spec p nrank); [done|].
    assert (0 <= p < vsize (nodes (base t))) as Hreal.
    { destruct (f_isfinite lv_f); [by apply Hfin|]. by specialize (Hnan eq_refl). }
    destruct (climb_spec t qbeg qend p Hok Hreal)
      as (s & k & ks & Hclimb & Hsteps & Hk & Hks & Hs & Hg).
    destruct Hgeo as (Hrl & _).
    pose proof (pow2_le (root_level (base t) + 1) 63 ltac:(lia)) as Hp63.
    pose proof (lvl_le_root s ks (root_level (base t)) Hks ltac:(lia) Hs) as Hle.
    destruct (scan_spec (nodes (base t)) qbeg qend Hsorted (augmented_ime_bound _ Haug)
                64 ks s []) as [c Hc]; [done|lia|destruct Hks; lia|].
    rewrite (climb_stop_sound t qbeg qend s ks Hok Hks Hs Hg), app_nil_l in Hc.
    exists s, k, c. split; [done|]. split; [done|].
    rewrite Hclimb, bind_Some. cbv beta iota zeta. by rewrite Hc, bind_Some.
Qed.

End IitiiOverlap.

(** * The properties of the specification *)

Lemma filter_none {A} (P : A → Prop) `{∀ x, Decision (P x)} (l : list A) :
  (∀ x, x ∈ l → ¬ P x) → filter P l = [].
Proof.
  induction l as [|x l IH]; intros Hl; [done|].
  rewrite filter_cons_False by (apply Hl; left). apply IH. intros y Hy. apply Hl. by right.
Qed.

Section IitTheorems.
Context {Item : Type} `{Interval Item}.
Implicit Types (items : list Item).

(** The query of [iit] returns a rearrangement of the overlapping items. *)
Lemma iit_overlap_filter items (qbeg qend : Z) (ans0 : list Item) :
  vsize items < 2 ^ 63 →
  ∃ t cost ans,
    iit_build (builder_of_range items) = Some t ∧
    iit_base_overlap t qbeg qend ans0 = Some (cost, ans) ∧
    ans ≡ₚ filter (overlaps qbeg qend) items.
Proof.
  intros Hsz. unfold iit_build.
  destruct (build_spec (Node := iit_node_base Item) items Hsz)
    as (t & Ht & Hgeo & Haug & Hsorted & Hperm & _).
  destruct (iit_base_overlap_spec t qbeg qend ans0 Hgeo Hsorted
              (augmented_ime_bound _ Haug)) as [c Hc].
  exists t, c, (overlapping qbeg qend (nodes t)). do 2 (split; [done|]).
  unfold overlapping. by rewrite Hperm.
Qed.

(** C1. For the index built from any item set, [overlap(qbeg, qend)] returns
    exactly the stored items [x] with [end(x) > qbeg] and [beg(x) < qend]:
    the result is a rearrangement of the input items filtered by that
    condition, so every occurrence of such an item is returned and nothing
    else is. The size bound is that of a vector. *)
Theorem iit_overlap_exact items (qbeg qend : Z) (ans0 : list Item) :
  vsize items < 2 ^ 63 →
  ∃ t cost ans,
    iit_build (builder_of_range items) = Some t ∧
    iit_base_overlap t qbeg qend ans0 = Some (cost, ans) ∧
    ans ≡ₚ filter (λ x, qbeg < get_end x ∧ get_beg x < qend) items ∧
    (∀ x, x ∈ items → get_end x > qbeg → get_beg x < qend → x ∈ ans) ∧
    (∀ x, x ∈ ans → x ∈ items ∧ get_end x > qbeg ∧ get_beg x < qend).
Proof.
  intros Hsz.
  destruct (iit_overlap_filter items qbeg qend ans0 Hsz)
    as (t & cost & ans & Ht & Hq & Hperm).
  exists t, cost, ans. do 2 (split; [done|]). split; [exact Hperm|]. split.
  - intros x Hx He Hb. rewrite Hperm. apply list_elem_of_filter.
    split; [|done]. unfold overlaps. lia.
  - intros x Hx. rewrite Hperm in Hx. apply list_elem_of_filter in Hx as [[He Hb] Hx].
    split; [done|]. lia.
Qed.

(** C7. The query of the index built from no items returns no item, at cost
    1 and not 0: the root has rank 0 while the tree has [full_size] 0, so the
    scan visits a rank that [assert(subtree < full_size)] excludes and counts
    it as an imaginary node. *)
Theorem empty_index_query_cost (qbeg qend : Z) (ans0 : list Item) :
  ∃ t, iit_build (builder_of_range ([] : list Item)) = Some t ∧
       nodes t = [] ∧ full_size t = 0 ∧ root t = 0 ∧
       iit_base_overlap t qbeg qend ans0 = Some (1, []).
Proof. eexists. split; [reflexivity|]. by repeat split. Qed.

(** C8, as amended. For a query with [qbeg >= qend] the index returns the
    stored items [x] with [beg(x) < qend] and [end(x) > qbeg], those that
    reach on both sides beyond the inverted range; the result is empty
    exactly when no stored item does. *)
Theorem degenerate_query_result items (qbeg qend : Z) (ans0 : list Item) :
  vsize items < 2 ^ 63 → qend <= qbeg →
  ∃ t cost ans,
    iit_build (builder_of_range items) = Some t ∧
    iit_base_overlap t qbeg qend ans0 = Some (cost, ans) ∧
    ans ≡ₚ filter (overlaps qbeg qend) items ∧
    (ans = [] ↔ ∀ x, x ∈ items → ¬ (get_beg x < qend ∧ qbeg < get_end x)).
Proof.
  intros Hsz Hq.
  destruct (iit_overlap_filter items qbeg qend ans0 Hsz) as (t & c & ans & Ht & Hc & Hperm).
  exists t, c, ans. do 3 (split; [done|]). split.
  - intros -> x Hx [Hb He]. symmetry in Hperm. apply Permutation_nil_r in Hperm.
    assert (overlaps qbeg qend x) as Hov by (by split).
    by pose proof (filter_nil_not_elem_of _ _ x Hperm Hov).
  - intros Hnone. apply Permutation_nil_r. rewrite Hperm.
    rewrite filter_none; [done|]. intros x Hx [He Hb]. by apply (Hnone x).
Qed.

End IitTheorems.

(** ** Insertion order *)

#[local] Instance key_le_antisymm : AntiSymm eq key_le.
Proof. intros [a1 a2] [b1 b2]. unfold key_le. simpl. intros ??. f_equal; lia. Qed.

Section Order.
Context {Item : Type} `{NodeType Item Node}.
Implicit Types (v : list Node) (items : list Item).

Lemma sorted_item_keys v :
  StronglySorted key_le (item_key <$> (node_item <$> std_sort v)).
Proof.
  rewrite <- list_fmap_compose.
  apply (StronglySorted_fmap _ node_le); [|apply std_sort_sorted].
  intros x y Hxy. apply node_le_spec in Hxy. unfold key_le. simpl. done.
Qed.

(** The keys of the sorted vector do not depend on the order of the input. *)
Lemma sorted_keys_unique v1 v2 :
  v1 ≡ₚ v2 →
  item_key <$> (node_item <$> std_sort v1) = item_key <$> (node_item <$> std_sort v2).
Proof.
  intros Hperm. apply (StronglySorted_unique key_le); [apply sorted_item_keys..|].
  by rewrite !std_sort_perm, Hperm.
Qed.

(** Nor do the items, when no two distinct items have the same key. *)
Lemma sorted_items_unique v1 v2 :
  v1 ≡ₚ v2 →
  (∀ x y, x ∈ v1 → y ∈ v1 → item_key (node_item x) = item_key (node_item y) →
     node_item x = node_item y) →
  node_item <$> std_sort v1 = node_item <$> std_sort v2.
Proof.
  intros Hperm Hinj.
  apply (StronglySorted_unique_strong (λ a b : Item, key_le (item_key a) (item_key b))).
  - intros a b (x & -> & Hx)%list_elem_of_fmap (y & -> & Hy)%list_elem_of_fmap Hab Hba.
    apply Hinj.
    + by rewrite <- (std_sort_perm v1).
    + by rewrite Hperm, <- (std_sort_perm v2).
    + by apply (anti_symm key_le).
  - apply (StronglySorted_fmap _ node_le); [|apply std_sort_sorted].
    intros x y Hxy. apply node_le_spec in Hxy. unfold key_le. simpl. done.
  - apply (StronglySorted_fmap _ node_le); [|apply std_sort_sorted].
    intros x y Hxy. apply node_le_spec in Hxy. unfold key_le. simpl. done.
  - by rewrite !std_sort_perm, Hperm.
Qed.

Lemma max_ends_ext_end v1 v2 :
  node_end <$> v1 = node_end <$> v2 → max_ends v1 = max_ends v2.
Proof.
  revert v2. induction v1 as [|x v1 IH]; intros [|y v2] Heq; try done.
  rewrite !fmap_cons in Heq. injection Heq as Hxy Hrest.
  by rewrite !max_ends_cons, (IH v2 Hrest), Hxy.
Qed.

Lemma fmap_key_end v1 v2 :
  item_key <$> (node_item <$> v1) = item_key <$> (node_item <$> v2) →
  node_end <$> v1 = node_end <$> v2.
Proof.
  intros Heq. apply (f_equal (fmap snd)) in Heq.
  by rewrite <- !list_fmap_compose in Heq.
Qed.

(** The augment is a function of the [end]s. *)
Lemma augmented_ime_eq v1 v2 :
  vsize v1 < 2 ^ 63 → node_end <$> v1 = node_end <$> v2 →
  augmented v1 → augmented v2 → node_ime <$> v1 = node_ime <$> v2.
Proof.
  intros Hsz Hends Ha1 Ha2.
  assert (length v1 = length v2) as Hlen
    by (by rewrite <- (length_fmap node_end v1), Hends, length_fmap).
  apply list_eq. intros i. rewrite !list_lookup_fmap.
  destruct (v1 !! i) as [nd1|] eqn:H1, (v2 !! i) as [nd2|] eqn:H2; simpl.
  - f_equal. pose proof (lookup_lt_Some _ _ _ H1) as Hi.
    pose proof (level_lvl (Z.of_nat i) ltac:(unfold vsize in Hsz; lia)) as Hk.
    assert (v1 !!r Z.of_nat i = Some nd1) as H1' by (unfold at_rank; by rewrite Nat2Z.id).
    assert (v2 !!r Z.of_nat i = Some nd2) as H2' by (unfold at_rank; by rewrite Nat2Z.id).
    pose proof (Ha1 _ _ _ Hk H1') as Hm1. pose proof (Ha2 _ _ _ Hk H2') as Hm2.
    rewrite (max_ends_ext_end _ (sub (Z.of_nat i - (2 ^ level (Z.of_nat i) - 1))
               (Z.of_nat i + (2 ^ level (Z.of_nat i) - 1)) v2)) in Hm1
      by (by rewrite !fmap_sub, Hends).
    congruence.
  - apply lookup_lt_Some in H1. apply lookup_ge_None in H2. lia.
  - apply lookup_lt_Some in H2. apply lookup_ge_None in H1. lia.
  - done.
Qed.

Lemma fmap_pair {A B C} (f : A → B) (g : A → C) (l1 l2 : list A) :
  f <$> l1 = f <$> l2 → g <$> l1 = g <$> l2 →
  (λ x, (f x, g x)) <$> l1 = (λ x, (f x, g x)) <$> l2.
Proof.
  revert l2. induction l1 as [|x l1 IH]; intros [|y l2] Hf Hg; try done.
  rewrite !fmap_cons in *. injection Hf as Hf1 Hf2. injection Hg as Hg1 Hg2.
  rewrite (IH l2) by done. by rewrite Hf1, Hg1.
Qed.

(** Two builds from rearrangements of the same items agree, rank by rank, on
    [beg], [end] and [inside_max_end]. *)
Lemma build_keys_unique items1 items2 :
  vsize items1 < 2 ^ 63 → items1 ≡ₚ items2 →
  ∃ t1 t2 : iit_base Node,
    iit_base_ctor (builder_of_range items1) = Some t1 ∧
    iit_base_ctor (builder_of_range items2) = Some t2 ∧
    (λ nd, (item_key (node_item nd), node_ime nd)) <$> nodes t1
      = (λ nd, (item_key (node_item nd), node_ime nd)) <$> nodes t2 ∧
    node_item <$> nodes t1 ≡ₚ node_item <$> nodes t2 ∧
    ((∀ x y, x ∈ items1 → y ∈ items1 → item_key x = item_key y → x = y) →
       node_item <$> nodes t1 = node_item <$> nodes t2).
Proof.
  intros Hsz Hperm.
  assert (vsize items2 < 2 ^ 63) as Hsz2 by (unfold vsize in *; by rewrite <- Hperm).
  destruct (build_spec (Node := Node) items1 Hsz)
    as (t1 & Ht1 & Hgeo1 & Haug1 & Hsorted1 & Hperm1 & Hupd1).
  destruct (build_spec (Node := Node) items2 Hsz2)
    as (t2 & Ht2 & Hgeo2 & Haug2 & Hsorted2 & Hperm2 & Hupd2).
  exists t1, t2. do 2 (split; [done|]).
  assert ((builder_of_range items1 : list Node) ≡ₚ builder_of_range items2) as Hb.
  { by rewrite !builder_of_range_fmap, Hperm. }
  assert (item_key <$> (node_item <$> nodes t1) = item_key <$> (node_item <$> nodes t2))
    as Hkeys.
  { rewrite (ime_updated_items _ _ Hupd1), (ime_updated_items _ _ Hupd2).
    by apply sorted_keys_unique. }
  split; [|split].
  - apply (fmap_pair (λ nd, item_key (node_item nd)) node_ime).
    + rewrite <- !list_fmap_compose in Hkeys. exact Hkeys.
    + apply augmented_ime_eq; [|by apply fmap_key_end|done..].
      destruct Hgeo1 as (_ & _ & _ & _ & _).
      rewrite (ime_updated_vsize _ _ Hupd1), std_sort_length, builder_vsize. done.
  - by rewrite Hperm1, Hperm2.
  - intros Hinj. rewrite (ime_updated_items _ _ Hupd1), (ime_updated_items _ _ Hupd2).
    apply sorted_items_unique; [done|].
    intros x y Hx Hy Hk. rewrite builder_of_range_fmap in Hx, Hy.
    apply list_elem_of_fmap in Hx as (x' & -> & Hx'), Hy as (y' & -> & Hy').
    rewrite !node_item_new in *. by apply Hinj.
Qed.

End Order.

(** ** The augment and the order of the node array *)

Section BaseTheorems.
Context {Item : Type} `{NodeType Item Node}.
Implicit Types (items : list Item).

(** C3: after construction, for every real node [n] the stored
    [inside_max_end] is the greatest [end] among the real nodes of the
    implicit subtree of [n] ([n] itself included): it is the [end] of one of
    them and no [end] among them exceeds it. Real nodes below an imaginary
    right child are in the subtree, so the propagation along the right border
    is covered. *)
Theorem inside_max_end_correct items :
  vsize items < 2 ^ 63 →
  ∃ t : iit_base Node,
    iit_base_ctor (builder_of_range items) = Some t ∧
    ∀ n nd, 0 <= n → nodes t !!r n = Some nd →
      is_max_end (nodes t) (in_subtree n) (inside_max_end (node_base nd)).
Proof.
  intros Hsz.
  destruct (build_spec (Node := Node) items Hsz)
    as (t & Ht & Hgeo & Haug & Hsorted & Hperm & Hupd).
  exists t. split; [done|]. intros n nd Hn Hnd.
  assert (vsize (nodes t) < 2 ^ 63) as Hsz'.
  { rewrite (ime_updated_vsize _ _ Hupd), std_sort_length, builder_vsize. done. }
  pose proof (at_rank_Some _ _ _ Hnd) as Hlt.
  apply (augmented_is_max (nodes t) n (level n) nd); [done| |lia|done].
  apply level_lvl. lia.
Qed.

(** C6: after construction the node array is sorted by [beg], ties by
    [end]. *)
Theorem nodes_sorted items :
  vsize items < 2 ^ 63 →
  ∃ t : iit_base Node,
    iit_base_ctor (builder_of_range items) = Some t ∧
    ∀ i j a b, 0 <= i < j → nodes t !!r i = Some a → nodes t !!r j = Some b →
      get_beg (item (node_base a)) < get_beg (item (node_base b)) ∨
      (get_beg (item (node_base a)) = get_beg (item (node_base b)) ∧
       get_end (item (node_base a)) <= get_end (item (node_base b))).
Proof.
  intros Hsz.
  destruct (build_spec (Node := Node) items Hsz)
    as (t & Ht & Hgeo & Haug & Hsorted & Hperm & Hupd).
  exists t. split; [done|]. intros i j a b Hij Ha Hb.
  exact (Hsorted i j a b Hij Ha Hb).
Qed.

End BaseTheorems.

Section OrderTheorems.
Context {Item : Type} `{Interval Item}.
Implicit Types (items : list Item).

Lemma iit_nodes_eq (v1 v2 : list (iit_node_base Item)) :
  node_item <$> v1 = node_item <$> v2 → node_ime <$> v1 = node_ime <$> v2 →
  v1 = v2.
Proof.
  revert v2. induction v1 as [|[x1 e1] v1 IH]; intros [|[x2 e2] v2] Hi He; try done.
  rewrite !fmap_cons in *. injection Hi as Hi1 Hi2. injection He as He1 He2.
  cbv in Hi1, He1. subst. f_equal. by apply IH.
Qed.

(** C9, amended: the bulk path adds the items one at a time, so both paths
    fill the same buffer from the same sequence. Two indexes built from
    rearrangements of the same items agree rank by rank on [beg], [end] and
    [inside_max_end], hold the same multiset of items and answer every query
    with the same multiset; their node arrays are identical when no two
    distinct items have both the same [beg] and the same [end]. *)
Theorem insertion_order_index items1 items2 (qbeg qend : Z) (ans0 : list Item) :
  vsize items1 < 2 ^ 63 → items1 ≡ₚ items2 →
  fold_left builder_add items1 [] = builder_add_range [] items1 ∧
  ∃ t1 t2 c1 c2 ans1 ans2,
    iit_build (builder_add_range [] items1) = Some t1 ∧
    iit_build (fold_left builder_add items2 []) = Some t2 ∧
    (λ nd, (get_beg (item nd), get_end (item nd), inside_max_end nd)) <$> nodes t1
      = (λ nd, (get_beg (item nd), get_end (item nd), inside_max_end nd)) <$> nodes t2 ∧
    item <$> nodes t1 ≡ₚ item <$> nodes t2 ∧
    iit_base_overlap t1 qbeg qend ans0 = Some (c1, ans1) ∧
    iit_base_overlap t2 qbeg qend ans0 = Some (c2, ans2) ∧
    ans1 ≡ₚ ans2 ∧
    ((∀ x y, x ∈ items1 → y ∈ items1 →
        get_beg x = get_beg y → get_end x = get_end y → x = y) →
     nodes t1 = nodes t2 ∧ ans1 = ans2).
Proof.
  intros Hsz Hperm. split; [done|].
  assert (vsize items2 < 2 ^ 63) as Hsz2 by (unfold vsize in *; by rewrite <- Hperm).
  destruct (build_keys_unique (Node := iit_node_base Item) items1 items2 Hsz Hperm)
    as (t1 & t2 & Ht1 & Ht2 & Hkeys & Hitems & Hinj).
  destruct (build_spec (Node := iit_node_base Item) items1 Hsz)
    as (t1' & Ht1' & Hgeo1 & Haug1 & Hsorted1 & Hperm1 & _).
  destruct (build_spec (Node := iit_node_base Item) items2 Hsz2)
    as (t2' & Ht2' & Hgeo2 & Haug2 & Hsorted2 & Hperm2 & _).
  assert (t1' = t1) as -> by congruence. assert (t2' = t2) as -> by congruence.
  destruct (iit_base_overlap_spec t1 qbeg qend ans0 Hgeo1 Hsorted1
              (augmented_ime_bound _ Haug1)) as (c1 & Hq1).
  destruct (iit_base_overlap_spec t2 qbeg qend ans0 Hgeo2 Hsorted2
              (augmented_ime_bound _ Haug2)) as (c2 & Hq2).
  exists t1, t2, c1, c2, (overlapping qbeg qend (nodes t1)),
    (overlapping qbeg qend (nodes t2)).
  do 2 (split; [done|]). split; [exact Hkeys|]. split; [exact Hitems|].
  do 2 (split; [done|]). split.
  - unfold overlapping. by rewrite Hitems.
  - intros Hdistinct.
    assert (nodes t1 = nodes t2) as Heq.
    { apply iit_nodes_eq.
      - apply Hinj. intros x y Hx Hy Hk. injection Hk as Hb He. by apply Hdistinct.
      - apply (f_equal (fmap snd)) in Hkeys.
        rewrite <- !list_fmap_compose in Hkeys. exact Hkeys. }
    split; [done|]. by rewrite Heq.
Qed.

End OrderTheorems.

(** ** Examples *)

Lemma iit_overlap_exact_witness :
  vsize example_items < 2 ^ 63 ∧
  ∃ t cost ans, iit_build (builder_of_range example_items) = Some t ∧
    iit_base_overlap t 15 25 [] = Some (cost, ans) ∧
    ans ≡ₚ filter (λ x, 15 < get_end x ∧ get_beg x < 25) example_items ∧
    (∀ x, x ∈ example_items → get_end x > 15 → get_beg x < 25 → x ∈ ans) ∧
    (∀ x, x ∈ ans → x ∈ example_items ∧ get_end x > 15 ∧ get_beg x < 25).
Proof.
  split; [vm_compute; reflexivity|].
  apply (iit_overlap_exact example_items 15 25 []). vm_compute; reflexivity.
Defined.

Lemma degenerate_query_result_witness :
  vsize example_items < 2 ^ 63 ∧ 40 <= 50 ∧
  ∃ t cost ans, iit_build (builder_of_range example_items) = Some t ∧
    iit_base_overlap t 50 40 [] = Some (cost, ans) ∧
    ans ≡ₚ filter (overlaps 50 40) example_items ∧
    (ans = [] ↔
     ∀ x, x ∈ example_items → ¬ (get_beg x < 40 ∧ 50 < get_end x)).
Proof.
  split; [vm_compute; reflexivity|]. split; [lia|].
  apply (degenerate_query_result example_items 50 40 []);
    [vm_compute; reflexivity | lia].
Defined.

(** C8: one item [(0, 100)] and the query [(50, 40)], for which
    [qend <= qbeg]: the item is returned. *)
Lemma degenerate_query_nonempty :
  40 <= 50 ∧
  ∃ t, iit_build (builder_of_range [(0, 100, 7)]) = Some t ∧
       iit_base_overlap_items t 50 40 = Some [(0, 100, 7)].
Proof.
  split; [lia|]. eexists. split.
  - vm_compute. reflexivity.
  - vm_compute. reflexivity.
Qed.

Lemma inside_max_end_correct_witness :
  vsize example_items < 2 ^ 63 ∧
  ∃ t : iit_base (iit_node_base (Z * Z * Z)),
    iit_base_ctor (builder_of_range example_items) = Some t ∧
    ∀ n nd, 0 <= n → nodes t !!r n = Some nd →
      is_max_end (nodes t) (in_subtree n) (inside_max_end (node_base nd)).
Proof.
  split; [vm_compute; reflexivity|].
  apply (inside_max_end_correct example_items). vm_compute; reflexivity.
Defined.

Lemma nodes_sorted_witness :
  vsize example_items < 2 ^ 63 ∧
  ∃ t : iit_base (iit_node_base (Z * Z * Z)),
    iit_base_ctor (builder_of_range example_items) = Some t ∧
    ∀ i j a b, 0 <= i < j → nodes t !!r i = Some a → nodes t !!r j = Some b →
      get_beg (item (node_base a)) < get_beg (item (node_base b)) ∨
      (get_beg (item (node_base a)) = get_beg (item (node_base b)) ∧
       get_end (item (node_base a)) <= get_end (item (node_base b))).
Proof.
  split; [vm_compute; reflexivity|].
  apply (nodes_sorted example_items). vm_compute; reflexivity.
Defined.

Lemma insertion_order_index_witness :
  vsize example_items < 2 ^ 63 ∧ example_items ≡ₚ reverse example_items ∧
  ∃ t1 t2 c1 c2 ans1 ans2,
    iit_build (builder_add_range [] example_items) = Some t1 ∧
    iit_build (fold_left builder_add (reverse example_items) []) = Some t2 ∧
    (λ nd, (get_beg (item nd), get_end (item nd), inside_max_end nd)) <$> nodes t1
      = (λ nd, (get_beg (item nd), get_end (item nd), inside_max_end nd)) <$> nodes t2 ∧
    item <$> nodes t1 ≡ₚ item <$> nodes t2 ∧
    iit_base_overlap t1 15 25 [] = Some (c1, ans1) ∧
    iit_base_overlap t2 15 25 [] = Some (c2, ans2) ∧
    ans1 ≡ₚ ans2 ∧
    ((∀ x y, x ∈ example_items → y ∈ example_items →
        get_beg x = get_beg y → get_end x = get_end y → x = y) →
     nodes t1 = nodes t2 ∧ ans1 = ans2).
Proof.
  split; [vm_compute; reflexivity|]. split; [symmetry; apply reverse_Permutation|].
  apply (insertion_order_index example_items (reverse example_items) 15 25 []).
  - vm_compute; reflexivity.
  - symmetry; apply reverse_Permutation.
Defined.

(** C9: two items with the same [beg] and [end], added in the two possible
    orders, give two different node arrays. *)
Lemma insertion_order_changes_nodes :
  [(5, 10, 0); (5, 10, 1)] ≡ₚ [(5, 10, 1); (5, 10, 0)] ∧
  ∃ t1 t2,
    iit_build (builder_add_range [] [(5, 10, 0); (5, 10, 1)]) = Some t1 ∧
    iit_build (fold_left builder_add [(5, 10, 1); (5, 10, 0)] []) = Some t2 ∧
    nodes t1 ≠ nodes t2.
Proof.
  split; [apply perm_swap|]. eexists _, _.
  split; [vm_compute; reflexivity|]. split; [vm_compute; reflexivity|].
  intros Heq. discriminate Heq.
Qed.

(** ** The index with interpolation *)

Section IitiiTheorems.
Context {Item : Type} `{Interval Item} `{PosType} `{FloatOps}.
Implicit Types (items : list Item) (t : iitii Item).

Lemma builder_fresh_outside items :
  fresh_outside (builder_of_range items : list (iitii_node Item)).
Proof.
  rewrite builder_of_range_fmap. by intros nd (it & -> & _)%list_elem_of_fmap.
Qed.

(** What [build] returns, whenever it returns, is a well-formed index of the
    items. *)
Lemma iitii_build_sound items d t :
  vsize items < 2 ^ 63 → iitii_build (builder_of_range items) d = Some t →
  iitii_ok t ∧ node_item <$> nodes (base t) ≡ₚ items ∧
  queries t = 0 ∧ total_climb_cost t = 0.
Proof.
  intros Hsz Ht. unfold iitii_build in Ht.
  apply iitii_ctor_sound in Ht.
  - by rewrite builder_items in Ht.
  - by rewrite builder_vsize.
  - apply builder_fresh.
  - apply builder_fresh_outside.
Qed.

(** [build] returns when three times the number of domains fits [unsigned]. *)
Lemma iitii_build_total items d :
  vsize items < 2 ^ 63 → 3 * Z.max 1 (wrap 32 d) < 2 ^ 32 →
  ∃ t, iitii_build (builder_of_range items) d = Some t ∧ params_ok t.
Proof.
  intros Hsz Hd. unfold iitii_build.
  apply iitii_ctor_total; [by rewrite builder_vsize|apply builder_fresh|
    apply builder_fresh_outside| |done].
  apply wrap_range. lia.
Qed.

Lemma iitii_ok_with_counters t q c : iitii_ok t → iitii_ok (with_counters t q c).
Proof. intros Hok. exact Hok. Qed.

Lemma params_ok_with_counters t q c : params_ok t → params_ok (with_counters t q c).
Proof. intros Hok. exact Hok. Qed.

(** With that bound on the number of domains, the query of [iitii] returns
    the same multiset of items as the query of [iit] on the same items. *)
Lemma iitii_overlap_equiv items d (qbeg qend : Z) (ans0 : list Item) :
  vsize items < 2 ^ 63 → 3 * Z.max 1 (wrap 32 d) < 2 ^ 32 →
  ∃ t cost ans t' (b0 : iit_base (iit_node_base Item)) cost0 ans0',
    iitii_build (builder_of_range items) d = Some t ∧
    iitii_overlap t qbeg qend ans0 = Some (cost, ans, t') ∧
    iit_build (builder_of_range items) = Some b0 ∧
    iit_base_overlap b0 qbeg qend ans0 = Some (cost0, ans0') ∧
    ans ≡ₚ ans0' ∧ ans ≡ₚ filter (overlaps qbeg qend) items.
Proof.
  intros Hsz Hd.
  destruct (iitii_build_total items d Hsz Hd) as (t & Ht & Hpar).
  destruct (iitii_build_sound items d t Hsz Ht) as (Hok & Hperm & _ & _).
  destruct (predict_leaf_total t qbeg Hpar) as (p & Hp).
  destruct (iit_overlap_filter items qbeg qend ans0 Hsz)
    as (b0 & cost0 & ans0' & Ht0 & Hq0 & Hans0).
  assert (overlapping qbeg qend (nodes (base t)) ≡ₚ filter (overlaps qbeg qend) items)
    as Hans by (unfold overlapping; by rewrite Hperm).
  destruct (iitii_overlap_spec t qbeg qend ans0 p Hok Hp) as [Hnone Hsome].
  destruct (decide (p = nrank)) as [Hpn|Hpn].
  - destruct (Hnone Hpn) as (c & _ & Hq).
    exists t, c, (overlapping qbeg qend (nodes (base t))), t, b0, cost0, ans0'.
    do 4 (split; [done|]). split; [by rewrite Hans, Hans0|done].
  - destruct (Hsome Hpn) as (s & k & c & _ & _ & Hq).
    eexists t, _, (overlapping qbeg qend (nodes (base t))), _, b0, cost0, ans0'.
    split; [done|]. split; [exact Hq|]. do 2 (split; [done|]).
    split; [by rewrite Hans, Hans0|done].
Qed.

(** C4: for every index that [build] returns and every real node [n], the
    stored [outside_max_end] is the greatest [end] among the real nodes
    outside the subtree of [n] whose [beg] is below that of [n], and the least
    [Pos] when there is no such node. [build] returns when three times the
    number of domains fits [unsigned]. *)
Theorem outside_max_end_correct items d :
  vsize items < 2 ^ 63 →
  (3 * Z.max 1 (wrap 32 d) < 2 ^ 32 →
     ∃ t, iitii_build (builder_of_range items) d = Some t) ∧
  ∀ t, iitii_build (builder_of_range items) d = Some t →
    ∀ n nd, 0 <= n → nodes (base t) !!r n = Some nd →
      outside_max_end_of (nodes (base t)) n (outside_max_end nd).
Proof.
  intros Hsz. split.
  - intros Hd. destruct (iitii_build_total items d Hsz Hd) as (t & Ht & _). by exists t.
  - intros t Ht n nd Hn Hnd.
    destruct (iitii_build_sound items d t Hsz Ht) as (Hok & _).
    destruct Hok as (_ & _ & _ & _ & Hout & _). by apply Hout.
Qed.

(** C5: for every index that [build] returns and every real node [n],
    [outside_min_beg] returns the least [beg] among the real nodes outside the
    subtree of [n] whose [beg] is at least that of [n], and the greatest [Pos]
    when there is no such node. *)
Theorem outside_min_beg_correct items d t n :
  vsize items < 2 ^ 63 → iitii_build (builder_of_range items) d = Some t →
  0 <= n < vsize (nodes (base t)) →
  ∃ x, outside_min_beg (nodes (base t)) n = Some x ∧
       outside_min_beg_of (nodes (base t)) n x.
Proof.
  intros Hsz Ht Hn.
  destruct (iitii_build_sound items d t Hsz Ht) as (Hok & _).
  destruct Hok as (Hsz' & _ & _ & Hsorted & _ & _).
  by apply outside_min_beg_spec.
Qed.

(** C10: a query on an index that [build] returned, whatever its counters
    [q] and [c] have become. [predict_leaf] returns when three times the
    number of domains fits [unsigned]; it makes no prediction exactly when the
    level parameter of the domain of [qbeg] is not finite, which is the case
    of every domain of the empty index. Without a prediction the query is the
    scan from the root and the index is unchanged; with a prediction the
    index is the same but for [queries], one more, and [total_climb_cost],
    more by the number of steps of the climb. *)
Theorem iitii_overlap_counters items d t0 (q c qbeg qend : Z) (ans0 : list Item) :
  vsize items < 2 ^ 63 → iitii_build (builder_of_range items) d = Some t0 →
  let t := with_counters t0 q c in
  (3 * Z.max 1 (wrap 32 d) < 2 ^ 32 → ∃ p, predict_leaf t qbeg = Some p) ∧
  ∀ p, predict_leaf t qbeg = Some p →
    (p = nrank ↔
       ∃ lv_f, parameters t !!r
                 wrap 32 (3 * which_domain (domains t) (domain_size t) (min_beg t) qbeg + 2)
                 = Some lv_f ∧ f_isfinite lv_f = false) ∧
    (items = [] → p = nrank) ∧
    (p = nrank →
       ∃ cost ans, iit_base_overlap (base t) qbeg qend ans0 = Some (cost, ans) ∧
                   iitii_overlap t qbeg qend ans0 = Some (cost, ans, t)) ∧
    (p ≠ nrank →
       ∃ s k cost ans, climb_steps t qbeg qend p k s ∧
         iitii_overlap t qbeg qend ans0
           = Some (cost, ans,
                   with_counters t0 (add64 q 1) (add64 c (Z.of_nat k)))).
Proof.
  intros Hsz Ht0 t.
  destruct (iitii_build_sound items d t0 Hsz Ht0) as (Hok0 & Hperm & _ & _).
  assert (iitii_ok t) as Hok by (by apply iitii_ok_with_counters).
  split.
  - intros Hd. apply predict_leaf_total. apply params_ok_with_counters.
    destruct (iitii_build_total items d Hsz Hd) as (t1 & Ht1 & Hpar).
    by assert (t1 = t0) as -> by congruence.
  - intros p Hp.
    destruct (predict_leaf_spec t qbeg p Hok Hp) as (lv_f & Hlv & Hnan & Hfin).
    destruct (iitii_overlap_spec t qbeg qend ans0 p Hok Hp) as [Hnone Hsome].
    split; [|split; [|split]].
    + split.
      * intros Hpn. exists lv_f. split; [done|].
        destruct (f_isfinite lv_f) eqn:Hf; [|done]. by destruct (Hfin eq_refl).
      * intros (lv' & Hlv' & Hf). apply Hnan. congruence.
    + intros ->. apply Hnan.
      destruct Hok as (_ & _ & _ & _ & _ & Hempty).
      assert (nodes (base t0) = []) as Hnil.
      { apply Permutation_nil_r in Hperm. by apply fmap_nil_inv in Hperm. }
      assert (vsize (nodes (base t)) = 0) as Hz by (simpl; by rewrite Hnil).
      pose proof (Hempty Hz) as Hall. rewrite Forall_forall in Hall.
      apply Hall. unfold at_rank in Hlv. by apply list_elem_of_lookup_2 in Hlv.
    + intros Hpn. destruct (Hnone Hpn) as (cost & Hq1 & Hq2). by eexists _, _.
    + intros Hpn. destruct (Hsome Hpn) as (s & k & cost & Hk & _ & Hq).
      exists s, k. by eexists _, _.
Qed.

End IitiiTheorems.

(** C2: no items and 1431655766 domains. Three times the number of domains
    is 2 in [unsigned], [parameters] receives two entries, and [predict_leaf]
    reads the entry of index 2: the query of [iitii] has no defined result,
    where the query of [iit] on the same items returns no item. *)
Theorem iitii_domains_overflow :
  ∃ t : iitii (Z * Z * Z),
    iitii_build (builder_of_range []) 1431655766 = Some t ∧
    domains t = 1431655766 ∧ vsize (parameters t) = 2 ∧
    which_domain (domains t) (domain_size t) (min_beg t) 0 = 0 ∧
    predict_leaf t 0 = None ∧ iitii_overlap t 0 100 [] = None ∧
    ∃ b0 : iit_base (iit_node_base (Z * Z * Z)),
      iit_build (builder_of_range []) = Some b0 ∧
      iit_base_overlap_items b0 0 100 = Some [].
Proof.
  eexists. split; [vm_compute; reflexivity|].
  do 5 (split; [vm_compute; reflexivity|]).
  eexists. split; [vm_compute; reflexivity|]. vm_compute; reflexivity.
Qed.

Lemma outside_max_end_correct_witness :
  vsize example_items7 < 2 ^ 63 ∧
  (3 * Z.max 1 (wrap 32 2) < 2 ^ 32 →
     ∃ t, iitii_build (builder_of_range example_items7) 2 = Some t) ∧
  ∀ t, iitii_build (builder_of_range example_items7) 2 = Some t →
    ∀ n nd, 0 <= n → nodes (base t) !!r n = Some nd →
      outside_max_end_of (nodes (base t)) n (outside_max_end nd).
Proof.
  split; [vm_compute; reflexivity|].
  apply (outside_max_end_correct example_items7 2). vm_compute; reflexivity.
Defined.

Lemma outside_min_beg_correct_witness :
  ∃ t, iitii_build (builder_of_range example_items7) 2 = Some t ∧
    vsize example_items7 < 2 ^ 63 ∧ 0 <= 3 < vsize (nodes (base t)) ∧
    ∃ x, outside_min_beg (nodes (base t)) 3 = Some x ∧
         outside_min_beg_of (nodes (base t)) 3 x.
Proof.
  eexists. split; [vm_compute; reflexivity|].
  split; [vm_compute; reflexivity|].
  split; [split; [lia|vm_compute; reflexivity]|].
  apply (outside_min_beg_correct example_items7 2 _ 3).
  - vm_compute; reflexivity.
  - vm_compute; reflexivity.
  - split; [lia|vm_compute; reflexivity].
Defined.

Lemma iitii_overlap_counters_witness :
  ∃ t0, iitii_build (builder_of_range example_items7) 2 = Some t0 ∧
    vsize example_items7 < 2 ^ 63 ∧
    let t := with_counters t0 5 9 in
    (3 * Z.max 1 (wrap 32 2) < 2 ^ 32 → ∃ p, predict_leaf t 41 = Some p) ∧
    ∀ p, predict_leaf t 41 = Some p →
      (p = nrank ↔
         ∃ lv_f, parameters t !!r
                   wrap 32 (3 * which_domain (domains t) (domain_size t) (min_beg t) 41 + 2)
                   = Some lv_f ∧ f_isfinite lv_f = false) ∧
      (example_items7 = [] → p = nrank) ∧
      (p = nrank →
         ∃ cost ans, iit_base_overlap (base t) 41 42 [] = Some (cost, ans) ∧
                     iitii_overlap t 41 42 [] = Some (cost, ans, t)) ∧
      (p ≠ nrank →
         ∃ s k cost ans, climb_steps t 41 42 p k s ∧
           iitii_overlap t 41 42 []
             = Some (cost, ans,
                     with_counters t0 (add64 5 1) (add64 9 (Z.of_nat k)))).
Proof.
  eexists. split; [vm_compute; reflexivity|].
  split; [vm_compute; reflexivity|].
  apply (iitii_overlap_counters example_items7 2 _ 5 9 41 42 []).
  - vm_compute; reflexivity.
  - vm_compute; reflexivity.
Defined.

(** * Further properties of the code *)

(** ** Ranks, levels and the implicit tree *)

(** X1. [level]: a rank below [nrank] has a level between 0 and 63, and its
    level is [k] exactly when [n + 1] is [2^k] times an odd number, that is
    when [n] ends in exactly [k] one bits. *)
Theorem level_characterisation n :
  0 <= n < 2 ^ 64 - 1 →
  0 <= level n < 64 ∧
  ∀ k, level n = k ↔ 0 <= k ∧ ∃ j, 0 <= j ∧ n + 1 = 2 ^ k * (2 * j + 1).
Proof.
  intros Hn. pose proof (level_lvl n Hn) as Hl. split.
  - destruct Hl as (Hk & j & Hj & Heq). split; [done|].
    apply pow2_lt_inv; [lia..|]. pose proof (pow2_pos (level n) Hk). nia.
  - intros k. split.
    + intros <-. exact Hl.
    + intros Hk. by apply lvl_level.
Qed.

Lemma level_characterisation_witness :
  0 <= 11 < 2 ^ 64 - 1 ∧ 0 <= level 11 < 64 ∧
  ∀ k, level 11 = k ↔ 0 <= k ∧ ∃ j, 0 <= j ∧ 11 + 1 = 2 ^ k * (2 * j + 1).
Proof. split; [lia|]. apply (level_characterisation 11). lia. Defined.

(** X2. [left], [right] and [parent]: a leaf has no children; a node of
    level [k > 0] has its children at distance [2^(k-1)] on either side, one
    level down, and [parent] of either child is the node again (unless the
    child is taken for the root, for which [parent] answers [nrank]). *)
Theorem parent_of_children rt n :
  0 <= n < 2 ^ 63 - 1 →
  (level n = 0 → left n = nrank ∧ right n = nrank) ∧
  (0 < level n →
     left n = n - 2 ^ (level n - 1) ∧ right n = n + 2 ^ (level n - 1) ∧
     level (left n) = level n - 1 ∧ level (right n) = level n - 1 ∧
     (left n ≠ rt → parent rt (left n) = n) ∧
     (right n ≠ rt → parent rt (right n) = n)) ∧
  parent rt rt = nrank.
Proof.
  intros Hn. assert (2 ^ 63 < 2 ^ 64) as Hpow by (by apply pow2_lt).
  pose proof (level_lvl n ltac:(lia)) as Hl.
  split; [|split].
  - intros H0. rewrite H0 in Hl. split; [apply left_leaf|apply right_leaf]; first [lia|done].
  - intros Hpos. set (k := level n) in *.
    destruct (left_lvl n k) as [Hle Hll]; [lia|done|done|].
    destruct (right_lvl n k) as [Hre Hrl]; [lia|done|done|].
    pose proof (subtree_hi_small n k ltac:(lia) Hl) as Hhi.
    pose proof (pow2_pos (k - 1) ltac:(lia)) as Hp.
    pose proof (pow2_pred k ltac:(lia)) as Hpk.
    pose proof (lvl_nonneg _ _ Hll) as Hl0.
    do 2 (split; [done|]).
    split; [apply lvl_level; [lia|done]|].
    split; [apply lvl_level; [lia|done]|].
    split.
    + intros Hne. destruct (parent_lvl rt (left n) (k - 1)) as [Hpl Hcase]; [lia|done|done|].
      replace (k - 1 + 1) with k in Hpl by lia.
      destruct Hcase as [Hc|Hc]; [lia|].
      pose proof (lvl_spacing _ _ _ Hpl Hl ltac:(lia)) as Hsp.
      rewrite pow2_succ in Hsp by lia. lia.
    + intros Hne. destruct (parent_lvl rt (right n) (k - 1)) as [Hpl Hcase]; [lia|done|done|].
      replace (k - 1 + 1) with k in Hpl by lia.
      destruct Hcase as [Hc|Hc]; [|lia].
      pose proof (lvl_spacing _ _ _ Hl Hpl ltac:(lia)) as Hsp.
      rewrite pow2_succ in Hsp by lia. lia.
  - unfold parent. by rewrite Z.eqb_refl.
Qed.

Lemma parent_of_children_witness :
  0 <= 11 < 2 ^ 63 - 1 ∧
  (level 11 = 0 → left 11 = nrank ∧ right 11 = nrank) ∧
  (0 < level 11 →
     left 11 = 11 - 2 ^ (level 11 - 1) ∧ right 11 = 11 + 2 ^ (level 11 - 1) ∧
     level (left 11) = level 11 - 1 ∧ level (right 11) = level 11 - 1 ∧
     (left 11 ≠ 15 → parent 15 (left 11) = 11) ∧
     (right 11 ≠ 15 → parent 15 (right 11) = 11)) ∧
  parent 15 15 = nrank.
Proof. split; [lia|]. apply (parent_of_children 15 11). lia. Defined.

Lemma parent_iter_level h i :
  0 <= h <= 62 →
  ∀ n k, lvl n k → n < 2 ^ (h + 1) - 1 → k + Z.of_nat i <= h →
    lvl (Nat.iter i (parent (2 ^ h - 1)) n) (k + Z.of_nat i) ∧
    Nat.iter i (parent (2 ^ h - 1)) n < 2 ^ (h + 1) - 1.
Proof.
  intros Hh. induction i as [|i IH]; intros n k Hk Hn Hki.
  - simpl. by rewrite Z.add_0_r.
  - rewrite Nat.iter_succ_r.
    assert (2 ^ (h + 1) <= 2 ^ 63) as Hpow by (apply pow2_le; lia).
    assert (n ≠ 2 ^ h - 1) as Hne.
    { intros ->. pose proof (lvl_unique _ _ _ Hk (lvl_root h ltac:(lia))). lia. }
    destruct (parent_lvl (2 ^ h - 1) n k) as [Hpl Hcase]; [lia|done|done|].
    assert (0 <= k) as Hk0 by apply Hk. pose proof (pow2_pos k Hk0) as Hp.
    assert (parent (2 ^ h - 1) n < 2 ^ (h + 1) - 1) as Hin.
    { apply (lvl_in_tree _ (k + 1) h); [done|lia|]. rewrite pow2_succ by lia. lia. }
    destruct (IH _ _ Hpl Hin ltac:(lia)) as [Hl Hlt].
    split; [|done]. by replace (k + Z.of_nat (S i)) with (k + 1 + Z.of_nat i) by lia.
Qed.

(** X3. Climbing with [parent] inside a tree of root level [h]: from a rank
    of the tree each step goes one level up and stays in the tree, and the
    root is reached after exactly [h - level(n)] steps, not before. *)
Theorem parent_chain_reaches_root h n :
  0 <= h <= 62 → 0 <= n < 2 ^ (h + 1) - 1 →
  level n <= h ∧
  Nat.iter (Z.to_nat (h - level n)) (parent (2 ^ h - 1)) n = 2 ^ h - 1 ∧
  ∀ i, Z.of_nat i < h - level n →
    level (Nat.iter i (parent (2 ^ h - 1)) n) = level n + Z.of_nat i ∧
    Nat.iter i (parent (2 ^ h - 1)) n ≠ 2 ^ h - 1 ∧
    Nat.iter i (parent (2 ^ h - 1)) n < 2 ^ (h + 1) - 1.
Proof.
  intros Hh Hn.
  assert (2 ^ (h + 1) <= 2 ^ 63) as Hpow by (apply pow2_le; lia).
  assert (2 ^ 63 < 2 ^ 64) as Hpow' by (by apply pow2_lt).
  pose proof (level_lvl n ltac:(lia)) as Hl.
  pose proof (lvl_le_root _ _ h Hl ltac:(lia) ltac:(lia)) as Hle.
  split; [done|]. split.
  - destruct (parent_iter_level h (Z.to_nat (h - level n)) Hh n (level n) Hl) as [Hk Hlt];
      [lia|lia|].
    replace (level n + Z.of_nat (Z.to_nat (h - level n))) with h in Hk by lia.
    by apply lvl_root_unique.
  - intros i Hi.
    destruct (parent_iter_level h i Hh n (level n) Hl) as [Hk Hlt]; [lia|lia|].
    pose proof (lvl_nonneg _ _ Hk) as Hk0.
    split; [apply lvl_level; [lia|done]|]. split; [|done].
    intros Heq. rewrite Heq in Hk.
    pose proof (lvl_unique _ _ _ Hk (lvl_root h ltac:(lia))). lia.
Qed.

Lemma parent_chain_reaches_root_witness :
  0 <= 3 <= 62 ∧ 0 <= 4 < 2 ^ (3 + 1) - 1 ∧
  level 4 <= 3 ∧
  Nat.iter (Z.to_nat (3 - level 4)) (parent (2 ^ 3 - 1)) 4 = 2 ^ 3 - 1 ∧
  ∀ i, Z.of_nat i < 3 - level 4 →
    level (Nat.iter i (parent (2 ^ 3 - 1)) 4) = level 4 + Z.of_nat i ∧
    Nat.iter i (parent (2 ^ 3 - 1)) 4 ≠ 2 ^ 3 - 1 ∧
    Nat.iter i (parent (2 ^ 3 - 1)) 4 < 2 ^ (3 + 1) - 1.
Proof.
  split; [lia|]. split; [lia|]. apply (parent_chain_reaches_root 3 4); lia.
Defined.

(** ** The geometry that the constructor computes *)

(** The loop of the geometry stops at the first level that is high enough. *)
Lemma tree_geometry_least nsz :
  0 <= nsz < 2 ^ 63 →
  ∃ h fs, tree_geometry nsz = Some (h, fs) ∧ 0 <= h <= 62 ∧
    (h <= 1 ∨ 2 ^ h - 1 < nsz).
Proof.
  intros Hn. unfold tree_geometry.
  while_inv
    (λ '((rl, fs) : Z * Z), 0 <= rl <= 62 ∧ (rl = 0 → fs = 0) ∧
                  (0 < rl → fs = 2 ^ (rl + 1) - 1 ∧ 0 < nsz) ∧
                  (rl <= 1 ∨ 2 ^ rl - 1 < nsz))
    (λ '((rl, fs) : Z * Z), Z.to_nat (63 - rl)).
  - lia.
  - simpl. lia.
  - intros [rl fs] (Hrl & H0 & Hpos & Hmin). eexists. split; [done|].
    intros Hlt%Z.ltb_lt. eexists. split; [done|].
    assert (rl <= 61) as Hrl'.
    { destruct (decide (rl = 0)); [lia|]. destruct Hpos as [-> _]; [lia|].
      assert (rl + 1 < 63); [|lia]. apply pow2_lt_inv; lia. }
    rewrite (add64_small rl) by lia. rewrite add64_small by lia.
    rewrite shl64_one by lia. pose proof (pow2_pos (rl + 1 + 1) ltac:(lia)).
    pose proof (pow2_lt (rl + 1 + 1) 64 ltac:(lia)).
    rewrite sub64_small by lia.
    split; lia.
  - intros [h fs] (Hh & H0 & Hpos & Hmin) Hc. exists h, fs. done.
Qed.

Section GeometryTheorems.
Context {Item : Type} `{NodeType Item Node}.
Implicit Types (items : list Item).

Local Arguments tree_geometry : simpl never.
Local Arguments right_border : simpl never.
Local Arguments augment_levels : simpl never.
Local Arguments std_sort : simpl never.

(** The index holds the geometry that the loop computed. *)
Lemma iit_base_ctor_geometry (nodes_ : list Node) t :
  iit_base_ctor nodes_ = Some t →
  tree_geometry (vsize nodes_) = Some (root_level t, full_size t).
Proof.
  unfold iit_base_ctor. intros Ht.
  destruct (tree_geometry (vsize nodes_)) as [[h fs]|]; [|done].
  cbn [mbind option_bind] in Ht.
  destruct (vsize nodes_ =? 0); [by simplify_eq|].
  destruct (right_border _ _) as [border|]; [|done]. cbn [mbind option_bind] in Ht.
  destruct (border !!r 0) as [b0|]; [|done]. cbn [mbind option_bind] in Ht.
  destruct (std_sort nodes_ !!r b0) as [n0|]; [|done]. cbn [mbind option_bind] in Ht.
  destruct (augment_levels _ _ _) as [[nds rbi]|]; [|done]. cbn [mbind option_bind] in Ht.
  by simplify_eq.
Qed.

(** X4. The geometry of a built index of [N] items. The tree is the
    smallest full tree the loop reaches: for [N >= 2] it has
    [2^(root_level+1) - 1] ranks, between [N] and [2 N - 1], and its root is
    a real node; for [N = 1] the loop already stops at [root_level = 1], so
    the tree has 3 ranks and the root, of rank 1, is imaginary; for [N = 0]
    everything is 0. *)
Theorem build_geometry items :
  vsize items < 2 ^ 63 →
  ∃ t : iit_base Node,
    iit_base_ctor (builder_of_range items) = Some t ∧
    vsize (nodes t) = vsize items ∧
    root t = 2 ^ root_level t - 1 ∧
    (vsize items = 0 → root_level t = 0 ∧ full_size t = 0 ∧ root t = 0) ∧
    (vsize items = 1 → root_level t = 1 ∧ full_size t = 3 ∧ root t = 1) ∧
    (2 <= vsize items →
       1 <= root_level t <= 62 ∧ full_size t = 2 ^ (root_level t + 1) - 1 ∧
       vsize items <= full_size t <= 2 * vsize items - 1 ∧
       root t < vsize items ∧ level (root t) = root_level t).
Proof.
  intros Hsz.
  destruct (build_spec (Node := Node) items Hsz)
    as (t & Ht & Hgeo & Haug & Hsorted & Hperm & Hupd).
  exists t. split; [done|].
  assert (vsize (nodes t) = vsize items) as Hn.
  { rewrite (ime_updated_vsize _ _ Hupd), std_sort_length, builder_vsize. done. }
  split; [done|].
  destruct Hgeo as (Hrl & Hroot & Hfs & Hzero & Hpos). rewrite Hn in *.
  split; [done|].
  pose proof (iit_base_ctor_geometry _ _ Ht) as Hg. rewrite builder_vsize in Hg.
  destruct (tree_geometry_least (vsize items)) as (h & fs & Hg' & Hh & Hmin);
    [unfold vsize in *; lia|].
  assert (h = root_level t) as -> by congruence.
  split; [|split].
  - intros Hz0. destruct (Hzero Hz0) as [Hr Hf]. rewrite Hroot, Hr. done.
  - intros Hz1. destruct (Hpos ltac:(lia)) as [Hr Hf].
    assert (root_level t = 1) as Hr1.
    { destruct Hmin as [?|Hm]; [lia|].
      pose proof (pow2_le 1 (root_level t) ltac:(lia)) as Hp.
      change (2 ^ 1) with 2 in Hp. lia. }
    rewrite Hroot, Hf, Hr1. done.
  - intros Hz2. destruct (Hpos ltac:(lia)) as [Hr Hf].
    assert (2 ^ root_level t - 1 < vsize items) as Hlt.
    { destruct Hmin as [?|Hm]; [|done].
      assert (root_level t = 1) as -> by lia. change (2 ^ 1) with 2. lia. }
    split; [lia|]. split; [done|]. split.
    + rewrite Hf in Hfs |- *. rewrite pow2_succ in Hfs |- * by lia. lia.
    + split; [lia|]. rewrite Hroot. apply lvl_level; [|apply lvl_root; lia].
      pose proof (pow2_pos (root_level t) ltac:(lia)).
      pose proof (pow2_lt (root_level t) 64 ltac:(lia)). lia.
Qed.

End GeometryTheorems.

Lemma build_geometry_witness :
  vsize example_items < 2 ^ 63 ∧
  ∃ t : iit_base (iit_node_base (Z * Z * Z)),
    iit_base_ctor (builder_of_range example_items) = Some t ∧
    vsize (nodes t) = vsize example_items ∧
    root t = 2 ^ root_level t - 1 ∧
    (vsize example_items = 0 → root_level t = 0 ∧ full_size t = 0 ∧ root t = 0) ∧
    (vsize example_items = 1 → root_level t = 1 ∧ full_size t = 3 ∧ root t = 1) ∧
    (2 <= vsize example_items →
       1 <= root_level t <= 62 ∧ full_size t = 2 ^ (root_level t + 1) - 1 ∧
       vsize example_items <= full_size t <= 2 * vsize example_items - 1 ∧
       root t < vsize example_items ∧ level (root t) = root_level t).
Proof.
  split; [vm_compute; reflexivity|].
  apply (build_geometry example_items). vm_compute; reflexivity.
Defined.

(** ** Subtrees *)

Lemma leftmost_lvl n k : lvl n k → lvl (n - (2 ^ k - 1)) 0.
Proof.
  intros (Hk & j & Hj & Heq). split; [done|]. exists (2 ^ k * j).
  pose proof (pow2_pos k Hk). split; [nia|]. change (2 ^ 0) with 1. nia.
Qed.

Lemma rightmost_lvl n k : lvl n k → lvl (n + (2 ^ k - 1)) 0.
Proof.
  intros (Hk & j & Hj & Heq). split; [done|]. exists (2 ^ k * (j + 1) - 1).
  pose proof (pow2_pos k Hk). split; [nia|]. change (2 ^ 0) with 1. nia.
Qed.

Lemma in_subtree_trans a b c : in_subtree a b → in_subtree b c → in_subtree a c.
Proof.
  induction 1 as [n|n m Hne Hin IH|n m Hne Hin IH]; intros Hbc; [done|..].
  - apply in_subtree_left; [done|]. by apply IH.
  - apply in_subtree_right; [done|]. by apply IH.
Qed.

Section SubtreeTheorems.
Context {Item : Type} `{NodeType Item Node}.
Implicit Types (items : list Item).

(** X5. [leftmost_child] and [rightmost_child] of a rank of the tree of a
    built index: they are the leaves [2^level - 1] ranks to the left and to
    the right, they stay inside the tree, as the two functions assert, and
    the ranks between them are exactly the ranks of the subtree that [left]
    and [right] span. *)
Theorem subtree_ends items :
  vsize items < 2 ^ 63 →
  ∃ t : iit_base Node,
    iit_base_ctor (builder_of_range items) = Some t ∧
    ∀ n, 0 <= n < full_size t →
      leftmost_child n = n - (2 ^ level n - 1) ∧
      rightmost_child n = n + (2 ^ level n - 1) ∧
      0 <= leftmost_child n <= n ∧ n <= rightmost_child n < full_size t ∧
      level (leftmost_child n) = 0 ∧ level (rightmost_child n) = 0 ∧
      ∀ m, in_subtree n m ↔ leftmost_child n <= m <= rightmost_child n.
Proof.
  intros Hsz.
  destruct (build_spec (Node := Node) items Hsz)
    as (t & Ht & Hgeo & Haug & Hsorted & Hperm & Hupd).
  exists t. split; [done|]. intros n Hn.
  destruct Hgeo as (Hrl & Hroot & Hfs & Hzero & Hpos).
  destruct (decide (vsize (nodes t) = 0)) as [Hz|Hnz]; [destruct (Hzero Hz); lia|].
  destruct Hpos as [Hr Hf]; [unfold vsize in *; lia|]. rewrite Hf in *.
  assert (2 ^ (root_level t + 1) <= 2 ^ 63) as Hpow by (apply pow2_le; lia).
  assert (2 ^ 63 < 2 ^ 64) as Hpow' by (by apply pow2_lt).
  pose proof (level_lvl n ltac:(lia)) as Hl. set (k := level n) in *.
  pose proof (lvl_bound _ _ Hl) as Hb.
  pose proof (pow2_pos k (proj1 Hl)) as Hp.
  pose proof (subtree_hi_lt n k (root_level t) Hl ltac:(lia) ltac:(lia)) as Hhi.
  rewrite (leftmost_child_lvl n k), (rightmost_child_lvl n k) by (done || lia).
  do 2 (split; [done|]). split; [lia|]. split; [lia|].
  split; [apply lvl_level; [lia|by apply leftmost_lvl]|].
  split; [apply lvl_level; [lia|by apply rightmost_lvl]|].
  intros m. apply in_subtree_range; [done|lia].
Qed.

(** X6. [inside_max_end] along the tree of a built index: the value of a
    node is at least its own [end] and at least the value of every real node
    of its subtree, so a node whose value is not above [qbeg] hides no item
    that ends after [qbeg]. *)
Theorem inside_max_end_monotone items :
  vsize items < 2 ^ 63 →
  ∃ t : iit_base Node,
    iit_base_ctor (builder_of_range items) = Some t ∧
    ∀ n m nd ndm, 0 <= n → in_subtree n m →
      nodes t !!r n = Some nd → nodes t !!r m = Some ndm →
      get_end (item (node_base ndm)) <= inside_max_end (node_base ndm) ∧
      inside_max_end (node_base ndm) <= inside_max_end (node_base nd).
Proof.
  intros Hsz.
  destruct (build_spec (Node := Node) items Hsz)
    as (t & Ht & Hgeo & Haug & Hsorted & Hperm & Hupd).
  exists t. split; [done|]. intros n m nd ndm Hn Hin Hnd Hndm.
  assert (vsize (nodes t) < 2 ^ 63) as Hsz'.
  { rewrite (ime_updated_vsize _ _ Hupd), std_sort_length, builder_vsize. done. }
  assert (2 ^ 63 < 2 ^ 64) as Hpow' by (by apply pow2_lt).
  pose proof (at_rank_Some _ _ _ Hnd) as Hlt.
  pose proof (level_lvl n ltac:(lia)) as Hl.
  assert (0 <= m) as Hm.
  { apply (in_subtree_range n (level n) m Hl ltac:(lia)) in Hin.
    pose proof (lvl_bound _ _ Hl). lia. }
  pose proof (at_rank_Some _ _ _ Hndm) as Hltm.
  pose proof (level_lvl m ltac:(lia)) as Hlm.
  destruct (augmented_is_max (nodes t) m (level m) ndm Haug Hlm ltac:(lia) Hndm)
    as [(m' & nd' & Hm' & Hin' & Hnd' & Hend) Hmax].
  destruct (augmented_is_max (nodes t) n (level n) nd Haug Hl ltac:(lia) Hnd)
    as [_ Hmaxn].
  split.
  - apply (Hmax m ndm Hm (in_subtree_here m) Hndm).
  - unfold node_ime in Hend. rewrite <- Hend.
    apply (Hmaxn m' nd' Hm'); [|done]. by apply (in_subtree_trans n m m').
Qed.

(** X7. [scan] of a subtree of a built index, from any rank of the tree,
    real or imaginary: it returns, and it appends to [ans], after what [ans]
    held, the items of the subtree that overlap the query, in rank order. *)
Theorem scan_subtree items (qbeg qend : Z) :
  vsize items < 2 ^ 63 →
  ∃ t : iit_base Node,
    iit_base_ctor (builder_of_range items) = Some t ∧
    ∀ n ans, 0 <= n < full_size t →
      ∃ cost,
        scan 64 (nodes t) n qbeg qend ans =
          Some (cost,
                ans ++ filter (λ x, qbeg < get_end x ∧ get_beg x < qend)
                         (node_item <$>
                            sub (leftmost_child n) (rightmost_child n) (nodes t))).
Proof.
  intros Hsz.
  destruct (build_spec (Node := Node) items Hsz)
    as (t & Ht & Hgeo & Haug & Hsorted & Hperm & Hupd).
  exists t. split; [done|]. intros n ans Hn.
  destruct Hgeo as (Hrl & Hroot & Hfs & Hzero & Hpos).
  destruct (decide (vsize (nodes t) = 0)) as [Hz|Hnz]; [destruct (Hzero Hz); lia|].
  destruct Hpos as [Hr Hf]; [unfold vsize in *; lia|]. rewrite Hf in *.
  assert (2 ^ (root_level t + 1) <= 2 ^ 63) as Hpow by (apply pow2_le; lia).
  assert (2 ^ 63 < 2 ^ 64) as Hpow' by (by apply pow2_lt).
  pose proof (level_lvl n ltac:(lia)) as Hl.
  pose proof (lvl_small n (level n) ltac:(lia) Hl) as Hk.
  rewrite (leftmost_child_lvl n (level n)), (rightmost_child_lvl n (level n))
    by (done || lia).
  destruct (scan_spec (nodes t) qbeg qend Hsorted (augmented_ime_bound _ Haug)
              64%nat (level n) n ans Hl ltac:(lia) ltac:(lia)) as [c Hc].
  exists c. exact Hc.
Qed.

End SubtreeTheorems.

Lemma subtree_ends_witness :
  vsize example_items < 2 ^ 63 ∧
  ∃ t : iit_base (iit_node_base (Z * Z * Z)),
    iit_base_ctor (builder_of_range example_items) = Some t ∧
    ∀ n, 0 <= n < full_size t →
      leftmost_child n = n - (2 ^ level n - 1) ∧
      rightmost_child n = n + (2 ^ level n - 1) ∧
      0 <= leftmost_child n <= n ∧ n <= rightmost_child n < full_size t ∧
      level (leftmost_child n) = 0 ∧ level (rightmost_child n) = 0 ∧
      ∀ m, in_subtree n m ↔ leftmost_child n <= m <= rightmost_child n.
Proof.
  split; [vm_compute; reflexivity|].
  apply (subtree_ends example_items). vm_compute; reflexivity.
Defined.

Lemma inside_max_end_monotone_witness :
  vsize example_items < 2 ^ 63 ∧
  ∃ t : iit_base (iit_node_base (Z * Z * Z)),
    iit_base_ctor (builder_of_range example_items) = Some t ∧
    ∀ n m nd ndm, 0 <= n → in_subtree n m →
      nodes t !!r n = Some nd → nodes t !!r m = Some ndm →
      get_end (item (node_base ndm)) <= inside_max_end (node_base ndm) ∧
      inside_max_end (node_base ndm) <= inside_max_end (node_base nd).
Proof.
  split; [vm_compute; reflexivity|].
  apply (inside_max_end_monotone example_items). vm_compute; reflexivity.
Defined.

Lemma scan_subtree_witness :
  vsize example_items < 2 ^ 63 ∧
  ∃ t : iit_base (iit_node_base (Z * Z * Z)),
    iit_base_ctor (builder_of_range example_items) = Some t ∧
    ∀ n ans, 0 <= n < full_size t →
      ∃ cost,
        scan 64 (nodes t) n 15 25 ans =
          Some (cost,
                ans ++ filter (λ x, 15 < get_end x ∧ get_beg x < 25)
                         (node_item <$>
                            sub (leftmost_child n) (rightmost_child n) (nodes t))).
Proof.
  split; [vm_compute; reflexivity|].
  apply (scan_subtree example_items 15 25). vm_compute; reflexivity.
Defined.

(** ** The order and the cost of a query *)

Lemma StronglySorted_filter {A} (R : relation A) (P : A → Prop)
    `{∀ x, Decision (P x)} (l : list A) :
  StronglySorted R l → StronglySorted R (filter P l).
Proof.
  induction 1 as [|x l Hl IH Hx]; [constructor|].
  rewrite filter_cons. destruct (decide (P x)); [|done].
  constructor; [done|]. rewrite Forall_forall in *.
  intros y Hy%list_elem_of_filter. apply Hx, Hy.
Qed.

Section QueryTheorems.
Context {Item : Type} `{NodeType Item Node}.
Implicit Types (items : list Item) (v : list Node).

(** The cost of a scan: what a child of a rank of level [k] costs. *)
Lemma scan_cost v qbeg qend fuel :
  ∀ k n ans c a, lvl n k → n < 2 ^ 63 - 1 →
    scan fuel v n qbeg qend ans = Some (c, a) →
    1 <= c <= 2 ^ (k + 1) - 1 ∧
    Z.of_nat (length a) <= Z.of_nat (length ans) + c.
Proof.
  induction fuel as [|fuel IH]; intros k n ans c a Hk Hn Hscan.
  { simpl in Hscan. destruct (Z.eqb_spec n nrank) as [->|_]; [|done].
    pose proof (lvl_range _ _ Hn Hk). unfold nrank in *. lia. }
  pose proof (lvl_range _ _ Hn Hk) as Hr.
  pose proof (subtree_hi_small _ _ Hn Hk) as Hhi.
  assert (0 <= k) as Hk0 by apply Hk. pose proof (pow2_pos k Hk0) as Hp.
  pose proof (lvl_small _ _ Hn Hk) as Hks.
  pose proof (pow2_le (k + 1) 63 ltac:(lia)) as Hp63.
  assert (2 ^ 63 < 2 ^ 64) as Hpow' by (by apply pow2_lt).
  rewrite pow2_succ in * by lia.
  assert (∀ ch ans' c' a', ch = left n ∨ ch = right n →
            scan fuel v ch qbeg qend ans' = Some (c', a') →
            0 <= c' <= 2 ^ k - 1 ∧
            Z.of_nat (length a') <= Z.of_nat (length ans') + c') as Hchild.
  { intros ch ans' c' a' Hch Hs. destruct (decide (k = 0)) as [->|Hkpos].
    - assert (ch = nrank) as ->.
      { destruct Hch as [->| ->]; [by apply left_leaf|by apply right_leaf]. }
      rewrite scan_nrank in Hs. simplify_eq. change (2 ^ 0) with 1. lia.
    - destruct (left_lvl n k) as [Hle Hll]; [done|done|lia|].
      destruct (right_lvl n k) as [Hre Hrl]; [done|done|lia|].
      pose proof (pow2_pred k ltac:(lia)) as Hpk.
      pose proof (pow2_pos (k - 1) ltac:(lia)) as Hp1.
      assert (lvl ch (k - 1) ∧ ch < 2 ^ 63 - 1) as [Hcl Hcn].
      { destruct Hch as [->| ->]; (split; [done|lia]). }
      destruct (IH (k - 1) ch ans' c' a' Hcl Hcn Hs) as [Hc Hlen].
      replace (k - 1 + 1) with k in Hc by lia. lia. }
  simpl in Hscan. destruct (Z.eqb_spec n nrank) as [->|_]; [unfold nrank in *; lia|].
  destruct (v !!r n) as [nd|] eqn:Hnd.
  - destruct (qbeg <? node_ime nd); [|simplify_eq; lia].
    destruct (scan fuel v (left n) qbeg qend ans) as [[c1 a1]|] eqn:Hs1; [|done].
    cbn [mbind option_bind] in Hscan.
    destruct (Hchild _ _ _ _ (or_introl eq_refl) Hs1) as [Hc1 Hl1].
    destruct (node_beg nd <? qend).
    + match type of Hscan with
      | context [scan fuel v (right n) qbeg qend ?x] =>
          destruct (scan fuel v (right n) qbeg qend x) as [[c2 a2]|] eqn:Hs2; [|done];
          assert (Z.of_nat (length x) <= Z.of_nat (length a1) + 1) as Hx
      end.
      { destruct (qbeg <? node_end nd); [rewrite length_app; simpl|]; lia. }
      cbn [mbind option_bind] in Hscan.
      destruct (Hchild _ _ _ _ (or_intror eq_refl) Hs2) as [Hc2 Hl2].
      rewrite (add64_small 1 c1) in Hscan by lia.
      rewrite add64_small in Hscan by lia. simplify_eq.
      clear IH Hchild Hs1 Hs2 Hnd. split; lia.
    + rewrite add64_small in Hscan by lia. simplify_eq.
      clear IH Hchild Hs1 Hnd. split; lia.
  - destruct (scan fuel v (left n) qbeg qend ans) as [[c1 a1]|] eqn:Hs1; [|done].
    cbn [mbind option_bind] in Hscan.
    destruct (Hchild _ _ _ _ (or_introl eq_refl) Hs1) as [Hc1 Hl1].
    rewrite add64_small in Hscan by lia. simplify_eq.
    clear IH Hchild Hs1 Hnd. split; lia.
Qed.

(** The cost of the query from the root. *)
Lemma iit_base_overlap_cost (t : iit_base Node) qbeg qend ans0 k c a :
  lvl (root t) k → root t < 2 ^ 63 - 1 →
  iit_base_overlap t qbeg qend ans0 = Some (c, a) →
  1 <= c <= 2 ^ (k + 1) - 1 ∧ vsize a <= c.
Proof.
  intros Hl Hlt. unfold iit_base_overlap.
  intros Hc%(scan_cost _ _ _ _ k); [|done..].
  unfold vsize. simpl in Hc. lia.
Qed.

(** X8. The items that a query returns come in the order of the node array:
    by [beg], ties by [end]. *)
Theorem overlap_result_sorted items (qbeg qend : Z) (ans0 : list Item) :
  vsize items < 2 ^ 63 →
  ∃ (t : iit_base Node) cost ans,
    iit_base_ctor (builder_of_range items) = Some t ∧
    iit_base_overlap t qbeg qend ans0 = Some (cost, ans) ∧
    StronglySorted
      (λ a b, get_beg a < get_beg b ∨ (get_beg a = get_beg b ∧ get_end a <= get_end b))
      ans.
Proof.
  intros Hsz.
  destruct (build_spec (Node := Node) items Hsz)
    as (t & Ht & Hgeo & Haug & Hsorted & Hperm & Hupd).
  destruct (iit_base_overlap_spec t qbeg qend ans0 Hgeo Hsorted
              (augmented_ime_bound _ Haug)) as [c Hc].
  exists t, c, (overlapping qbeg qend (nodes t)). do 2 (split; [done|]).
  unfold overlapping. apply StronglySorted_filter.
  rewrite (ime_updated_items _ _ Hupd).
  apply (StronglySorted_fmap _ node_le); [|apply std_sort_sorted].
  intros x y Hxy. by apply node_le_spec in Hxy.
Qed.

(** X9. The cost of a query on an index of at least one item: at least 1
    (the root is always visited), at most the number of ranks of the full
    tree, and at least the number of items returned. *)
Theorem overlap_cost_bounds items (qbeg qend : Z) (ans0 : list Item) :
  0 < vsize items < 2 ^ 63 →
  ∃ (t : iit_base Node) cost ans,
    iit_base_ctor (builder_of_range items) = Some t ∧
    iit_base_overlap t qbeg qend ans0 = Some (cost, ans) ∧
    1 <= cost <= full_size t ∧ vsize ans <= cost.
Proof.
  intros Hsz.
  destruct (build_spec (Node := Node) items ltac:(lia))
    as (t & Ht & Hgeo & Haug & Hsorted & Hperm & Hupd).
  destruct (iit_base_overlap_spec t qbeg qend ans0 Hgeo Hsorted
              (augmented_ime_bound _ Haug)) as [c Hc].
  exists t, c, (overlapping qbeg qend (nodes t)). do 2 (split; [done|]).
  assert (vsize (nodes t) = vsize items) as Hn.
  { rewrite (ime_updated_vsize _ _ Hupd), std_sort_length, builder_vsize. done. }
  destruct Hgeo as (Hrl & Hroot & Hfs & Hzero & Hpos).
  destruct Hpos as [Hr Hf]; [lia|].
  assert (2 ^ root_level t < 2 ^ 63) as Hpow by (apply pow2_lt; lia).
  assert (root t < 2 ^ 63 - 1) as Hlt by lia.
  assert (lvl (root t) (root_level t)) as Hlvl by (rewrite Hroot; apply lvl_root; lia).
  rewrite Hf. exact (iit_base_overlap_cost t qbeg qend ans0 _ _ _ Hlvl Hlt Hc).
Qed.

End QueryTheorems.

Lemma overlap_result_sorted_witness :
  vsize example_items < 2 ^ 63 ∧
  ∃ (t : iit_base (iit_node_base (Z * Z * Z))) cost ans,
    iit_base_ctor (builder_of_range example_items) = Some t ∧
    iit_base_overlap t 15 25 [] = Some (cost, ans) ∧
    StronglySorted
      (λ a b, get_beg a < get_beg b ∨ (get_beg a = get_beg b ∧ get_end a <= get_end b))
      ans.
Proof.
  split; [vm_compute; reflexivity|].
  apply (overlap_result_sorted example_items 15 25 []). vm_compute; reflexivity.
Defined.

Lemma overlap_cost_bounds_witness :
  0 < vsize example_items < 2 ^ 63 ∧
  ∃ (t : iit_base (iit_node_base (Z * Z * Z))) cost ans,
    iit_base_ctor (builder_of_range example_items) = Some t ∧
    iit_base_overlap t 15 25 [] = Some (cost, ans) ∧
    1 <= cost <= full_size t ∧ vsize ans <= cost.
Proof.
  split; [split; vm_compute; reflexivity|].
  apply (overlap_cost_bounds example_items 15 25 []). split; vm_compute; reflexivity.
Defined.

(** ** The state of a built [iitii] *)

Section IitiiState.
Context {Item : Type} `{Interval Item} `{PosType} `{FloatOps}.
Implicit Types (items : list Item) (t : iitii Item).

Lemma iitii_build_domains items d t :
  vsize items < 2 ^ 63 → iitii_build (builder_of_range items) d = Some t →
  domains t = Z.max 1 (wrap 32 d) ∧ 1 <= domains t < 2 ^ 32.
Proof.
  intros Hsz Ht. unfold iitii_build in Ht.
  destruct (iitii_ctor_pre (builder_of_range items) (wrap 32 d))
    as (t1 & Hok & Hperm & Hd & Hp & Hq & Hc & Heq);
    [by rewrite builder_vsize|apply builder_fresh|apply builder_fresh_outside|].
  rewrite Heq in Ht. pose proof (wrap_range 32 d ltac:(lia)) as Hw.
  assert (domains t = domains t1) as ->.
  { destruct (vsize _ =? 0); [by simplify_eq|].
    destruct (train t1 0) as [params|]; [|done]. rewrite bind_Some in Ht.
    by simplify_eq. }
  rewrite Hd. split; [done|]. lia.
Qed.

(** X10. What [build] leaves in an [iitii]: the items given to the builder,
    each once; the number of domains asked for, reduced to [unsigned] and
    raised to 1 when it is 0; both counters at 0; three parameters for each
    domain when that number fits [unsigned]; and only parameters that are
    not finite when there is no item. *)
Theorem iitii_build_state items d t :
  vsize items < 2 ^ 63 → iitii_build (builder_of_range items) d = Some t →
  item <$> (iitii_base <$> nodes (base t)) ≡ₚ items ∧
  vsize (nodes (base t)) = vsize items ∧
  domains t = Z.max 1 (d mod 2 ^ 32) ∧
  queries t = 0 ∧ total_climb_cost t = 0 ∧
  (3 * domains t < 2 ^ 32 → vsize (parameters t) = 3 * domains t) ∧
  (items = [] → Forall (λ p, f_isfinite p = false) (parameters t)).
Proof.
  intros Hsz Ht.
  destruct (iitii_build_sound items d t Hsz Ht) as (Hok & Hperm & Hq & Hc).
  destruct (iitii_build_domains items d t Hsz Ht) as [Hd Hdr].
  assert (vsize (nodes (base t)) = vsize items) as Hn.
  { unfold vsize. apply Permutation_length in Hperm. rewrite length_fmap in Hperm.
    by rewrite Hperm. }
  split; [by rewrite <- list_fmap_compose|]. split; [done|]. split; [exact Hd|].
  do 2 (split; [done|]). split.
  - intros Hd3.
    destruct (iitii_build_total items d Hsz) as (t' & Ht' & Hpar); [by rewrite <- Hd|].
    assert (t' = t) as -> by congruence. apply Hpar.
  - intros ->. destruct Hok as (_ & _ & _ & _ & _ & Hempty). apply Hempty.
    by rewrite Hn.
Qed.

(** X11. [which_domain] on a built index: the domain of any position is
    below the number of domains, as [predict_leaf] asserts, and a position
    before the least [beg] is in domain 0. *)
Theorem which_domain_in_range items d t (beg : Z) :
  vsize items < 2 ^ 63 → iitii_build (builder_of_range items) d = Some t →
  0 <= which_domain (domains t) (domain_size t) (min_beg t) beg < domains t ∧
  (beg < min_beg t →
   which_domain (domains t) (domain_size t) (min_beg t) beg = 0).
Proof.
  intros Hsz Ht.
  destruct (iitii_build_domains items d t Hsz Ht) as [_ Hdr].
  pose proof (which_domain_range (domains t) (domain_size t) (min_beg t) beg Hdr).
  split; [lia|]. intros Hlt. unfold which_domain.
  by destruct (Z.ltb_spec beg (min_beg t)); [|lia].
Qed.

End IitiiState.

Lemma iitii_build_state_witness :
  vsize example_items7 < 2 ^ 63 ∧
  iitii_build (builder_of_range example_items7) 2 = Some example_index ∧
  item <$> (iitii_base <$> nodes (base example_index)) ≡ₚ example_items7 ∧
  vsize (nodes (base example_index)) = vsize example_items7 ∧
  domains example_index = Z.max 1 (2 mod 2 ^ 32) ∧
  queries example_index = 0 ∧ total_climb_cost example_index = 0 ∧
  (3 * domains example_index < 2 ^ 32 →
   vsize (parameters example_index) = 3 * domains example_index) ∧
  (example_items7 = [] →
   Forall (λ p, f_isfinite p = false) (parameters example_index)).
Proof.
  split; [vm_compute; reflexivity|]. split; [vm_compute; reflexivity|].
  apply (iitii_build_state example_items7 2 example_index).
  - vm_compute; reflexivity.
  - vm_compute; reflexivity.
Defined.

Lemma which_domain_in_range_witness :
  vsize example_items7 < 2 ^ 63 ∧
  iitii_build (builder_of_range example_items7) 2 = Some example_index ∧
  0 <= which_domain (domains example_index) (domain_size example_index)
         (min_beg example_index) 41 < domains example_index ∧
  (41 < min_beg example_index →
   which_domain (domains example_index) (domain_size example_index)
     (min_beg example_index) 41 = 0).
Proof.
  split; [vm_compute; reflexivity|]. split; [vm_compute; reflexivity|].
  apply (which_domain_in_range example_items7 2 example_index).
  - vm_compute; reflexivity.
  - vm_compute; reflexivity.
Defined.

(** ** Training *)

Section Training.
Context {Item : Type} `{Interval Item} `{PosType} `{FloatOps}.
Implicit Types (items : list Item) (t : iitii Item).

Local Arguments which_domain : simpl never.
Local Arguments regress : simpl never.
Local Arguments mean_absolute_residual : simpl never.

(** Every training point of a domain comes from a node of even rank whose
    [beg] is in the domain. *)
Lemma train_points_from_nodes t :
  vsize (nodes (base t)) < 2 ^ 63 → 1 <= domains t < 2 ^ 32 →
  ∃ points, train_points t 0 = Some points ∧ vsize points = domains t ∧
    ∀ w pts pt, 0 <= w → points !!r w = Some pts → pt ∈ pts →
      ∃ r nd, 0 <= r ∧ r mod 2 = 0 ∧ nodes (base t) !!r r = Some nd ∧
        which_domain (domains t) (domain_size t) (min_beg t) (node_beg nd) = w.
Proof.
  intros Hsz Hd. unfold train_points.
  rewrite (add64_small 0 1), !shl64_one, sub64_small by (simpl; lia).
  change (2 ^ 0 - 1) with 0. change (2 ^ (0 + 1)) with 2.
  while_inv
    (λ '((r, ofs, points) : Z * Z * list (list (Z * Z))),
       0 <= r ∧ r mod 2 = 0 ∧ vsize points = domains t ∧
       ∀ w pts pt, 0 <= w → points !!r w = Some pts → pt ∈ pts →
         ∃ r' nd, 0 <= r' ∧ r' mod 2 = 0 ∧ nodes (base t) !!r r' = Some nd ∧
           which_domain (domains t) (domain_size t) (min_beg t) (node_beg nd) = w)
    (λ '((r, _, _) : Z * Z * list (list (Z * Z))),
       Z.to_nat (vsize (nodes (base t)) - r)).
  - split; [lia|]. split; [done|]. split.
    + unfold vsize. rewrite length_replicate. lia.
    + intros w pts pt _ Hpts Hpt. unfold at_rank in Hpts.
      apply lookup_replicate in Hpts as [-> _]. by apply elem_of_nil in Hpt.
  - unfold vsize. lia.
  - intros [[r ofs] points] (Hr & Hev & Hlen & Hinv). eexists. split; [done|].
    intros Hlt%Z.ltb_lt.
    destruct (at_rank_lt (nodes (base t)) r) as [nd Hnd]; [lia|]. rewrite Hnd. simpl.
    pose proof (which_domain_range (domains t) (domain_size t) (min_beg t)
                  (node_beg nd) Hd) as Hw.
    destruct (at_rank_lt points
                (which_domain (domains t) (domain_size t) (min_beg t) (node_beg nd)))
      as [pts Hpts]; [lia|]. rewrite Hpts. simpl.
    eexists. split; [done|]. rewrite add64_small by lia.
    split; [|lia]. split; [lia|]. split; [rewrite Z.add_mod, Hev by lia; done|].
    split; [unfold vsize in *; by rewrite length_insert|].
    intros w pts' pt Hw0 Hpts' Hpt. unfold at_rank in Hpts', Hpts.
    destruct (decide (w = which_domain (domains t) (domain_size t) (min_beg t)
                            (node_beg nd))) as [->|Hne].
    + rewrite list_lookup_insert_eq in Hpts' by (by eapply lookup_lt_Some).
      injection Hpts' as <-. apply elem_of_app in Hpt as [Hpt|Hpt].
      * by apply (Hinv _ pts pt Hw0).
      * exists r, nd. done.
    + rewrite list_lookup_insert_ne in Hpts' by lia. by apply (Hinv w pts' pt).
  - intros [[r ofs] points] (Hr & Hev & Hlen & Hinv) _. simpl. by exists points.
Qed.

(** The models: a level parameter that is finite is the level 0 that
    [train] was given, and the parameters of a domain without training point
    stay as they were. *)
Lemma train_models_levels t points :
  vsize points = domains t → 1 <= domains t → 3 * domains t < 2 ^ 32 →
  vsize (parameters t) = 3 * domains t →
  Forall (λ p, f_isfinite p = false) (parameters t) →
  ∃ params, train_models t 0 points = Some params ∧
    vsize params = 3 * domains t ∧
    ∀ w x, 0 <= w < domains t → params !!r (3 * w + 2) = Some x →
      (f_isfinite x = false ∨ x = f_of_Z 0) ∧
      (d_isfinite d_nan = false → points !!r w = Some [] → f_isfinite x = false).
Proof.
  intros Hpts Hd Hd3 Hlen Hall. unfold train_models.
  while_inv
    (λ '((which, params) : Z * list flt),
       0 <= which <= domains t ∧ vsize params = 3 * domains t ∧
       ∀ w x, 0 <= w < domains t → params !!r (3 * w + 2) = Some x →
         (f_isfinite x = false ∨ x = f_of_Z 0) ∧
         (d_isfinite d_nan = false → points !!r w = Some [] → f_isfinite x = false))
    (λ '((which, _) : Z * list flt), Z.to_nat (domains t - which)).
  - split; [lia|]. split; [done|]. intros w x Hw Hx.
    rewrite Forall_forall in Hall. unfold at_rank in Hx.
    apply list_elem_of_lookup_2 in Hx. specialize (Hall x Hx). by split; [left|].
  - lia.
  - intros [which params] (Hw & Hp & Hinv). eexists. split; [done|].
    intros Hlt%Z.ltb_lt.
    destruct (at_rank_lt points which) as [pts Hp']; [lia|]. rewrite Hp'. simpl.
    rewrite !(wrap_small 32) by lia.
    assert (∃ params',
      (if d_isfinite (regress pts).1 && d_isfinite (regress pts).2 &&
          d_leb (mean_absolute_residual pts (regress pts).1 (regress pts).2)
                (d_of_Z (1 ≪ (root_level (base t) / 2)))
       then
         params0 ← vset params (3 * which) (f_of_d (regress pts).1);
         params1 ← vset params0 (3 * which + 1) (f_of_d (regress pts).2);
         vset params1 (3 * which + 2) (f_of_Z 0)
       else Some params) = Some params' ∧ vsize params' = 3 * domains t ∧
       ∀ w x, 0 <= w < domains t → params' !!r (3 * w + 2) = Some x →
         (f_isfinite x = false ∨ x = f_of_Z 0) ∧
         (d_isfinite d_nan = false → points !!r w = Some [] → f_isfinite x = false))
      as (params' & -> & Hp'' & Hinv').
    { destruct (d_isfinite (regress pts).1) eqn:Hfin;
        [|exists params; by rewrite !andb_false_l].
      rewrite andb_true_l.
      destruct (_ && _); [|by exists params].
      assert (d_isfinite d_nan = false → pts ≠ []) as Hne.
      { intros Hnan ->. unfold regress in Hfin. simpl in Hfin. congruence. }
      unfold vset.
      destruct (Z.ltb_spec (3 * which) (vsize params)); [|lia]. rewrite bind_Some.
      destruct (Z.ltb_spec (3 * which + 1)
                  (vsize (<[Z.to_nat (3 * which):=f_of_d (regress pts).1]> params)));
        [|unfold vsize in *; rewrite length_insert in *; lia].
      rewrite bind_Some.
      match goal with |- context [Z.ltb ?a ?b] => destruct (Z.ltb_spec a b) end;
        [|unfold vsize in *; rewrite !length_insert in *; lia].
      eexists. split; [done|].
      split; [unfold vsize in *; by rewrite !length_insert|].
      intros w x Hw' Hx. unfold at_rank in Hx.
      destruct (decide (w = which)) as [->|Hwne].
      - rewrite list_lookup_insert_eq in Hx
          by (unfold vsize in *; rewrite !length_insert; lia).
        injection Hx as <-. split; [by right|]. intros Hnan Hnil.
        specialize (Hne Hnan). congruence.
      - rewrite !list_lookup_insert_ne in Hx by lia. by apply Hinv. }
    simpl. eexists. split; [done|]. split; [|lia]. split; [lia|]. by split.
  - intros [which params] (Hw & Hp & Hinv) _. simpl. by exists params.
Qed.

End Training.

(** ** Predictions *)

(** The rank that [predict_leaf] computes for level 0 is even. *)
Lemma leaf_rank_even ofs :
  ∃ m, 0 <= m < 2 ^ 63 ∧
    sub64 (mul64 (shl64 1 0) (add64 (mul64 2 ofs) 1)) 1 = 2 * m.
Proof.
  exists (ofs mod 2 ^ 63).
  pose proof (Z.mod_pos_bound ofs (2 ^ 63) ltac:(lia)) as Hm.
  split; [done|].
  assert (mul64 2 ofs = 2 * (ofs mod 2 ^ 63)) as ->.
  { unfold mul64, wrap. change (2 ^ 64) with (2 * 2 ^ 63).
    by rewrite Z.mul_mod_distr_l by lia. }
  assert (2 ^ 64 = 2 * 2 ^ 63) as Hp by done.
  rewrite add64_small by lia.
  assert (shl64 1 0 = 1) as -> by done.
  unfold mul64. rewrite Z.mul_1_l, wrap_small by lia.
  rewrite sub64_small by lia. lia.
Qed.

Section Predictions.
Context {Item : Type} `{Interval Item} `{PosType} `{FloatOps}.
Implicit Types (items : list Item) (t : iitii Item).

Local Arguments which_domain : simpl never.
Local Arguments predict_leaf : simpl never.
Local Arguments iit_base_overlap : simpl never.
Local Arguments train_points : simpl never.
Local Arguments train_models : simpl never.

(** The parameters of a built index, when three times the number of domains
    fits [unsigned]. *)
Lemma iitii_build_levels items d :
  vsize items < 2 ^ 63 → 3 * Z.max 1 (wrap 32 d) < 2 ^ 32 →
  ∃ t, iitii_build (builder_of_range items) d = Some t ∧
    params_ok t ∧ iitii_ok t ∧
    ∀ w x, 0 <= w < domains t → parameters t !!r (3 * w + 2) = Some x →
      (f_isfinite x = false ∨ x = f_of_Z 0) ∧
      (d_isfinite d_nan = false →
       (∀ r nd, 0 <= r → r mod 2 = 0 → nodes (base t) !!r r = Some nd →
          which_domain (domains t) (domain_size t) (min_beg t) (node_beg nd) ≠ w) →
       f_isfinite x = false).
Proof.
  intros Hsz Hd3.
  destruct (iitii_build_total items d Hsz Hd3) as (t & Ht & Hpar).
  destruct (iitii_build_sound items d t Hsz Ht) as (Hok & _).
  exists t. do 3 (split; [done|]).
  unfold iitii_build in Ht.
  destruct (iitii_ctor_pre (builder_of_range items) (wrap 32 d))
    as (t1 & Hok1 & Hperm & Hd & Hp & Hq & Hc & Heq);
    [by rewrite builder_vsize|apply builder_fresh|apply builder_fresh_outside|].
  rewrite Heq in Ht. pose proof (wrap_range 32 d ltac:(lia)) as Hw.
  assert (Forall (λ p, f_isfinite p = false) (parameters t1)) as Hall.
  { rewrite Hp. apply Forall_replicate. apply f_isfinite_nan. }
  destruct (vsize _ =? 0).
  - assert (t = t1) as -> by congruence. intros w x Hw' Hx.
    rewrite Forall_forall in Hall. unfold at_rank in Hx.
    apply list_elem_of_lookup_2 in Hx. specialize (Hall x Hx). by split; [left|].
  - unfold train in Ht.
    assert (vsize (parameters t1) = 3 * domains t1) as Hlen1.
    { rewrite Hd, Hp. unfold vsize.
      rewrite length_replicate, (wrap_small 32) by lia. lia. }
    destruct (train_points_from_nodes t1) as (points & Hpts & Hplen & Hfrom);
      [by destruct Hok1|lia|].
    rewrite Hpts, bind_Some in Ht.
    destruct (train_models_levels t1 points) as (params & Hm & Hmlen & Hlev);
      [done|lia|lia|done|done|].
    rewrite Hm, bind_Some in Ht. injection Ht as <-.
    cbn [with_parameters parameters domains domain_size min_beg base].
    intros w x Hw' Hx. destruct (Hlev w x Hw' Hx) as [Hfin Hnil].
    split; [done|]. intros Hnan Hnone. apply Hnil; [done|].
    destruct (at_rank_lt points w) as [pts Hpw]; [lia|]. rewrite Hpw. f_equal.
    destruct pts as [|pt pts]; [done|]. exfalso.
    destruct (Hfrom w (pt :: pts) pt ltac:(lia) Hpw ltac:(left))
      as (r & nd & Hr & Hev & Hnd & Hwd).
    by apply (Hnone r nd).
Qed.

(** X12. [predict_leaf] on a built index, when three times the number of
    domains fits [unsigned] and the level 0 survives its storage as a
    [float]: it returns, and what it returns is [nrank] or the rank of a real
    node of level 0, as [overlap] asserts. *)
Theorem prediction_is_real_leaf items d :
  f_to_Z (f_of_Z 0) = 0 →
  vsize items < 2 ^ 63 → 3 * Z.max 1 (wrap 32 d) < 2 ^ 32 →
  ∃ t, iitii_build (builder_of_range items) d = Some t ∧
    ∀ qbeg, ∃ p, predict_leaf t qbeg = Some p ∧
      (p = nrank ∨ (0 <= p < vsize (nodes (base t)) ∧ level p = 0)).
Proof.
  intros Hfz Hsz Hd3.
  destruct (iitii_build_levels items d Hsz Hd3) as (t & Ht & Hpar & Hok & Hlev).
  exists t. split; [done|]. intros qbeg.
  destruct Hpar as (Hd1 & Hd3' & Hlen).
  pose proof (which_domain_range (domains t) (domain_size t) (min_beg t) qbeg
                ltac:(lia)) as Hw.
  unfold predict_leaf. cbv zeta.
  set (which := which_domain _ _ _ _) in *.
  rewrite !(wrap_small 32) by lia.
  destruct (at_rank_lt (parameters t) (3 * which + 2)) as [lv_f Hlv]; [lia|].
  rewrite Hlv, bind_Some.
  destruct (f_isfinite lv_f) eqn:Hfin; cbn [negb]; [|eexists; split; [done|by left]].
  destruct (Hlev which lv_f ltac:(lia) Hlv) as [[Hnf| ->] _]; [congruence|].
  destruct (at_rank_lt (parameters t) (3 * which)) as [p0 Hp0]; [lia|].
  destruct (at_rank_lt (parameters t) (3 * which + 1)) as [p1 Hp1]; [lia|].
  rewrite Hp0, bind_Some, Hp1, bind_Some.
  eexists. split; [done|]. right.
  rewrite Hfz. assert (wrap 64 0 = 0) as -> by done.
  destruct (leaf_rank_even (wrap 64 (f_to_Z (f_max f_zero
              (f_round (f_add p0 (f_mul p1 (f_of_Z qbeg)))))))) as (m & Hm & ->).
  assert (2 ^ 63 < 2 ^ 64) as Hpow by done.
  destruct Hok as (Hsz' & _ & _ & _ & _ & Hempty).
  destruct (Z.ltb_spec (2 * m) (vsize (nodes (base t)))) as [Hlt|Hge].
  - split; [lia|]. apply lvl_level; [lia|]. split; [done|]. exists m.
    change (2 ^ 0) with 1. lia.
  - assert (0 < vsize (nodes (base t))) as Hpos.
    { destruct (decide (vsize (nodes (base t)) = 0)) as [Hz|]; [|unfold vsize in *; lia].
      specialize (Hempty Hz). rewrite Forall_forall in Hempty. unfold at_rank in Hlv.
      apply list_elem_of_lookup_2 in Hlv. specialize (Hempty _ Hlv). congruence. }
    destruct (rightmost_leaf_spec (vsize (nodes (base t)))) as [Hl Hr]; [lia|].
    unfold rightmost_leaf in *. pose proof (lvl_nonneg _ _ Hl).
    split; [lia|]. apply lvl_level; [lia|done].
Qed.

(** X13. A domain without training point: when no real node of even rank
    has its [beg] in the domain of [qbeg], the parameters of that domain are
    still NaN after [build], [predict_leaf] makes no prediction, and the
    query is the scan from the root, which leaves the index as it is. *)
Theorem untrained_domain_falls_back items d :
  d_isfinite d_nan = false →
  vsize items < 2 ^ 63 → 3 * Z.max 1 (wrap 32 d) < 2 ^ 32 →
  ∃ t, iitii_build (builder_of_range items) d = Some t ∧
    ∀ qbeg qend ans0,
      (∀ r nd, 0 <= r → level r = 0 → nodes (base t) !!r r = Some nd →
         which_domain (domains t) (domain_size t) (min_beg t)
           (get_beg (item (iitii_base nd)))
         ≠ which_domain (domains t) (domain_size t) (min_beg t) qbeg) →
      predict_leaf t qbeg = Some nrank ∧
      ∃ cost ans,
        iit_base_overlap (base t) qbeg qend ans0 = Some (cost, ans) ∧
        iitii_overlap t qbeg qend ans0 = Some (cost, ans, t).
Proof.
  intros Hnan Hsz Hd3.
  destruct (iitii_build_levels items d Hsz Hd3) as (t & Ht & Hpar & Hok & Hlev).
  exists t. split; [done|]. intros qbeg qend ans0 Hnone.
  destruct (predict_leaf_total t qbeg Hpar) as (p & Hp).
  destruct (predict_leaf_spec t qbeg p Hok Hp) as (lv_f & Hlv & Hnf & Hfin).
  destruct Hpar as (Hd1 & Hd3' & Hlen).
  pose proof (which_domain_range (domains t) (domain_size t) (min_beg t) qbeg
                ltac:(lia)) as Hw.
  rewrite (wrap_small 32) in Hlv by lia.
  assert (0 <= which_domain (domains t) (domain_size t) (min_beg t) qbeg < domains t)
    as Hw' by lia.
  destruct (Hlev _ lv_f Hw' Hlv) as [_ Hun].
  assert (f_isfinite lv_f = false) as Hnotfin.
  { apply Hun; [done|]. intros r nd Hr Hev Hnd. apply (Hnone r nd Hr); [|done].
    destruct Hok as (Hsz' & _). pose proof (at_rank_Some _ _ _ Hnd).
    assert (2 ^ 63 < 2 ^ 64) as Hpow by done.
    apply lvl_level; [lia|]. split; [done|]. exists (r `div` 2).
    change (2 ^ 0) with 1. pose proof (Z.div_mod r 2 ltac:(lia)).
    split; [apply Z.div_pos; lia|lia]. }
  assert (p = nrank) as -> by (by apply Hnf).
  split; [done|].
  destruct (iitii_overlap_spec t qbeg qend ans0 nrank Hok Hp) as [Hq _].
  destruct (Hq eq_refl) as (c & Hq1 & Hq2). by eexists _, _.
Qed.

End Predictions.

Lemma prediction_is_real_leaf_witness :
  f_to_Z (f_of_Z 0) = 0 ∧ vsize example_items7 < 2 ^ 63 ∧
  3 * Z.max 1 (wrap 32 2) < 2 ^ 32 ∧
  ∃ t, iitii_build (builder_of_range example_items7) 2 = Some t ∧
    ∀ qbeg, ∃ p, predict_leaf t qbeg = Some p ∧
      (p = nrank ∨ (0 <= p < vsize (nodes (base t)) ∧ level p = 0)).
Proof.
  split; [vm_compute; reflexivity|]. split; [vm_compute; reflexivity|].
  split; [vm_compute; reflexivity|].
  apply (prediction_is_real_leaf example_items7 2); vm_compute; reflexivity.
Defined.

Lemma untrained_domain_falls_back_witness :
  d_isfinite d_nan = false ∧ vsize example_items3 < 2 ^ 63 ∧
  3 * Z.max 1 (wrap 32 3) < 2 ^ 32 ∧
  iitii_build (builder_of_range example_items3) 3 = Some example_index3 ∧
  (∀ r nd, 0 <= r → level r = 0 → nodes (base example_index3) !!r r = Some nd →
     which_domain (domains example_index3) (domain_size example_index3)
       (min_beg example_index3) (get_beg (item (iitii_base nd)))
     ≠ which_domain (domains example_index3) (domain_size example_index3)
         (min_beg example_index3) 50) ∧
  predict_leaf example_index3 50 = Some nrank ∧
  ∃ cost ans,
    iit_base_overlap (base example_index3) 50 60 [] = Some (cost, ans) ∧
    iitii_overlap example_index3 50 60 [] = Some (cost, ans, example_index3).
Proof.
  assert (d_isfinite d_nan = false) as Hnan by (vm_compute; reflexivity).
  assert (vsize example_items3 < 2 ^ 63) as Hsz by (vm_compute; reflexivity).
  assert (3 * Z.max 1 (wrap 32 3) < 2 ^ 32) as Hd by (vm_compute; reflexivity).
  assert (iitii_build (builder_of_range example_items3) 3 = Some example_index3)
    as Hbuild by (vm_compute; reflexivity).
  assert (∀ r nd, 0 <= r → level r = 0 →
            nodes (base example_index3) !!r r = Some nd →
            which_domain (domains example_index3) (domain_size example_index3)
              (min_beg example_index3) (get_beg (item (iitii_base nd)))
            ≠ which_domain (domains example_index3) (domain_size example_index3)
                (min_beg example_index3) 50) as Hpremise.
  { intros r nd Hr Hlev Hnd. pose proof (at_rank_Some _ _ _ Hnd) as Hlt.
    change (vsize (nodes (base example_index3))) with 3 in Hlt.
    assert (r = 0 ∨ r = 1 ∨ r = 2) as [->|[->| ->]] by lia.
    - vm_compute in Hnd. injection Hnd as <-. vm_compute. intros Heq; discriminate Heq.
    - vm_compute in Hlev. discriminate Hlev.
    - vm_compute in Hnd. injection Hnd as <-. vm_compute. intros Heq; discriminate Heq. }
  do 4 (split; [done|]). split; [exact Hpremise|].
  destruct (untrained_domain_falls_back example_items3 3 Hnan Hsz Hd)
    as (t & Ht & Hall).
  assert (t = example_index3) as -> by congruence.
  exact (Hall 50 60 [] Hpremise).
Defined.

(** ** The climb *)

Section Climb.
Context {Item : Type} `{Interval Item} `{PosType} `{FloatOps}.
Implicit Types (items : list Item) (t : iitii Item).

Local Arguments outside_min_beg : simpl never.
Local Arguments scan : simpl never.
Local Arguments climb : simpl never.
Local Arguments iit_base_overlap : simpl never.
Local Arguments predict_leaf : simpl never.

(** Each step of the climb goes one level up inside the tree. *)
Lemma climb_steps_level t qbeg qend p k s :
  0 <= root_level (base t) <= 62 → root (base t) = 2 ^ root_level (base t) - 1 →
  climb_steps t qbeg qend p k s →
  ∀ kp, lvl p kp → p < 2 ^ (root_level (base t) + 1) - 1 →
    lvl s (kp + Z.of_nat k) ∧ s < 2 ^ (root_level (base t) + 1) - 1.
Proof.
  intros Hh Hroot. induction 1 as [s Hg|s k s' Hg Hsteps IH]; intros kp Hkp Hp.
  - by rewrite Z.add_0_r.
  - assert (2 ^ (root_level (base t) + 1) <= 2 ^ 63) as Hpow by (apply pow2_le; lia).
    assert (s ≠ root (base t)) as Hne.
    { intros ->. unfold climb_guard in Hg. by rewrite Z.eqb_refl in Hg. }
    destruct (parent_lvl (root (base t)) s kp) as [Hpl Hcase]; [lia|done|done|].
    pose proof (pow2_pos kp (proj1 Hkp)) as Hp2.
    assert (parent (root (base t)) s < 2 ^ (root_level (base t) + 1) - 1) as Hin.
    { apply (lvl_in_tree _ (kp + 1) (root_level (base t))); [done| |].
      - assert (kp <= root_level (base t))
          by (apply (lvl_le_root s); [done|lia|done]).
        destruct (decide (kp = root_level (base t))) as [->|]; [|lia].
        exfalso. apply Hne. rewrite Hroot. by apply lvl_root_unique.
      - rewrite (pow2_succ kp) by apply Hkp. lia. }
    destruct (IH (kp + 1) Hpl Hin) as [Hl Hlt].
    split; [|done]. by replace (kp + Z.of_nat (S k)) with (kp + 1 + Z.of_nat k) by lia.
Qed.

(** X14. The climb of a query with a prediction [p]: it takes [k] steps,
    each one level up, so at most [root_level - level(p)]; the query costs
    the scan of the subtree reached plus [k], and [total_climb_cost] grows
    by [k]. *)
Theorem climb_within_height items d t0 (q c qbeg qend : Z) (ans0 : list Item) p :
  vsize items < 2 ^ 63 → iitii_build (builder_of_range items) d = Some t0 →
  predict_leaf (with_counters t0 q c) qbeg = Some p → p ≠ nrank →
  ∃ s k scan_cost ans,
    climb_steps (with_counters t0 q c) qbeg qend p k s ∧
    level s = level p + Z.of_nat k ∧ level s <= root_level (base t0) ∧
    scan 64 (nodes (base t0)) s qbeg qend [] = Some (scan_cost, ans) ∧
    iitii_overlap (with_counters t0 q c) qbeg qend ans0
      = Some (scan_cost + Z.of_nat k, ans,
              with_counters t0 (add64 q 1) (add64 c (Z.of_nat k))).
Proof.
  intros Hsz Ht0 Hp Hpn. set (t := with_counters t0 q c) in *.
  destruct (iitii_build_sound items d t0 Hsz Ht0) as (Hok0 & Hperm & _ & _).
  assert (iitii_ok t) as Hok by (by apply iitii_ok_with_counters).
  destruct (predict_leaf_spec t qbeg p Hok Hp) as (lv_f & Hlv & Hnan & Hfin).
  destruct (iitii_overlap_spec t qbeg qend ans0 p Hok Hp) as [_ Hsome].
  destruct (Hsome Hpn) as (s & k & cs & Hk & Hscan & Hq).
  destruct Hok as (Hsz' & Hgeo & Haug & Hsorted & Hout & Hempty).
  destruct Hgeo as (Hrl & Hroot & Hfs & Hzero & Hpos).
  assert (0 <= p < vsize (nodes (base t))) as Hpr.
  { destruct (f_isfinite lv_f) eqn:Hf; [by destruct (Hfin eq_refl)|].
    by specialize (Hnan eq_refl). }
  destruct Hpos as [Hr Hf]; [lia|].
  assert (2 ^ (root_level (base t) + 1) <= 2 ^ 63) as Hpow by (apply pow2_le; lia).
  assert (2 ^ 63 < 2 ^ 64) as Hpow' by done.
  pose proof (level_lvl p ltac:(lia)) as Hlp. pose proof (proj1 Hlp) as Hlp0.
  destruct (climb_steps_level t qbeg qend p k s Hrl Hroot Hk (level p) Hlp ltac:(lia))
    as [Hls Hlt].
  pose proof (lvl_nonneg _ _ Hls) as Hs0.
  assert (level s = level p + Z.of_nat k) as Hlev by (apply lvl_level; [lia|done]).
  pose proof (lvl_le_root s _ (root_level (base t)) Hls ltac:(lia) Hlt) as Hle.
  pose proof (lvl_small s _ ltac:(lia) Hls) as Hsmall.
  pose proof (scan_cost (nodes (base t)) qbeg qend 64%nat (level p + Z.of_nat k) s
                [] cs (overlapping qbeg qend (nodes (base t))) Hls ltac:(lia)) as Hsc.
  specialize (Hsc Hscan). destruct Hsc as [Hcs _].
  pose proof (pow2_le (level p + Z.of_nat k + 1) 63 ltac:(lia)) as Hp63.
  exists s, k, cs, (overlapping qbeg qend (nodes (base t))).
  split; [done|]. split; [done|]. split; [by rewrite Hlev|]. split; [exact Hscan|].
  rewrite Hq, (add64_small cs (Z.of_nat k)) by lia. done.
Qed.

(** X15. The criterion that ends the climb: at a real node [n] with
    [outside_max_end(n) <= qbeg] and [qend <= outside_min_beg(n)], every
    stored item that overlaps the query is in the subtree of [n]. *)
Theorem stop_criterion_sufficient items d t (qbeg qend : Z) n nd omb :
  vsize items < 2 ^ 63 → iitii_build (builder_of_range items) d = Some t →
  0 <= n → nodes (base t) !!r n = Some nd →
  outside_min_beg (nodes (base t)) n = Some omb →
  outside_max_end nd <= qbeg → qend <= omb →
  ∀ m ndm, 0 <= m → nodes (base t) !!r m = Some ndm →
    qbeg < get_end (item (iitii_base ndm)) →
    get_beg (item (iitii_base ndm)) < qend →
    in_subtree n m.
Proof.
  intros Hsz Ht Hn Hnd Homb Hmax Hmin m ndm Hm Hndm He Hb.
  destruct (iitii_build_sound items d t Hsz Ht) as (Hok & _).
  destruct Hok as (Hsz' & Hgeo & Haug & Hsorted & Hout & Hempty).
  pose proof (at_rank_Some _ _ _ Hnd) as Hlt.
  assert (2 ^ 63 < 2 ^ 64) as Hpow' by done.
  pose proof (level_lvl n ltac:(lia)) as Hl.
  destruct (decide (n - (2 ^ level n - 1) <= m <= n + (2 ^ level n - 1))) as [Hin|Hnin].
  { by apply (in_subtree_range n (level n) m Hl ltac:(lia)). }
  exfalso.
  assert (¬ in_subtree n m) as Hni.
  { by rewrite (in_subtree_range n (level n) m Hl ltac:(lia)). }
  destruct (outside_min_beg_spec (nodes (base t)) n Hsorted Hsz' ltac:(lia))
    as (omb' & Homb' & Hspec).
  assert (omb' = omb) as -> by congruence.
  specialize (Hout n nd Hn Hnd).
  destruct (Z.lt_ge_cases (node_beg ndm) (node_beg nd)) as [Hlo|Hhi].
  - assert (outside_lt (nodes (base t)) n m) as Hol.
    { split; [done|]. by exists nd, ndm. }
    destruct Hout as [Hsome _].
    destruct (Hsome (ex_intro _ m (conj Hm Hol))) as [_ Hub].
    specialize (Hub m ndm Hm Hol Hndm). unfold node_end, node_item in Hub.
    cbn [node_base iitii_node_type] in Hub. lia.
  - assert (outside_ge (nodes (base t)) n m) as Hog.
    { split; [done|]. by exists nd, ndm. }
    destruct Hspec as [Hsome _].
    destruct (Hsome (ex_intro _ m (conj Hm Hog))) as [_ Hlb].
    specialize (Hlb m ndm Hm Hog Hndm). unfold node_beg, node_item in Hlb.
    cbn [node_base iitii_node_type] in Hlb. lia.
Qed.

(** X16. The nodes on the left spine of the tree, of rank [2^k - 1], the
    root among them: nothing sorts before their subtree, and their
    [outside_max_end] is the least [Pos], as the constructor left it. *)
Theorem left_spine_outside_max_end items d t n nd :
  vsize items < 2 ^ 63 → iitii_build (builder_of_range items) d = Some t →
  0 <= n → nodes (base t) !!r n = Some nd → leftmost_child n = 0 →
  outside_max_end nd = pos_min.
Proof.
  intros Hsz Ht Hn Hnd Hleft.
  destruct (iitii_build_sound items d t Hsz Ht) as (Hok & _).
  destruct Hok as (Hsz' & Hgeo & Haug & Hsorted & Hout & Hempty).
  pose proof (at_rank_Some _ _ _ Hnd) as Hlt.
  assert (2 ^ 63 < 2 ^ 64) as Hpow' by done.
  pose proof (level_lvl n ltac:(lia)) as Hl.
  rewrite (leftmost_child_lvl n (level n)) in Hleft by (done || lia).
  destruct (Hout n nd Hn Hnd) as [_ Hnone]. apply Hnone.
  intros (i & Hi & Hol).
  pose proof (outside_lt_left _ n (level n) i Hsorted Hl ltac:(lia) Hi Hol). lia.
Qed.

End Climb.

Lemma climb_within_height_witness :
  vsize example_items7 < 2 ^ 63 ∧
  iitii_build (builder_of_range example_items7) 2 = Some example_index ∧
  predict_leaf (with_counters example_index 5 9) 41 = Some 4 ∧ 4 ≠ nrank ∧
  ∃ s k scan_cost ans,
    climb_steps (with_counters example_index 5 9) 41 42 4 k s ∧
    level s = level 4 + Z.of_nat k ∧ level s <= root_level (base example_index) ∧
    scan 64 (nodes (base example_index)) s 41 42 [] = Some (scan_cost, ans) ∧
    iitii_overlap (with_counters example_index 5 9) 41 42 []
      = Some (scan_cost + Z.of_nat k, ans,
              with_counters example_index (add64 5 1) (add64 9 (Z.of_nat k))).
Proof.
  split; [vm_compute; reflexivity|]. split; [vm_compute; reflexivity|].
  split; [vm_compute; reflexivity|].
  split; [vm_compute; intros Heq; discriminate Heq|].
  apply (climb_within_height example_items7 2 example_index 5 9 41 42 [] 4).
  - vm_compute; reflexivity.
  - vm_compute; reflexivity.
  - vm_compute; reflexivity.
  - vm_compute; intros Heq; discriminate Heq.
Defined.

Lemma stop_criterion_sufficient_witness :
  vsize example_items7 < 2 ^ 63 ∧
  iitii_build (builder_of_range example_items7) 2 = Some example_index ∧
  0 <= 5 ∧
  ∃ nd omb,
    nodes (base example_index) !!r 5 = Some nd ∧
    outside_min_beg (nodes (base example_index)) 5 = Some omb ∧
    outside_max_end nd <= 60 ∧ 65 <= omb ∧
    ∀ m ndm, 0 <= m → nodes (base example_index) !!r m = Some ndm →
      60 < get_end (item (iitii_base ndm)) →
      get_beg (item (iitii_base ndm)) < 65 →
      in_subtree 5 m.
Proof.
  split; [vm_compute; reflexivity|]. split; [vm_compute; reflexivity|].
  split; [lia|]. eexists _, _.
  split; [vm_compute; reflexivity|]. split; [vm_compute; reflexivity|].
  split; [vm_compute; intros Heq; discriminate Heq|].
  split; [vm_compute; intros Heq; discriminate Heq|].
  eapply (stop_criterion_sufficient example_items7 2 example_index 60 65 5).
  - vm_compute; reflexivity.
  - vm_compute; reflexivity.
  - lia.
  - vm_compute; reflexivity.
  - vm_compute; reflexivity.
  - vm_compute; intros Heq; discriminate Heq.
  - vm_compute; intros Heq; discriminate Heq.
Defined.

Lemma left_spine_outside_max_end_witness :
  vsize example_items7 < 2 ^ 63 ∧
  iitii_build (builder_of_range example_items7) 2 = Some example_index ∧
  0 <= 1 ∧
  ∃ nd, nodes (base example_index) !!r 1 = Some nd ∧ leftmost_child 1 = 0 ∧
        outside_max_end nd = pos_min.
Proof.
  split; [vm_compute; reflexivity|]. split; [vm_compute; reflexivity|].
  split; [lia|]. eexists.
  split; [vm_compute; reflexivity|]. split; [vm_compute; reflexivity|].
  eapply (left_spine_outside_max_end example_items7 2 example_index 1).
  - vm_compute; reflexivity.
  - vm_compute; reflexivity.
  - lia.
  - vm_compute; reflexivity.
  - vm_compute; reflexivity.
Defined.

(** ** The two indexes side by side *)

Section SortedItems.
Context {Item : Type} `{NodeType Item Node}.

(** The items of the sorted buffer are in the order of their keys. *)
Lemma sorted_items (v : list Node) :
  StronglySorted (λ a b : Item, key_le (item_key a) (item_key b))
    (node_item <$> std_sort v).
Proof.
  apply (StronglySorted_fmap _ node_le); [|apply std_sort_sorted].
  intros x y Hxy. apply node_le_spec in Hxy. unfold key_le. simpl. done.
Qed.

End SortedItems.

Section SameAnswers.
Context {Item : Type} `{Interval Item} `{PosType} `{FloatOps}.
Implicit Types (items : list Item).

Local Arguments which_domain : simpl never.
Local Arguments train : simpl never.
Local Arguments running_max_end : simpl never.
Local Arguments fill_outside : simpl never.

(** The items of the nodes of a built [iitii], in rank order, are those of
    the sorted buffer. *)
Lemma iitii_ctor_items (nodes_ : list (iitii_node Item)) d t :
  vsize nodes_ < 2 ^ 63 → fresh nodes_ → fresh_outside nodes_ →
  iitii_ctor nodes_ d = Some t →
  node_item <$> nodes (base t) = node_item <$> std_sort nodes_.
Proof.
  intros Hsz Hfresh Hfo Ht. unfold iitii_ctor in Ht.
  destruct (iit_base_ctor_spec nodes_ Hsz Hfresh)
    as (super & Hsuper & Hgeo & Hupd & Haug & Hsorted).
  rewrite Hsuper, bind_Some in Ht. cbv zeta in Ht.
  pose proof (ime_updated_items _ _ Hupd) as Hitems.
  pose proof (ime_updated_vsize _ _ Hupd) as Hlen.
  rewrite std_sort_length in Hlen.
  destruct (vsize (nodes super) =? 0) eqn:Hz.
  - injection Ht as <-. exact Hitems.
  - apply Z.eqb_neq in Hz.
    destruct (nodes super !!r 0) as [n0|]; [|done]. rewrite bind_Some in Ht.
    destruct (last (nodes super)) as [nback|]; [|done]. rewrite bind_Some in Ht.
    destruct (running_max_end_spec (nodes super)) as (rme & Hrme & Hrme');
      [unfold vsize in *; lia|].
    rewrite Hrme, bind_Some in Ht.
    assert (fresh_outside (nodes super)) as Hfo'.
    { apply (ime_updated_fresh_outside _ _ Hupd). intros nd Hnd. apply Hfo.
      by rewrite <- (std_sort_perm nodes_). }
    destruct (fill_outside_spec rme (nodes super))
      as (nds & Hfill & Hbase & Hout); [done|lia|done|done|].
    rewrite Hfill, bind_Some in Ht. cbv zeta in Ht.
    destruct (train _ 0) as [params|]; [|done]. rewrite bind_Some in Ht.
    injection Ht as <-. cbn [base nodes].
    by rewrite (base_items _ _ Hbase).
Qed.

(** X17. For a number of domains that fits, the query of [iitii] and the
    query of [iit] on the same items both return, whatever [ans] held
    before; the two vectors hold the same items with the same numbers of
    occurrences and show the same [beg] and [end] at every position, and
    they are the same vector when no two distinct items have both the same
    [beg] and the same [end]. *)
Theorem iitii_overlap_same_answers items d (qbeg qend : Z) (ans0 ans1 : list Item) :
  vsize items < 2 ^ 63 → 3 * Z.max 1 (wrap 32 d) < 2 ^ 32 →
  ∃ t cost ans t' (b0 : iit_base (iit_node_base Item)) cost0 ans',
    iitii_build (builder_of_range items) d = Some t ∧
    iitii_overlap t qbeg qend ans0 = Some (cost, ans, t') ∧
    iit_build (builder_of_range items) = Some b0 ∧
    iit_base_overlap b0 qbeg qend ans1 = Some (cost0, ans') ∧
    ans ≡ₚ ans' ∧
    (λ x, (get_beg x, get_end x)) <$> ans = (λ x, (get_beg x, get_end x)) <$> ans' ∧
    ((∀ x y, x ∈ items → y ∈ items →
        get_beg x = get_beg y → get_end x = get_end y → x = y) →
     ans = ans').
Proof.
  intros Hsz Hd.
  destruct (iitii_build_total items d Hsz Hd) as (t & Ht & Hpar).
  destruct (iitii_build_sound items d t Hsz Ht) as (Hok & Hperm & _ & _).
  destruct (predict_leaf_total t qbeg Hpar) as (p & Hp).
  destruct (build_spec (Node := iit_node_base Item) items Hsz)
    as (b0 & Hb0 & Hgeo0 & Haug0 & Hsorted0 & Hperm0 & Hupd0).
  destruct (iit_base_overlap_spec b0 qbeg qend ans1 Hgeo0 Hsorted0
              (augmented_ime_bound _ Haug0)) as (c0 & Hq0).
  set (R := λ a b : Item, key_le (item_key a) (item_key b)).
  assert (StronglySorted R (overlapping qbeg qend (nodes (base t)))) as Hs1.
  { unfold overlapping. apply StronglySorted_filter. unfold iitii_build in Ht.
    rewrite (iitii_ctor_items _ _ _ ltac:(by rewrite builder_vsize)
               (builder_fresh items) (builder_fresh_outside items) Ht).
    apply sorted_items. }
  assert (StronglySorted R (overlapping qbeg qend (nodes b0))) as Hs2.
  { unfold overlapping. apply StronglySorted_filter.
    rewrite (ime_updated_items _ _ Hupd0). apply sorted_items. }
  assert (overlapping qbeg qend (nodes (base t)) ≡ₚ overlapping qbeg qend (nodes b0))
    as Hsame by (unfold overlapping; by rewrite Hperm, Hperm0).
  assert (item_key <$> overlapping qbeg qend (nodes (base t))
          = item_key <$> overlapping qbeg qend (nodes b0)) as Hkeys.
  { apply (StronglySorted_unique key_le).
    - by apply (StronglySorted_fmap _ R).
    - by apply (StronglySorted_fmap _ R).
    - by rewrite Hsame. }
  assert ((∀ x y, x ∈ items → y ∈ items →
             get_beg x = get_beg y → get_end x = get_end y → x = y) →
          overlapping qbeg qend (nodes (base t)) = overlapping qbeg qend (nodes b0))
    as Hinj.
  { intros Hdistinct. apply (StronglySorted_unique_strong R); [|done..].
    intros x y Hx Hy Hxy Hyx.
    assert (∀ z, z ∈ overlapping qbeg qend (nodes (base t)) → z ∈ items) as Hin.
    { intros z Hz. unfold overlapping in Hz. apply list_elem_of_filter in Hz as [_ Hz].
      by rewrite Hperm in Hz. }
    assert (y ∈ items) as Hyi.
    { unfold overlapping in Hy. apply list_elem_of_filter in Hy as [_ Hy].
      by rewrite Hperm0 in Hy. }
    pose proof (anti_symm key_le _ _ Hxy Hyx) as Hk. injection Hk as Hb He.
    apply Hdistinct; [by apply Hin|done..]. }
  destruct (iitii_overlap_spec t qbeg qend ans0 p Hok Hp) as [Hnone Hsome].
  destruct (decide (p = nrank)) as [Hpn|Hpn].
  - destruct (Hnone Hpn) as (c & _ & Hq).
    exists t, c, (overlapping qbeg qend (nodes (base t))), t, b0, c0,
      (overlapping qbeg qend (nodes b0)).
    do 4 (split; [done|]). split; [done|]. split; [exact Hkeys|exact Hinj].
  - destruct (Hsome Hpn) as (s & k & c & _ & _ & Hq).
    eexists t, _, (overlapping qbeg qend (nodes (base t))), _, b0, c0,
      (overlapping qbeg qend (nodes b0)).
    split; [done|]. split; [exact Hq|]. do 2 (split; [done|]).
    split; [done|]. split; [exact Hkeys|exact Hinj].
Qed.

End SameAnswers.

Lemma iitii_overlap_same_answers_witness :
  vsize example_items7 < 2 ^ 63 ∧ 3 * Z.max 1 (wrap 32 2) < 2 ^ 32 ∧
  ∃ t cost ans t' (b0 : iit_base (iit_node_base (Z * Z * Z))) cost0 ans',
    iitii_build (builder_of_range example_items7) 2 = Some t ∧
    iitii_overlap t 41 42 [] = Some (cost, ans, t') ∧
    iit_build (builder_of_range example_items7) = Some b0 ∧
    iit_base_overlap b0 41 42 [(0, 0, 0)] = Some (cost0, ans') ∧
    ans ≡ₚ ans' ∧
    (λ x, (get_beg x, get_end x)) <$> ans = (λ x, (get_beg x, get_end x)) <$> ans' ∧
    ((∀ x y, x ∈ example_items7 → y ∈ example_items7 →
        get_beg x = get_beg y → get_end x = get_end y → x = y) →
     ans = ans').
Proof.
  split; [vm_compute; reflexivity|]. split; [vm_compute; reflexivity|].
  apply (iitii_overlap_same_answers example_items7 2 41 42 [] [(0, 0, 0)]);
    vm_compute; reflexivity.
Defined.

(** ** The order of the nodes *)

Section OrderOfNodes.
Context {Item : Type} `{NodeType Item Node}.

(** X19. [operator<] on nodes is a strict weak order, as [std::sort]
    requires: no node is below itself, the relation is asymmetric and
    transitive, and two nodes of which neither is below the other have the
    same [beg] and the same [end]. *)
Theorem node_lt_strict_weak_order :
  (∀ x : Node, node_lt x x = false) ∧
  (∀ x y : Node, node_lt x y = true → node_lt y x = false) ∧
  (∀ x y z : Node, node_lt x y = true → node_lt y z = true → node_lt x z = true) ∧
  (∀ x y : Node, node_lt x y = false ∧ node_lt y x = false ↔
     get_beg (item (node_base x)) = get_beg (item (node_base y)) ∧
     get_end (item (node_base x)) = get_end (item (node_base y))).
Proof.
  unfold node_lt, node_beg, node_end, node_item.
  split; [|split; [|split]].
  - intros x. rewrite Z.eqb_refl. apply Z.ltb_irrefl.
  - intros x y.
    destruct (Z.eqb_spec (get_beg (item (node_base x))) (get_beg (item (node_base y))));
      destruct (Z.eqb_spec (get_beg (item (node_base y))) (get_beg (item (node_base x))));
      lia.
  - intros x y z.
    destruct (Z.eqb_spec (get_beg (item (node_base x))) (get_beg (item (node_base y))));
      destruct (Z.eqb_spec (get_beg (item (node_base y))) (get_beg (item (node_base z))));
      destruct (Z.eqb_spec (get_beg (item (node_base x))) (get_beg (item (node_base z))));
      lia.
  - intros x y.
    destruct (Z.eqb_spec (get_beg (item (node_base x))) (get_beg (item (node_base y))));
      destruct (Z.eqb_spec (get_beg (item (node_base y))) (get_beg (item (node_base x))));
      lia.
Qed.

End OrderOfNodes.
